(** * The Tetris rules engine of [src/tetris.ts], embedded in Rocq

    The class [TetrisGame] becomes a record [State] of its private fields and
    one function per method.  Numbers of the source are JavaScript doubles:
    the counters (score, level, lines, combo, backToBack, coordinates) only
    ever hold integers and are modelled in [Z]; the timers and the time step
    hold fractional milliseconds.  A finite double is a rational, so the
    timers are in [Q] and are compared there; the two operations that round,
    the sum and the difference of two timers in [update], are parameters of
    the development ([number_add], [number_sub]), of which nothing is
    assumed.  The sample runs at the end use the rounded operations of the
    doubles ([double_add], [double_sub]).  NaN and the infinities are not
    modelled.

    The piece catalog [tetromino.ts] (PIECE_TYPES, TETROMINO_SHAPES,
    getKickData) and the random source [Math.random] are parameters of the
    development.  A method whose source has an unbounded [while] loop takes
    a [fuel] and returns an [option] (sequenced with stdpp's option monad):
    [None] means that the loop was still running when the fuel ran out, or
    that the call threw.

    The last part of the development covers the read-only queries of the
    class, the key and visibility listeners of main.ts (a listener is the
    list of calls it makes on the game) and [drawBoard] of renderer.ts (the
    canvas is the list of [drawCell] calls). *)

From Stdlib Require Import ZArith QArith Qround Qpower Qminmax Qabs Lqa Lia Bool.
From Stdlib Require Import List Permutation.
From Stdlib Require String.
From stdpp Require Import base option list.
Import ListNotations.

Local Open Scope Z_scope.

(** ** Data model *)

(** [PieceType] of tetromino.ts: the closed set of seven tags (the letters
    I O T S Z J L, prefixed here because [I], [O], [S] and [Z] are taken). *)
Inductive PieceType : Type := tI | tO | tT | tS | tZ | tJ | tL.

(** [BoardCell], [Matrix] and [Board] are abbreviations, so that the list
    lemmas apply to them directly. *)
Abbreviation BoardCell := (option PieceType) (only parsing).

Inductive GameState : Type := playing | paused | over.

Record ActivePiece : Type := mkPiece {
  p_type : PieceType;
  p_rotation : Z;
  p_x : Z;
  p_y : Z
}.

(** A rotation matrix, by the truthiness of its entries. *)
Abbreviation Matrix := (list (list bool)) (only parsing).

Abbreviation Board := (list (list BoardCell)) (only parsing).

Definition COLS : Z := 10.
Definition VISIBLE_ROWS : Z := 20.
Definition TOTAL_ROWS : Z := 22.
Definition HIDDEN_ROWS : Z := TOTAL_ROWS - VISIBLE_ROWS.
Definition LOCK_DELAY_MS : Q := 500 # 1.
Definition SOFT_DROP_INTERVAL : Q := 50 # 1.
Definition LINE_SCORES : list Z := [0; 100; 300; 500; 800].

Definition SPAWN_POSITIONS (t : PieceType) : Z * Z :=
  match t with
  | tI => (3, -2)
  | _ => (3, -1)
  end.

Definition emptyRow : list BoardCell := replicate (Z.to_nat COLS) None.

Definition createBoard : Board := replicate (Z.to_nat TOTAL_ROWS) emptyRow.

(** The private fields of [TetrisGame]; [randomCalls] counts the calls of
    [Math.random] made so far, that is the position in the random source. *)
Record State : Type := mkState {
  board : Board;
  queue : list PieceType;
  active : option ActivePiece;
  holdPiece : option PieceType;
  canHold : bool;
  gravityTimer : Q;
  gravityInterval : Q;
  lockTimer : Q;
  grounded : bool;
  softDropActive : bool;
  state : GameState;
  score : Z;
  level : Z;
  lines : Z;
  combo : Z;
  backToBack : Z;
  randomCalls : nat
}.

Definition set_board (v : Board) (s : State) : State :=
  mkState v (queue s) (active s) (holdPiece s) (canHold s) (gravityTimer s)
    (gravityInterval s) (lockTimer s) (grounded s) (softDropActive s) (state s)
    (score s) (level s) (lines s) (combo s) (backToBack s) (randomCalls s).
Definition set_queue (v : list PieceType) (s : State) : State :=
  mkState (board s) v (active s) (holdPiece s) (canHold s) (gravityTimer s)
    (gravityInterval s) (lockTimer s) (grounded s) (softDropActive s) (state s)
    (score s) (level s) (lines s) (combo s) (backToBack s) (randomCalls s).
Definition set_active (v : option ActivePiece) (s : State) : State :=
  mkState (board s) (queue s) v (holdPiece s) (canHold s) (gravityTimer s)
    (gravityInterval s) (lockTimer s) (grounded s) (softDropActive s) (state s)
    (score s) (level s) (lines s) (combo s) (backToBack s) (randomCalls s).
Definition set_holdPiece (v : option PieceType) (s : State) : State :=
  mkState (board s) (queue s) (active s) v (canHold s) (gravityTimer s)
    (gravityInterval s) (lockTimer s) (grounded s) (softDropActive s) (state s)
    (score s) (level s) (lines s) (combo s) (backToBack s) (randomCalls s).
Definition set_canHold (v : bool) (s : State) : State :=
  mkState (board s) (queue s) (active s) (holdPiece s) v (gravityTimer s)
    (gravityInterval s) (lockTimer s) (grounded s) (softDropActive s) (state s)
    (score s) (level s) (lines s) (combo s) (backToBack s) (randomCalls s).
Definition set_gravityTimer (v : Q) (s : State) : State :=
  mkState (board s) (queue s) (active s) (holdPiece s) (canHold s) v
    (gravityInterval s) (lockTimer s) (grounded s) (softDropActive s) (state s)
    (score s) (level s) (lines s) (combo s) (backToBack s) (randomCalls s).
Definition set_gravityInterval (v : Q) (s : State) : State :=
  mkState (board s) (queue s) (active s) (holdPiece s) (canHold s) (gravityTimer s)
    v (lockTimer s) (grounded s) (softDropActive s) (state s)
    (score s) (level s) (lines s) (combo s) (backToBack s) (randomCalls s).
Definition set_lockTimer (v : Q) (s : State) : State :=
  mkState (board s) (queue s) (active s) (holdPiece s) (canHold s) (gravityTimer s)
    (gravityInterval s) v (grounded s) (softDropActive s) (state s)
    (score s) (level s) (lines s) (combo s) (backToBack s) (randomCalls s).
Definition set_grounded (v : bool) (s : State) : State :=
  mkState (board s) (queue s) (active s) (holdPiece s) (canHold s) (gravityTimer s)
    (gravityInterval s) (lockTimer s) v (softDropActive s) (state s)
    (score s) (level s) (lines s) (combo s) (backToBack s) (randomCalls s).
Definition set_softDropActive (v : bool) (s : State) : State :=
  mkState (board s) (queue s) (active s) (holdPiece s) (canHold s) (gravityTimer s)
    (gravityInterval s) (lockTimer s) (grounded s) v (state s)
    (score s) (level s) (lines s) (combo s) (backToBack s) (randomCalls s).
Definition set_state (v : GameState) (s : State) : State :=
  mkState (board s) (queue s) (active s) (holdPiece s) (canHold s) (gravityTimer s)
    (gravityInterval s) (lockTimer s) (grounded s) (softDropActive s) v
    (score s) (level s) (lines s) (combo s) (backToBack s) (randomCalls s).
Definition set_score (v : Z) (s : State) : State :=
  mkState (board s) (queue s) (active s) (holdPiece s) (canHold s) (gravityTimer s)
    (gravityInterval s) (lockTimer s) (grounded s) (softDropActive s) (state s)
    v (level s) (lines s) (combo s) (backToBack s) (randomCalls s).
Definition set_level (v : Z) (s : State) : State :=
  mkState (board s) (queue s) (active s) (holdPiece s) (canHold s) (gravityTimer s)
    (gravityInterval s) (lockTimer s) (grounded s) (softDropActive s) (state s)
    (score s) v (lines s) (combo s) (backToBack s) (randomCalls s).
Definition set_lines (v : Z) (s : State) : State :=
  mkState (board s) (queue s) (active s) (holdPiece s) (canHold s) (gravityTimer s)
    (gravityInterval s) (lockTimer s) (grounded s) (softDropActive s) (state s)
    (score s) (level s) v (combo s) (backToBack s) (randomCalls s).
Definition set_combo (v : Z) (s : State) : State :=
  mkState (board s) (queue s) (active s) (holdPiece s) (canHold s) (gravityTimer s)
    (gravityInterval s) (lockTimer s) (grounded s) (softDropActive s) (state s)
    (score s) (level s) (lines s) v (backToBack s) (randomCalls s).
Definition set_backToBack (v : Z) (s : State) : State :=
  mkState (board s) (queue s) (active s) (holdPiece s) (canHold s) (gravityTimer s)
    (gravityInterval s) (lockTimer s) (grounded s) (softDropActive s) (state s)
    (score s) (level s) (lines s) (combo s) v (randomCalls s).
Definition set_randomCalls (v : nat) (s : State) : State :=
  mkState (board s) (queue s) (active s) (holdPiece s) (canHold s) (gravityTimer s)
    (gravityInterval s) (lockTimer s) (grounded s) (softDropActive s) (state s)
    (score s) (level s) (lines s) (combo s) (backToBack s) v.

(** The commands of the external interface. *)
Inductive Command : Type :=
  | CReset
  | CUpdate (delta : Q)
  | CMove (direction : Z)
  | CRotate (clockwise : bool)
  | CHardDrop
  | CTapSoftDrop
  | CSetSoftDrop (on : bool)
  | CHold
  | CTogglePause.

Definition is_playing (g : GameState) : bool :=
  match g with playing => true | _ => false end.

Definition is_some {A : Type} (o : option A) : bool :=
  match o with Some _ => true | None => false end.

(** ** Keyboard events (main.ts) *)

(** The values of [event.code] that the listeners of main.ts name. *)
Module Keys.
Import String.
Local Open Scope string_scope.
Definition ArrowLeft : string := "ArrowLeft".
Definition ArrowRight : string := "ArrowRight".
Definition ArrowDown : string := "ArrowDown".
Definition ArrowUp : string := "ArrowUp".
Definition Space : string := "Space".
Definition KeyX : string := "KeyX".
Definition KeyS : string := "KeyS".
Definition KeyZ : string := "KeyZ".
Definition KeyA : string := "KeyA".
Definition KeyP : string := "KeyP".
Definition Escape : string := "Escape".
Definition KeyC : string := "KeyC".
Definition ShiftLeft : string := "ShiftLeft".
Definition ShiftRight : string := "ShiftRight".
End Keys.

(** What the listeners read of a [KeyboardEvent]; [e_key] is [None] for an
    undefined [event.key]. *)
Record KeyboardEvent : Type := mkKey {
  e_key : option String.string;
  e_code : String.string;
  e_repeat : bool
}.

(** [!event.key]: undefined or the empty string. *)
Definition noKey (event : KeyboardEvent) : bool :=
  match e_key event with
  | None => true
  | Some k => String.eqb k String.EmptyString
  end.

(** [codes.includes(code)], and a [case] with the labels [codes]. *)
Definition includes (codes : list String.string) (code : String.string) : bool :=
  existsb (String.eqb code) codes.

Definition isRotationKey (code : String.string) : bool :=
  includes [Keys.ArrowUp; Keys.KeyX; Keys.KeyS; Keys.KeyZ; Keys.KeyA] code.

Definition isHoldKey (code : String.string) : bool :=
  includes [Keys.ShiftLeft; Keys.ShiftRight; Keys.KeyC] code.

(** ** Array helpers *)

(** [board[y][x]], read at indices the caller has checked to be
    non-negative.  An index past the end reads as empty here; on the 22 x 10
    boards of the engine (see [board_ok]) the guarded reads are in range. *)
Definition cellAt (b : Board) (y x : Z) : BoardCell :=
  match b !! Z.to_nat y with
  | Some r => match r !! Z.to_nat x with
              | Some c => c
              | None => None
              end
  | None => None
  end.

(** [board[y][x] = v], at indices the caller has checked to be in range. *)
Definition setCell (b : Board) (y x : Z) (v : BoardCell) : Board :=
  match b !! Z.to_nat y with
  | Some r => <[Z.to_nat y := <[Z.to_nat x := v]> r]> b
  | None => b
  end.

(** [matrix[row][col]] as a truth value ([undefined] is falsy). *)
Definition matrixCell (m : Matrix) (row col : nat) : bool :=
  match m !! row with
  | Some r => match r !! col with
              | Some c => c
              | None => false
              end
  | None => false
  end.

(** [[values[i], values[j]] = [values[j], values[i]]] for indices inside the
    array (the shuffle only produces such indices). *)
Definition swap {A : Type} (values : list A) (i j : nat) : list A :=
  match values !! i, values !! j with
  | Some vi, Some vj => <[j := vi]> (<[i := vj]> values)
  | _, _ => values
  end.

(** ** The piece catalog used to run the engine on concrete inputs

    tetromino.ts is not part of the sources at hand.  The engine below is
    parametric in the catalog; this instance (the usual tetromino matrices
    and a short kick list that starts with the identity offset) only serves
    to evaluate the engine on concrete inputs. *)

Definition sample_PIECE_TYPES : list PieceType := [tI; tO; tT; tS; tZ; tJ; tL].

Definition rows_of (l : list (list nat)) : Matrix :=
  map (map (fun n => negb (Nat.eqb n 0))) l.

Definition sample_SHAPES (t : PieceType) : list Matrix :=
  map rows_of
  match t with
  | tI => [ [[0;0;0;0];[1;1;1;1];[0;0;0;0];[0;0;0;0]];
            [[0;0;1;0];[0;0;1;0];[0;0;1;0];[0;0;1;0]];
            [[0;0;0;0];[0;0;0;0];[1;1;1;1];[0;0;0;0]];
            [[0;1;0;0];[0;1;0;0];[0;1;0;0];[0;1;0;0]] ]
  | tO => [ [[0;1;1;0];[0;1;1;0];[0;0;0;0]];
            [[0;1;1;0];[0;1;1;0];[0;0;0;0]];
            [[0;1;1;0];[0;1;1;0];[0;0;0;0]];
            [[0;1;1;0];[0;1;1;0];[0;0;0;0]] ]
  | tT => [ [[0;1;0];[1;1;1];[0;0;0]];
            [[0;1;0];[0;1;1];[0;1;0]];
            [[0;0;0];[1;1;1];[0;1;0]];
            [[0;1;0];[1;1;0];[0;1;0]] ]
  | tS => [ [[0;1;1];[1;1;0];[0;0;0]];
            [[0;1;0];[0;1;1];[0;0;1]];
            [[0;0;0];[0;1;1];[1;1;0]];
            [[1;0;0];[1;1;0];[0;1;0]] ]
  | tZ => [ [[1;1;0];[0;1;1];[0;0;0]];
            [[0;0;1];[0;1;1];[0;1;0]];
            [[0;0;0];[1;1;0];[0;1;1]];
            [[0;1;0];[1;1;0];[1;0;0]] ]
  | tJ => [ [[1;0;0];[1;1;1];[0;0;0]];
            [[0;1;1];[0;1;0];[0;1;0]];
            [[0;0;0];[1;1;1];[0;0;1]];
            [[0;1;0];[0;1;0];[1;1;0]] ]
  | tL => [ [[0;0;1];[1;1;1];[0;0;0]];
            [[0;1;0];[0;1;0];[0;1;1]];
            [[0;0;0];[1;1;1];[1;0;0]];
            [[1;1;0];[0;1;0];[0;1;0]] ]
  end%nat.

Definition sample_kicks (t : PieceType) (from to : Z) : list (Z * Z) :=
  [(0, 0); (-1, 0); (1, 0); (0, -1)].

(** A random source that always answers 1/2: the first bag is
    I J O Z T L S. *)
Definition sample_random (n : nat) : Q := 1 # 2.

(** A random source that always answers 0: the first bag starts with O. *)
Definition zero_random (n : nat) : Q := 0%Q.

(** ** The numbers of JavaScript, on the timers

    A finite double is a rational with a significand of 53 bits.  The sum
    and the difference of two doubles are the exact results rounded to the
    nearest double, ties to the even significand.  (Results beyond the
    largest double, which the source would turn into an infinity, are out of
    the reach of timers counted in milliseconds and are left as they are.) *)

(** The nearest integer, ties to even. *)
Definition roundHalfEven (q : Q) : Z :=
  let f := Qfloor q in
  match Qcompare (q - inject_Z f) (1 # 2) with
  | Lt => f
  | Gt => f + 1
  | Eq => if Z.even f then f else f + 1
  end.

(** floor (log2 |q|), for a rational other than 0. *)
Definition binade (q : Q) : Z :=
  let e := Z.log2 (Z.abs (Qnum q)) - Z.log2 (Z.pos (Qden q)) in
  if Qle_bool (Qpower (2 # 1) e) (Qabs q) then e else e - 1.

(** The double nearest to a rational: 53 bits of significand, and no
    exponent below that of the subnormal numbers. *)
Definition roundDouble (q : Q) : Q :=
  if Qeq_bool q 0 then 0%Q
  else
    let ulp := Qpower (2 # 1) (Z.max (binade q - 52) (-1074)) in
    Qred (inject_Z (roundHalfEven (q / ulp)) * ulp).

Definition double_add (a b : Q) : Q := roundDouble (a + b).
Definition double_sub (a b : Q) : Q := roundDouble (a - b).

(** The doubles written 333.3333333333333 and 16.666666666666668 in the
    source text of a program: a third of a second, and a frame at 60 Hz. *)
Definition third_of_a_second : Q := roundDouble (3333333333333333 # 10000000000000).
Definition frame_at_60Hz : Q := roundDouble (16666666666666668 # 1000000000000000).

(** ** Sample boards, states and runs

    Boards are written as grids of digits: 0 for an empty cell, 1..7 for
    the types I O T S Z J L. *)

Definition tag (n : nat) : BoardCell :=
  match n with
  | 0 => None
  | 1 => Some tI
  | 2 => Some tO
  | 3 => Some tT
  | 4 => Some tS
  | 5 => Some tZ
  | 6 => Some tJ
  | _ => Some tL
  end%nat.

Definition grid (rows : list (list nat)) : list (list BoardCell) :=
  map (map tag) rows.

(** The given rows at the bottom of an otherwise empty board. *)
Definition stack (rows : list (list nat)) : list (list BoardCell) :=
  replicate (Z.to_nat TOTAL_ROWS - length rows) emptyRow ++ grid rows.

(** The state built by the constructor with the random source 1/2. *)
Definition sample_start : State :=
  mkState createBoard [tJ; tO; tZ; tT; tL; tS] (Some (mkPiece tI 0 3 (-2))) None true
    0%Q (1000 # 1) 0%Q false false playing 0 1 0 (-1) 0 6.

(** A board with two full rows that are not neighbours. *)
Definition two_full_rows : list (list BoardCell) :=
  stack [ [6;0;0;0;0;0;0;0;0;0];
          [1;1;1;1;1;1;1;1;1;1];
          [6;0;0;0;0;0;0;0;0;0];
          [1;1;1;1;1;1;1;1;1;1];
          [6;0;0;0;0;0;0;0;0;0] ]%nat.

Definition two_rows_cleared : list (list BoardCell) :=
  stack [ [6;0;0;0;0;0;0;0;0;0];
          [6;0;0;0;0;0;0;0;0;0];
          [6;0;0;0;0;0;0;0;0;0] ]%nat.

(** A state at level 2 right after a 4-line clear. *)
Definition after_tetris : State :=
  mkState createBoard [] None None true 0%Q (1000 # 1) 0%Q false false playing
    1000 2 14 0 1 O.

(** A game that ends: fourteen hard drops fill the middle columns, and the
    piece that spawns on top of them locks above the board after the lock
    delay. *)
Definition game_over_run : list Command :=
  repeat CHardDrop 14 ++ [CUpdate (500 # 1)].

Definition sample_over : State :=
  mkState
    (grid [ [0;0;0;0;4;4;0;0;0;0];
            [0;0;0;4;4;7;0;0;0;0];
            [0;0;0;7;7;7;0;0;0;0];
            [0;0;0;0;3;0;0;0;0;0];
            [0;0;0;3;3;3;0;0;0;0];
            [0;0;0;5;5;0;0;0;0;0];
            [0;0;0;0;5;5;0;0;0;0];
            [0;0;0;0;2;2;0;0;0;0];
            [0;0;0;6;2;2;0;0;0;0];
            [0;0;0;6;6;6;0;0;0;0];
            [0;0;0;1;1;1;1;0;0;0];
            [0;0;0;0;4;4;0;0;0;0];
            [0;0;0;4;4;7;0;0;0;0];
            [0;0;0;7;7;7;0;0;0;0];
            [0;0;0;0;3;0;0;0;0;0];
            [0;0;0;3;3;3;0;0;0;0];
            [0;0;0;5;5;0;0;0;0;0];
            [0;0;0;0;5;5;0;0;0;0];
            [0;0;0;0;2;2;0;0;0;0];
            [0;0;0;6;2;2;0;0;0;0];
            [0;0;0;6;6;6;0;0;0;0];
            [0;0;0;1;1;1;1;0;0;0] ]%nat)
    [tJ; tO; tZ; tT; tL; tS] None None true
    (500 # 1) (1000 # 1) (500 # 1) true false over 318 1 0 (-1) 0 18.

(** A piece brought to the floor by soft drop: 22 ticks of 50 ms. *)
Definition soft_drop_run : list Command :=
  CSetSoftDrop true :: repeat (CUpdate (50 # 1)) 22.

Definition sample_landed : State :=
  mkState createBoard [tJ; tO; tZ; tT; tL; tS] (Some (mkPiece tI 0 3 20)) None true
    0%Q (1000 # 1) (50 # 1) true true playing 22 1 0 (-1) 0 6.

(** A game in which an I piece bridges the gap next to an O piece: the
    cells under the bridge stay empty.  The last piece, an O, hangs over
    columns 2 and 3, above the bridge. *)
Definition cavity_run : list Command :=
  [CHold] ++ repeat (CMove 1) 4 ++ [CHardDrop] ++
  repeat (CMove (-1)) 4 ++ [CHardDrop] ++
  [CHold; CMove (-1); CMove (-1)] ++ repeat CHardDrop 6 ++
  [CMove (-1); CMove (-1)].

Definition sample_cavity : State :=
  mkState
    (stack [ [0;0;0;6;0;0;0;0;0;0];
             [0;0;0;6;6;6;0;0;0;0];
             [0;0;0;1;1;1;1;0;0;0];
             [0;0;0;0;4;4;0;0;0;0];
             [0;0;0;4;4;7;0;0;0;0];
             [0;0;0;7;7;7;0;0;0;0];
             [0;0;0;0;3;0;0;0;0;0];
             [0;0;0;3;3;3;0;0;0;0];
             [0;1;1;1;1;0;0;0;0;0];
             [2;2;0;0;0;0;0;6;0;0];
             [2;2;0;0;0;0;0;6;6;6] ]%nat)
    [tZ; tT; tL; tS; tI; tJ; tO; tZ; tT; tL; tS]
    (Some (mkPiece tO 0 1 (-1))) (Some tZ) true
    0%Q (1000 # 1) 0%Q false false playing 274 1 0 (-1) 0 18.

(** The board after an O piece has been dropped on the empty board. *)
Definition board_with_O : list (list BoardCell) :=
  stack [ [0;0;0;0;2;2;0;0;0;0];
          [0;0;0;0;2;2;0;0;0;0] ]%nat.

(** ** The engine *)

Section Engine.

(** The exports of tetromino.ts and the random source. [Math_random n] is
    the value returned by the n-th call of [Math.random]. *)
Variable PIECE_TYPES : list PieceType.
Variable TETROMINO_SHAPES : PieceType -> list Matrix.
Variable getKickData : PieceType -> Z -> Z -> list (Z * Z).
Variable Math_random : nat -> Q.

(** The sum and the difference of two JavaScript numbers, as [update]
    computes them on the timers.  A finite double is a rational, and the
    comparison of two finite doubles is the comparison of their values; but
    [+] and [-] round their exact result to the nearest double.  Nothing is
    assumed of the two operations: what is proved of [update] holds for the
    rounded operations of the source ([double_add] and [double_sub] above)
    as it does for the exact ones. *)
Variable number_add : Q -> Q -> Q.
Variable number_sub : Q -> Q -> Q.

(** [shuffle]: the loop runs for i = length - 1 down to 1; the argument
    [i] of [shuffleLoop] is the current index. *)
Fixpoint shuffleLoop {A : Type} (i : nat) (values : list A) (calls : nat)
  : list A * nat :=
  match i with
  | O => (values, calls)
  | S i' =>
      let j := Z.to_nat (Qfloor (Math_random calls * inject_Z (Z.of_nat i + 1))) in
      shuffleLoop i' (swap values i j) (S calls)
  end.

Definition shuffle {A : Type} (values : list A) (calls : nat) : list A * nat :=
  shuffleLoop (length values - 1)%nat values calls.

Definition createPiece (t : PieceType) : ActivePiece :=
  let spawn := SPAWN_POSITIONS t in
  mkPiece t 0 (fst spawn) (snd spawn).

Definition computeGravityInterval (lvl : Z) : Q :=
  let levelIndex := Z.max 0 (lvl - 1) in
  let speed := Qmax (1 # 10) ((8 # 10) - inject_Z levelIndex * (7 # 1000)) in
  Qmax (50 # 1) (Qpower speed levelIndex * (1000 # 1)).

(** [getMatrix]: [states[rotation % states.length]].  Outside the table
    the source reads [undefined] (and its callers throw); the rotation of an
    engine piece stays within 0..3. *)
Definition getMatrix (t : PieceType) (rotation : Z) : Matrix :=
  let states := TETROMINO_SHAPES t in
  let index := Z.rem rotation (Z.of_nat (length states)) in
  if index <? 0 then []
  else match states !! Z.to_nat index with
       | Some m => m
       | None => []
       end.

(** [collides]: the inner loop over the columns of one matrix row, from
    column [col] on, and the outer loop over the rows, from row [row] on. *)
Fixpoint collidesCols (b : Board) (x boardY : Z) (col : Z) (cells : list bool)
  : bool :=
  match cells with
  | [] => false
  | c :: rest =>
      if negb c then collidesCols b x boardY (col + 1) rest
      else
        let boardX := x + col in
        if (boardX <? 0) || (boardX >=? COLS) || (boardY >=? TOTAL_ROWS) then true
        else if (boardY >=? 0) && is_some (cellAt b boardY boardX) then true
        else collidesCols b x boardY (col + 1) rest
  end.

Fixpoint collidesRows (b : Board) (x y : Z) (row : Z) (m : Matrix) : bool :=
  match m with
  | [] => false
  | cells :: rest =>
      if collidesCols b x (y + row) 0 cells then true
      else collidesRows b x y (row + 1) rest
  end.

Definition collides (b : Board) (t : PieceType) (x y rotation : Z) : bool :=
  collidesRows b x y 0 (getMatrix t rotation).

Definition checkGrounded (s : State) : bool :=
  match active s with
  | None => false
  | Some a => collides (board s) (p_type a) (p_x a) (p_y a + 1) (p_rotation a)
  end.

Definition endGame (s : State) : State :=
  set_softDropActive false (set_active None (set_state over s)).

Definition tryMove (dx dy : Z) (s : State) : bool * State :=
  match active s with
  | None => (false, s)
  | Some a =>
      let newX := p_x a + dx in
      let newY := p_y a + dy in
      if collides (board s) (p_type a) newX newY (p_rotation a) then
        (false, if dy >? 0 then set_grounded true s else s)
      else
        let s1 := set_active (Some (mkPiece (p_type a) (p_rotation a) newX newY)) s in
        let s2 := set_lockTimer 0%Q s1 in
        (true, set_grounded (checkGrounded s2) s2)
  end.

(** [refillQueue]: one round of the [while] loop per unit of fuel. *)
Fixpoint refillLoop (fuel : nat) (q : list PieceType) (calls : nat)
  : option (list PieceType * nat) :=
  if (length q <? 7)%nat then
    match fuel with
    | O => None
    | S fuel' =>
        let bag := shuffle PIECE_TYPES calls in
        refillLoop fuel' (q ++ fst bag) (snd bag)
    end
  else Some (q, calls).

Definition refillQueue (fuel : nat) (s : State) : option State :=
  r ← refillLoop fuel (queue s) (randomCalls s);
  Some (set_randomCalls (snd r) (set_queue (fst r) s)).

Definition spawnNextPiece (fuel : nat) (s : State) : option State :=
  s1 ← refillQueue fuel s;
  match queue s1 with
  | [] => Some s1
  | nextType :: rest =>
      let s2 := set_queue rest s1 in
      let s3 := set_active (Some (createPiece nextType)) s2 in
      let s4 := set_canHold true s3 in
      let s5 := set_grounded (checkGrounded s4) s4 in
      let s6 := set_lockTimer 0%Q s5 in
      let s7 := set_softDropActive false s6 in
      let s8 := set_gravityTimer 0%Q s7 in
      let a := createPiece nextType in
      if collides (board s8) (p_type a) (p_x a) (p_y a) (p_rotation a)
      then Some (endGame s8)
      else Some s8
  end.

Definition initialFields : State :=
  mkState createBoard [] None None true 0%Q (1000 # 1) 0%Q false false playing
    0 1 0 (-1) 0 O.

Definition reset (fuel : nat) (s : State) : option State :=
  let s0 :=
    mkState createBoard [] None None true 0%Q (1000 # 1) 0%Q false false playing
      0 1 0 (-1) 0 (randomCalls s) in
  s1 ← refillQueue fuel s0;
  spawnNextPiece fuel s1.

(** [new TetrisGame()]: the field initialisers, then [reset]. *)
Definition newGame (fuel : nat) : option State := reset fuel initialFields.

Definition handleLineScoring (linesCleared : Z) (s : State) : State :=
  let s' :=
    if linesCleared >? 0 then
      let s1 := set_lines (lines s + linesCleared) s in
      let levelMultiplier := level s1 in
      let baseScore :=
        match LINE_SCORES !! Z.to_nat linesCleared with
        | Some v => v
        | None => 0
        end in
      let isTetris := linesCleared =? 4 in
      let lineScore := baseScore * levelMultiplier in
      let lineScore :=
        if isTetris && (backToBack s1 >? 0) then (lineScore * 3) / 2 else lineScore in
      let s2 := set_score (score s1 + lineScore) s1 in
      let s3 := set_combo (if combo s2 >=? 0 then combo s2 + 1 else 0) s2 in
      let s4 :=
        if combo s3 >? 0 then set_score (score s3 + 50 * combo s3 * levelMultiplier) s3
        else s3 in
      set_backToBack (if isTetris then backToBack s4 + 1 else 0) s4
    else
      let s1 := set_combo (-1) s in
      if backToBack s1 >? 0 then set_backToBack 0 s1 else s1 in
  let s'' := set_level (lines s' / 10 + 1) s' in
  set_gravityInterval (computeGravityInterval (level s'')) s''.

Definition rowFull (r : list BoardCell) : bool := forallb is_some r.

(** [clearLines]: one round of the [for] loop per unit of fuel; [row] is the
    loop variable.  A missing row makes [this.board[row].every] throw. *)
Fixpoint clearLoop (fuel : nat) (b : Board) (row : Z) (cleared : Z)
  : option (Board * Z) :=
  if row >=? 0 then
    match fuel with
    | O => None
    | S fuel' =>
        match b !! Z.to_nat row with
        | None => None
        | Some r =>
            if rowFull r then
              clearLoop fuel' (emptyRow :: delete (Z.to_nat row) b)
                (row + 1 - 1) (cleared + 1)
            else clearLoop fuel' b (row - 1) cleared
        end
    end
  else Some (b, cleared).

Definition clearLines (fuel : nat) (b : Board) : option (Board * Z) :=
  clearLoop fuel b (TOTAL_ROWS - 1) 0.

(** [lockPiece]: the stamping loops carry the board and the [toppedOut]
    flag. *)
Fixpoint stampCols (t : PieceType) (x boardY : Z) (col : Z) (cells : list bool)
  (acc : Board * bool) : Board * bool :=
  match cells with
  | [] => acc
  | c :: rest =>
      if negb c then stampCols t x boardY (col + 1) rest acc
      else
        let boardX := x + col in
        if boardY <? 0 then stampCols t x boardY (col + 1) rest (fst acc, true)
        else if (boardY >=? TOTAL_ROWS) || (boardX <? 0) || (boardX >=? COLS)
        then stampCols t x boardY (col + 1) rest acc
        else stampCols t x boardY (col + 1) rest
               (setCell (fst acc) boardY boardX (Some t), snd acc)
  end.

Fixpoint stampRows (t : PieceType) (x y : Z) (row : Z) (m : Matrix)
  (acc : Board * bool) : Board * bool :=
  match m with
  | [] => acc
  | cells :: rest =>
      stampRows t x y (row + 1) rest (stampCols t x (y + row) 0 cells acc)
  end.

Definition lockPiece (fuel : nat) (s : State) : option State :=
  match active s with
  | None => Some s
  | Some a =>
      let matrix := getMatrix (p_type a) (p_rotation a) in
      let stamped := stampRows (p_type a) (p_x a) (p_y a) 0 matrix (board s, false) in
      let s1 := set_board (fst stamped) s in
      if snd stamped then Some (endGame s1)
      else
        r ← clearLines fuel (board s1);
        let s2 := handleLineScoring (snd r) (set_board (fst r) s1) in
        let s3 := set_active None s2 in
        let s4 := set_grounded false s3 in
        let s5 := set_lockTimer 0%Q s4 in
        let s6 := set_softDropActive false s5 in
        let s7 := set_gravityTimer 0%Q s6 in
        if is_playing (state s7) then spawnNextPiece fuel s7 else Some s7
  end.

(** [update]: one round of the gravity [while] loop per unit of fuel. *)
Fixpoint gravityLoop (fuel : nat) (interval : Q) (s : State) : option State :=
  if Qle_bool interval (gravityTimer s) && is_some (active s) then
    match fuel with
    | O => None
    | S fuel' =>
        let s1 := set_gravityTimer (number_sub (gravityTimer s) interval) s in
        let moved := tryMove 0 1 s1 in
        if fst moved then
          let s2 := snd moved in
          gravityLoop fuel' interval
            (if softDropActive s2 then set_score (score s2 + 1) s2 else s2)
        else Some (set_grounded true (snd moved))
    end
  else Some s.

Definition update (fuel : nat) (delta : Q) (s : State) : option State :=
  if negb (is_playing (state s)) || negb (is_some (active s)) then Some s
  else
    let interval := if softDropActive s then SOFT_DROP_INTERVAL else gravityInterval s in
    let s1 := set_gravityTimer (number_add (gravityTimer s) delta) s in
    s2 ← gravityLoop fuel interval s1;
    if grounded s2 && is_some (active s2) then
      let s3 := set_lockTimer (number_add (lockTimer s2) delta) s2 in
      if Qle_bool LOCK_DELAY_MS (lockTimer s3) then lockPiece fuel s3 else Some s3
    else Some s2.

Definition move (direction : Z) (s : State) : State :=
  if negb (is_playing (state s)) then s
  else
    let moved := tryMove direction 0 s in
    if fst moved then set_grounded (checkGrounded (snd moved)) (snd moved)
    else snd moved.

(** The [for ... of kicks] loop of [rotate]. *)
Fixpoint rotateKicks (a : ActivePiece) (toRotation : Z) (kicks : list (Z * Z))
  (s : State) : State :=
  match kicks with
  | [] => s
  | (offsetX, offsetY) :: rest =>
      let newX := p_x a + offsetX in
      let newY := p_y a + offsetY in
      if negb (collides (board s) (p_type a) newX newY toRotation) then
        let s1 := set_active (Some (mkPiece (p_type a) toRotation newX newY)) s in
        let s2 := set_grounded (checkGrounded s1) s1 in
        set_lockTimer 0%Q s2
      else rotateKicks a toRotation rest s
  end.

Definition rotate (clockwise : bool) (s : State) : State :=
  if negb (is_playing (state s)) then s
  else match active s with
       | None => s
       | Some a =>
           let dir := if clockwise then 1 else -1 in
           let fromRotation := Z.rem (Z.rem (p_rotation a) 4 + 4) 4 in
           let toRotation := Z.rem (fromRotation + dir + 4) 4 in
           let kicks := getKickData (p_type a) fromRotation toRotation in
           rotateKicks a toRotation kicks s
       end.

(** The [while] loop of [getDropDistance]. *)
Fixpoint dropLoop (fuel : nat) (b : Board) (a : ActivePiece) (distance : Z)
  : option Z :=
  if negb (collides b (p_type a) (p_x a) (p_y a + distance + 1) (p_rotation a)) then
    match fuel with
    | O => None
    | S fuel' => dropLoop fuel' b a (distance + 1)
    end
  else Some distance.

Definition getDropDistance (fuel : nat) (s : State) : option Z :=
  match active s with
  | None => Some 0
  | Some a => dropLoop fuel (board s) a 0
  end.

Definition hardDrop (fuel : nat) (s : State) : option State :=
  if negb (is_playing (state s)) then Some s
  else match active s with
       | None => Some s
       | Some a =>
           distance ← getDropDistance fuel s;
           if distance <=? 0 then Some s
           else
             let s1 := set_active
               (Some (mkPiece (p_type a) (p_rotation a) (p_x a) (p_y a + distance))) s in
             let s2 := set_score (score s1 + distance * 2) s1 in
             lockPiece fuel s2
       end.

Definition tapSoftDrop (s : State) : State :=
  if negb (is_playing (state s)) then s
  else
    let moved := tryMove 0 1 s in
    if fst moved then set_score (score (snd moved) + 1) (snd moved)
    else set_grounded true (snd moved).

Definition setSoftDrop (on : bool) (s : State) : State :=
  if Bool.eqb (softDropActive s) on then s
  else
    let s1 := set_softDropActive on s in
    if on then set_gravityTimer 0%Q s1 else s1.

Definition hold (fuel : nat) (s : State) : option State :=
  if negb (is_playing (state s)) || negb (canHold s) then Some s
  else match active s with
       | None => Some s
       | Some a =>
           let currentType := p_type a in
           let swappedType := holdPiece s in
           let s1 := set_holdPiece (Some currentType) s in
           let s2 := set_canHold false s1 in
           match swappedType with
           | Some t =>
               let n := createPiece t in
               let s3 := set_active (Some n) s2 in
               if collides (board s3) (p_type n) (p_x n) (p_y n) (p_rotation n)
               then Some (endGame s3)
               else
                 let s4 := set_grounded (checkGrounded s3) s3 in
                 let s5 := set_lockTimer 0%Q s4 in
                 let s6 := set_softDropActive false s5 in
                 Some (set_gravityTimer 0%Q s6)
           | None => spawnNextPiece fuel (set_active None s2)
           end
       end.

Definition togglePause (s : State) : State :=
  match state s with
  | playing => set_softDropActive false (set_state paused s)
  | paused => set_state playing s
  | over => s
  end.

(** One command of the external interface. *)
Definition exec (fuel : nat) (c : Command) (s : State) : option State :=
  match c with
  | CReset => reset fuel s
  | CUpdate delta => update fuel delta s
  | CMove direction => Some (move direction s)
  | CRotate clockwise => Some (rotate clockwise s)
  | CHardDrop => hardDrop fuel s
  | CTapSoftDrop => Some (tapSoftDrop s)
  | CSetSoftDrop on => Some (setSoftDrop on s)
  | CHold => hold fuel s
  | CTogglePause => Some (togglePause s)
  end.

(** A run of commands, each with the same fuel. *)
Fixpoint run (fuel : nat) (cs : list Command) (s : State) : option State :=
  match cs with
  | [] => Some s
  | c :: rest => s' ← exec fuel c s; run fuel rest s'
  end.

(** *** The read-only queries *)

(** An entry of the lists returned by [getActiveCells] and
    [getGhostCells]. *)
Record Cell : Type := mkCell {
  c_x : Z;
  c_y : Z;
  c_type : PieceType
}.

(** The record returned by [getStats]. *)
Record GameStats : Type := mkStats {
  st_score : Z;
  st_level : Z;
  st_lines : Z;
  st_combo : Z;
  st_backToBack : Z;
  st_state : GameState
}.

(** [getCellsFor]: the inner loop from column [col] on, the outer loop from
    row [row] on; the cells are pushed in row-major order. *)
Fixpoint cellsCols (t : PieceType) (baseX y : Z) (col : Z) (cells : list bool)
  : list Cell :=
  match cells with
  | [] => []
  | c :: rest =>
      if negb c then cellsCols t baseX y (col + 1) rest
      else mkCell (baseX + col) y t :: cellsCols t baseX y (col + 1) rest
  end.

Fixpoint cellsRows (t : PieceType) (baseX baseY : Z) (row : Z) (m : Matrix)
  : list Cell :=
  match m with
  | [] => []
  | cells :: rest =>
      cellsCols t baseX (baseY + row) 0 cells ++ cellsRows t baseX baseY (row + 1) rest
  end.

Definition getCellsFor (t : PieceType) (rotation baseX baseY : Z) : list Cell :=
  cellsRows t baseX baseY 0 (getMatrix t rotation).

Definition getBoard (s : State) : Board := board s.

Definition getActiveCells (s : State) : list Cell :=
  match active s with
  | None => []
  | Some a => getCellsFor (p_type a) (p_rotation a) (p_x a) (p_y a)
  end.

Definition getGhostCells (fuel : nat) (s : State) : option (list Cell) :=
  match active s with
  | None => Some []
  | Some a =>
      drop ← getDropDistance fuel s;
      Some (getCellsFor (p_type a) (p_rotation a) (p_x a) (p_y a + drop))
  end.

(** [getNextPieces(count = 5)]: [queue.slice(0, count)] for an integer
    [count]; a negative [count] counts from the end of the queue. *)
Definition getNextPieces (count : option Z) (s : State) : list PieceType :=
  let n := match count with Some c => c | None => 5 end in
  let len := Z.of_nat (length (queue s)) in
  let stop := if n <? 0 then Z.max (len + n) 0 else Z.min n len in
  take (Z.to_nat stop) (queue s).

Definition getHold (s : State) : option PieceType := holdPiece s.

Definition getStats (s : State) : GameStats :=
  mkStats (score s) (level s) (lines s) (combo s) (backToBack s) (state s).

Definition isGameOver (s : State) : bool :=
  match state s with over => true | _ => false end.

(** *** The listeners of main.ts

    A listener is modelled by the calls it makes on the game, in order, and
    by whether it calls [event.preventDefault]. *)

Definition keydown (event : KeyboardEvent) (s : State) : list Command * bool :=
  if noKey event then ([], false)
  else
    let code := e_code event in
    if String.eqb code Keys.ArrowLeft then ([CMove (-1)], true)
    else if String.eqb code Keys.ArrowRight then ([CMove 1], true)
    else if String.eqb code Keys.ArrowDown then
      ((if e_repeat event then [] else [CTapSoftDrop]) ++ [CSetSoftDrop true], true)
    else if String.eqb code Keys.Space then
      (if e_repeat event then [] else [CHardDrop], true)
    else if includes [Keys.ArrowUp; Keys.KeyX; Keys.KeyS] code then
      if e_repeat event then ([], false) else ([CRotate true], true)
    else if includes [Keys.KeyZ; Keys.KeyA] code then
      if e_repeat event then ([], false) else ([CRotate false], true)
    else if includes [Keys.KeyP; Keys.Escape] code then
      (match st_state (getStats s) with
       | over => []
       | _ => [CTogglePause]
       end, true)
    else if includes [Keys.KeyC; Keys.ShiftLeft; Keys.ShiftRight] code then
      if e_repeat event then ([], false) else ([CHold], true)
    else ([], isRotationKey code || isHoldKey code).

Definition keyup (event : KeyboardEvent) : list Command * bool :=
  if String.eqb (e_code event) Keys.ArrowDown then ([CSetSoftDrop false], true)
  else ([], false).

(** The [visibilitychange] listener. *)
Definition visibilitychange (hidden : bool) (s : State) : list Command :=
  if hidden then
    match st_state (getStats s) with
    | playing => [CTogglePause]
    | _ => []
    end
  else [].

(** *** [drawBoard] of renderer.ts

    The canvas is abstracted to the calls of [drawCell] that [drawBoard]
    makes, in order: column, visible row, the piece type whose colour is
    looked up, and whether the call is made under the ghost transparency. *)
Record DrawCall : Type := mkDraw {
  d_x : Z;
  d_y : Z;
  d_type : PieceType;
  d_ghost : bool
}.

(** The two nested loops over the visible rows of the board. *)
Definition settledCalls (b : list (list BoardCell)) : list DrawCall :=
  flat_map
    (fun row =>
       let boardRow := row + HIDDEN_ROWS in
       flat_map
         (fun col =>
            match cellAt b boardRow col with
            | Some t => [mkDraw col row t false]
            | None => []
            end)
         (seqZ 0 COLS))
    (seqZ 0 VISIBLE_ROWS).

(** The [forEach] over the ghost cells and over the active cells. *)
Definition pieceCalls (ghost : bool) (cells : list Cell) : list DrawCall :=
  flat_map
    (fun c =>
       let visibleY := c_y c - HIDDEN_ROWS in
       if (visibleY <? 0) || (visibleY >=? VISIBLE_ROWS) then []
       else [mkDraw (c_x c) visibleY (c_type c) ghost])
    cells.

Definition drawBoard (fuel : nat) (s : State) : option (list DrawCall) :=
  let settled := settledCalls (getBoard s) in
  ghost ← getGhostCells fuel s;
  Some (settled ++ pieceCalls true ghost ++ pieceCalls false (getActiveCells s)).

(** ** Specification vocabulary *)

(** An absolute cell that stops a piece: outside the columns, below the
    floor, or an occupied cell of a row at or below the top. *)
Definition blocked (b : Board) (boardX boardY : Z) : Prop :=
  boardX < 0 \/ boardX >= COLS \/ boardY >= TOTAL_ROWS \/
  (boardY >= 0 /\ cellAt b boardY boardX <> None).

(** The shape of every board of the engine: TOTAL_ROWS rows of COLS cells. *)
Definition board_ok (b : Board) : Prop :=
  length b = Z.to_nat TOTAL_ROWS /\ Forall (fun r => length r = Z.to_nat COLS) b.

(** What [clearLines] is meant to return: the rows with an empty cell, in
    their order, under one fresh empty row per full row. *)
Definition fullRows (b : Board) : nat := length (List.filter rowFull b).

Definition withoutFullRows (b : Board) : Board :=
  replicate (fullRows b) emptyRow ++ List.filter (fun r => negb (rowFull r)) b.

(** The scoring table as the specification writes it. *)
Definition baseLineScore (n : Z) : Z :=
  match n with
  | 1 => 100
  | 2 => 300
  | 3 => 500
  | 4 => 800
  | _ => 0
  end.

(** floor (1.5 * v) *)
Definition floorOneAndHalf (v : Z) : Z := Qfloor ((3 # 2) * inject_Z v).

(** The queue as [spawnNextPiece] uses it: refill, then [queue.shift()].
    The pair is the queue and the position in the random source. *)
Definition dequeue (fuel : nat) (st : list PieceType * nat)
  : option (PieceType * (list PieceType * nat)) :=
  r ← refillLoop fuel (fst st) (snd st);
  match fst r with
  | [] => None
  | t :: rest => Some (t, (rest, snd r))
  end.

(** The pieces handed out by [n] successive spawns. *)
Fixpoint dequeueMany (fuel : nat) (n : nat) (st : list PieceType * nat)
  : option (list PieceType * (list PieceType * nat)) :=
  match n with
  | O => Some ([], st)
  | S n' =>
      r ← dequeue fuel st;
      r' ← dequeueMany fuel n' (snd r);
      Some (fst r :: fst r', snd r')
  end.

(** The seven piece types. *)
Definition allPieceTypes : list PieceType := [tI; tO; tT; tS; tZ; tJ; tL].

(** How one command may change the queue: not at all, or by one [dequeue]. *)
Definition queue_step (fuel : nat) (q q' : list PieceType * nat) : Prop :=
  q' = q \/ exists t, dequeue fuel q = Some (t, q').

Definition queueOf (s : State) : list PieceType * nat := (queue s, randomCalls s).

(** What every engine state satisfies, whatever the phase. *)
Record Sane (s : State) : Prop := mkSane {
  sane_board : board_ok (board s);
  sane_lines : 0 <= lines s;
  sane_level : 1 <= level s;
  sane_combo : -1 <= combo s;
  sane_b2b : 0 <= backToBack s;
  sane_score : 0 <= score s;
  sane_rotation : forall a, active s = Some a -> 0 <= p_rotation a < 4
}.

(** The invariant of the engine between two commands. *)
Definition Invariant (s : State) : Prop :=
  Sane s /\ (active s = None <-> state s = over).

(** The states of a game: the one the constructor builds, and those that a
    command returns. *)
Inductive reachable : State -> Prop :=
  | reach_new (fuel : nat) (s : State) :
      newGame fuel = Some s -> reachable s
  | reach_exec (fuel : nat) (c : Command) (s s' : State) :
      reachable s -> exec fuel c s = Some s' -> reachable s'.

(** What a command other than [reset] guarantees. *)
Definition good_step (fuel : nat) (s s' : State) : Prop :=
  Invariant s' /\ score s <= score s' /\ queue_step fuel (queueOf s) (queueOf s').

(** A rotation matrix with at least one occupied cell. *)
Definition occupiedSomewhere (m : Matrix) : Prop :=
  exists row col : nat, matrixCell m row col = true.

(** The catalog hands out the seven types, and every rotation state 0..3 of
    every type has an occupied cell. *)
Definition catalog_ok : Prop :=
  Permutation PIECE_TYPES allPieceTypes /\
  forall (t : PieceType) (r : Z), 0 <= r < 4 -> occupiedSomewhere (getMatrix t r).

(** Fuel that is enough for any command in state [s]: the rows of the board
    twice over for [clearLines], and the rows below the active piece for the
    gravity and drop loops. *)
Definition fuelFor (s : State) : nat :=
  (2 * Z.to_nat TOTAL_ROWS + 1 +
   match active s with
   | Some a => Z.to_nat (TOTAL_ROWS - p_y a)
   | None => 0
   end)%nat.

(** The gravity timer after [n] rounds of the gravity loop entered with the
    timer at [t]: the interval is taken off once per round, by the
    subtraction of the source. *)
Fixpoint drained (n : nat) (interval t : Q) : Q :=
  match n with
  | O => t
  | S n' => drained n' interval (number_sub t interval)
  end.

(** The outcome of the gravity loop of [update], entered in state [s] with
    the active piece [a]: [k] successful steps, then a failed one or not. *)
Definition gravityOutcome (interval : Q) (s : State) (a : ActivePiece)
  (k : nat) (failed : bool) (s2 : State) : Prop :=
  let attempts := (k + (if failed then 1 else 0))%nat in
  (forall i : Z, 1 <= i <= Z.of_nat k ->
     collides (board s) (p_type a) (p_x a) (p_y a + i) (p_rotation a) = false) /\
  (failed = true ->
     collides (board s) (p_type a) (p_x a) (p_y a + Z.of_nat k + 1) (p_rotation a) = true) /\
  (forall j : nat, (j < attempts)%nat ->
     (interval <= drained j interval (gravityTimer s))%Q) /\
  (failed = false -> (drained attempts interval (gravityTimer s) < interval)%Q) /\
  gravityTimer s2 = drained attempts interval (gravityTimer s) /\
  active s2 = Some (mkPiece (p_type a) (p_rotation a) (p_x a) (p_y a + Z.of_nat k)) /\
  score s2 = score s + (if softDropActive s then Z.of_nat k else 0) /\
  grounded s2 =
    (if failed then true
     else if (k =? 0)%nat then grounded s
     else collides (board s) (p_type a) (p_x a) (p_y a + Z.of_nat k + 1) (p_rotation a)) /\
  lockTimer s2 = (if (k =? 0)%nat then lockTimer s else 0%Q) /\
  board s2 = board s /\ queue s2 = queue s /\ holdPiece s2 = holdPiece s /\
  canHold s2 = canHold s /\ gravityInterval s2 = gravityInterval s /\
  softDropActive s2 = softDropActive s /\ state s2 = state s /\
  level s2 = level s /\ lines s2 = lines s /\ combo s2 = combo s /\
  backToBack s2 = backToBack s /\ randomCalls s2 = randomCalls s.

(** The second half of [update]: the lock delay, applied to the state [s2]
    that the gravity loop left. *)
Definition lockDelayPhase (fuel : nat) (delta : Q) (s2 : State) : option State :=
  if grounded s2 && is_some (active s2) then
    let s3 := set_lockTimer (number_add (lockTimer s2) delta) s2 in
    if Qle_bool LOCK_DELAY_MS (lockTimer s3) then lockPiece fuel s3 else Some s3
  else Some s2.

(** The pieces handed out so far ([hist]) followed by the queue are a
    sequence of whole bags. *)
Definition bagsInv (hist q : list PieceType) : Prop :=
  exists bags : list (list PieceType),
    hist ++ q = concat bags /\ Forall (fun bag => Permutation bag PIECE_TYPES) bags.

(** The state [lockPiece] hands to [spawnNextPiece] after a lock that did
    not top out: [b] is the cleared board and [n] the number of lines. *)
Definition afterLock (b : list (list BoardCell)) (n : Z) (s : State) : State :=
  set_gravityTimer 0%Q (set_softDropActive false (set_lockTimer 0%Q
    (set_grounded false (set_active None
      (handleLineScoring n (set_board b s)))))).

(** The state left by [setSoftDrop on]: only the soft-drop flag and the
    gravity timer can differ. *)
Definition softDropSet (on : bool) (s : State) : State :=
  set_gravityTimer (if on && negb (softDropActive s) then 0%Q else gravityTimer s)
    (set_softDropActive on s).

(** The state that [hardDrop] locks: the piece [d] rows lower, 2 points
    per row. *)
Definition dropped (d : Z) (a : ActivePiece) (s : State) : State :=
  set_score (score s + d * 2)
    (set_active (Some (mkPiece (p_type a) (p_rotation a) (p_x a) (p_y a + d))) s).

(** A new game followed by a run of commands. *)
Definition play (fuel : nat) (cs : list Command) : option State :=
  s ← newGame fuel; run fuel cs s.

(** The absolute cell (X, Y) is covered by the matrix [m] anchored at
    (x, y). *)
Definition covers (m : Matrix) (x y X Y : Z) : Prop :=
  exists row col : nat,
    matrixCell m row col = true /\ X = x + Z.of_nat col /\ Y = y + Z.of_nat row.

(** A cell moved down by [d] rows. *)
Definition shiftDown (d : Z) (c : Cell) : Cell :=
  mkCell (c_x c) (c_y c + d) (c_type c).

(** No row of the board is full. *)
Definition noFullRows (b : Board) : Prop :=
  Forall (fun r => rowFull r = false) b.

(** The active piece sits where it can be, and the grounded flag says
    whether it can go one row further down. *)
Definition Placed (s : State) : Prop :=
  forall a : ActivePiece, active s = Some a ->
    collides (board s) (p_type a) (p_x a) (p_y a) (p_rotation a) = false /\
    grounded s = collides (board s) (p_type a) (p_x a) (p_y a + 1) (p_rotation a).

(** The values that the engine derives from others: level and gravity
    interval from the number of lines; the queue holds the next pieces;
    full rows do not survive a lock. *)
Definition Derived (s : State) : Prop :=
  level s = lines s / 10 + 1 /\
  gravityInterval s = computeGravityInterval (level s) /\
  (6 <= length (queue s))%nat /\
  (state s <> over -> noFullRows (board s)).

(** The commands that only act in the playing phase. *)
Definition gameplay (c : Command) : bool :=
  match c with
  | CUpdate _ | CMove _ | CRotate _ | CHardDrop | CTapSoftDrop | CHold => true
  | CReset | CSetSoftDrop _ | CTogglePause => false
  end.

(** The commands that never lock a piece. *)
Definition lockFree (c : Command) : bool :=
  match c with
  | CMove _ | CRotate _ | CTapSoftDrop | CSetSoftDrop _ | CHold | CTogglePause => true
  | CReset | CUpdate _ | CHardDrop => false
  end.

(** [covers], as a test. *)
Definition coversb (m : Matrix) (x y X Y : Z) : bool :=
  (y <=? Y) && (x <=? X) && matrixCell m (Z.to_nat (Y - y)) (Z.to_nat (X - x)).

(** The board and the flag left by the stamping loops of [lockPiece]. *)
Definition stamped (s : State) (a : ActivePiece) : Board * bool :=
  stampRows (p_type a) (p_x a) (p_y a) 0 (getMatrix (p_type a) (p_rotation a))
    (board s, false).

(** Whether the kick [k] leaves the piece [a], turned to [toRotation], in
    collision. *)
Definition kickFails (s : State) (a : ActivePiece) (toRotation : Z) (k : Z * Z) : bool :=
  collides (board s) (p_type a) (p_x a + fst k) (p_y a + snd k) toRotation.

(** The state left by a rotation that succeeds with the kick [k]. *)
Definition kicked (s : State) (a : ActivePiece) (toRotation : Z) (k : Z * Z) : State :=
  set_lockTimer 0%Q
    (set_grounded
       (collides (board s) (p_type a) (p_x a + fst k) (p_y a + snd k + 1) toRotation)
       (set_active
          (Some (mkPiece (p_type a) toRotation (p_x a + fst k) (p_y a + snd k))) s)).

(** The state left by a horizontal move that succeeds. *)
Definition shifted (direction : Z) (s : State) (a : ActivePiece) : State :=
  set_grounded
    (collides (board s) (p_type a) (p_x a + direction) (p_y a + 1) (p_rotation a))
    (set_lockTimer 0%Q
       (set_active
          (Some (mkPiece (p_type a) (p_rotation a) (p_x a + direction) (p_y a))) s)).

(** ** Collision test *)

(** On a board of the engine the reads and writes that the source makes
    after its bounds tests are inside the arrays. *)
Lemma cellAt_in_range (b : list (list BoardCell)) (y x : Z) :
  board_ok b -> 0 <= y < TOTAL_ROWS -> 0 <= x < COLS ->
  exists (r : list BoardCell) (c : BoardCell),
    b !! Z.to_nat y = Some r /\ r !! Z.to_nat x = Some c /\ cellAt b y x = c.
Proof.
  intros [Hlen Hrows] Hy Hx.
  destruct (lookup_lt_is_Some_2 b (Z.to_nat y)) as [r Hr]; [rewrite Hlen; lia|].
  assert (Hr10 : length r = Z.to_nat COLS)
    by (rewrite Forall_lookup in Hrows; eapply Hrows; eauto).
  destruct (lookup_lt_is_Some_2 r (Z.to_nat x)) as [c Hc]; [rewrite Hr10; lia|].
  exists r, c. unfold cellAt. rewrite Hr, Hc. auto.
Qed.

Lemma cellAt_setCell (b : list (list BoardCell)) (y x : Z) (v : BoardCell) :
  board_ok b -> 0 <= y < TOTAL_ROWS -> 0 <= x < COLS ->
  cellAt (setCell b y x v) y x = v.
Proof.
  intros Hok Hy Hx.
  destruct (cellAt_in_range b y x Hok Hy Hx) as (r & c & Hr & Hc & _).
  unfold cellAt, setCell. rewrite Hr.
  rewrite list_lookup_insert_eq by (eapply lookup_lt_Some; eauto).
  rewrite list_lookup_insert_eq by (eapply lookup_lt_Some; eauto).
  reflexivity.
Qed.

Lemma blocked_test (b : Board) (boardX boardY : Z) :
  blocked b boardX boardY <->
  ((boardX <? 0) || (boardX >=? COLS) || (boardY >=? TOTAL_ROWS) = true \/
   (boardY >=? 0) && is_some (cellAt b boardY boardX) = true).
Proof.
  unfold blocked.
  rewrite !orb_true_iff, andb_true_iff, Z.ltb_lt, !Z.geb_le.
  assert (Hc : is_some (cellAt b boardY boardX) = true <-> cellAt b boardY boardX <> None)
    by (destruct (cellAt b boardY boardX); simpl; split; congruence).
  rewrite Hc. intuition lia.
Qed.

Lemma collidesCols_spec (b : Board) (x boardY : Z) (cells : list bool) :
  forall col,
    collidesCols b x boardY col cells = true <->
    exists k : nat, cells !! k = Some true /\ blocked b (x + col + Z.of_nat k) boardY.
Proof.
  induction cells as [|c rest IH]; intros col; simpl.
  - split; [discriminate | intros [k [Hk _]]; destruct k; discriminate].
  - destruct c; simpl.
    + destruct ((x + col <? 0) || (x + col >=? COLS) || (boardY >=? TOTAL_ROWS)) eqn:E1.
      * split; [intros _ | reflexivity].
        exists 0%nat. split; [reflexivity|].
        apply blocked_test. left. now rewrite Z.add_0_r.
      * destruct ((boardY >=? 0) && is_some (cellAt b boardY (x + col))) eqn:E2.
        -- split; [intros _ | reflexivity].
           exists 0%nat. split; [reflexivity|].
           apply blocked_test. right. now rewrite Z.add_0_r.
        -- rewrite IH. split.
           ++ intros [k [Hk Hb]]. exists (S k). split; [exact Hk|].
              now replace (x + col + Z.of_nat (S k)) with (x + (col + 1) + Z.of_nat k) by lia.
           ++ intros [[|k] [Hk Hb]].
              ** apply blocked_test in Hb. rewrite Z.add_0_r in Hb.
                 rewrite E1, E2 in Hb. destruct Hb; discriminate.
              ** exists k. split; [exact Hk|].
                 now replace (x + (col + 1) + Z.of_nat k) with (x + col + Z.of_nat (S k)) by lia.
    + rewrite IH. split.
      * intros [k [Hk Hb]]. exists (S k). split; [exact Hk|].
        now replace (x + col + Z.of_nat (S k)) with (x + (col + 1) + Z.of_nat k) by lia.
      * intros [[|k] [Hk Hb]]; [discriminate|].
        exists k. split; [exact Hk|].
        now replace (x + (col + 1) + Z.of_nat k) with (x + col + Z.of_nat (S k)) by lia.
Qed.

Lemma matrixCell_true (m : Matrix) (row col : nat) :
  matrixCell m row col = true <->
  exists cells, m !! row = Some cells /\ cells !! col = Some true.
Proof.
  unfold matrixCell. destruct (m !! row) as [cells|].
  - destruct (cells !! col) as [c|] eqn:E.
    + split.
      * intros ->. eauto.
      * intros [cells' [[= <-] Hc]]. congruence.
    + split; [discriminate|]. intros [cells' [[= <-] Hc]]. congruence.
  - split; [discriminate|]. intros [cells' [[=] _]].
Qed.

Lemma collidesRows_spec (b : Board) (x y : Z) (m : Matrix) :
  forall row,
    collidesRows b x y row m = true <->
    exists i k : nat, matrixCell m i k = true /\
      blocked b (x + Z.of_nat k) (y + row + Z.of_nat i).
Proof.
  induction m as [|cells rest IH]; intros row; simpl.
  - split; [discriminate|]. intros [i [k [H _]]]. now destruct i.
  - destruct (collidesCols b x (y + row) 0 cells) eqn:E.
    + split; [intros _ | reflexivity].
      apply collidesCols_spec in E. destruct E as [k [Hk Hb]].
      exists 0%nat, k. split.
      * apply matrixCell_true. exists cells. auto.
      * now rewrite Z.add_0_r in *.
    + rewrite IH. split.
      * intros [i [k [Hm Hb]]]. exists (S i), k. split; [exact Hm|].
        now replace (y + row + Z.of_nat (S i)) with (y + (row + 1) + Z.of_nat i) by lia.
      * intros [[|i] [k [Hm Hb]]].
        -- exfalso. apply matrixCell_true in Hm. destruct Hm as [cells' [[= <-] Hk]].
           assert (Ht : collidesCols b x (y + row) 0 cells = true).
           { apply collidesCols_spec. exists k. split; [exact Hk|].
             now rewrite Z.add_0_r in *. }
           congruence.
        -- exists i, k. split; [exact Hm|].
           now replace (y + (row + 1) + Z.of_nat i) with (y + row + Z.of_nat (S i)) by lia.
Qed.

(** C1. [collides] answers true exactly when some occupied cell of the
    rotation matrix lands on a column outside [0, COLS), on a row at or
    below TOTAL_ROWS, or on an occupied board cell of a row >= 0; when
    every occupied cell lands on a negative row inside the columns, there is
    no collision. *)
Theorem collides_iff_blocked_cell (b : Board) (t : PieceType) (x y rotation : Z) :
  (collides b t x y rotation = true <->
   exists row col : nat,
     matrixCell (getMatrix t rotation) row col = true /\
     (x + Z.of_nat col < 0 \/ x + Z.of_nat col >= COLS \/
      y + Z.of_nat row >= TOTAL_ROWS \/
      (y + Z.of_nat row >= 0 /\
       cellAt b (y + Z.of_nat row) (x + Z.of_nat col) <> None))) /\
  ((forall row col : nat,
      matrixCell (getMatrix t rotation) row col = true ->
      y + Z.of_nat row < 0 /\ 0 <= x + Z.of_nat col < COLS) ->
   collides b t x y rotation = false).
Proof.
  assert (Hiff : collides b t x y rotation = true <->
    exists row col : nat,
      matrixCell (getMatrix t rotation) row col = true /\
      blocked b (x + Z.of_nat col) (y + Z.of_nat row)).
  { unfold collides. rewrite collidesRows_spec.
    split; intros [i [k [Hm Hb]]]; exists i, k; (split; [exact Hm|]);
      now rewrite Z.add_0_r in *. }
  split; [exact Hiff|].
  intros Hneg. apply not_true_is_false. intros Hc.
  apply Hiff in Hc. destruct Hc as [row [col [Hm Hb]]].
  destruct (Hneg row col Hm) as [Hy Hx].
  unfold blocked, COLS, TOTAL_ROWS in *.
  destruct Hb as [Hb | [Hb | [Hb | [Hb _]]]]; lia.
Qed.

(** ** Line clearing *)

Lemma rowFull_emptyRow : rowFull emptyRow = false.
Proof. reflexivity. Qed.

Lemma replicate_snoc_cons {A : Type} (n : nat) (e : A) (l : list A) :
  replicate n e ++ e :: l = replicate (S n) e ++ l.
Proof. induction n as [|n IH]; simpl; [reflexivity | now rewrite IH]. Qed.

Lemma delete_middle_row {A : Type} (pre suf : list A) (x : A) :
  delete (length pre) ((pre ++ [x]) ++ suf) = pre ++ suf.
Proof. induction pre as [|p pre IH]; simpl; [reflexivity | now rewrite IH]. Qed.

Lemma lookup_middle_row {A : Type} (pre suf : list A) (x : A) :
  ((pre ++ [x]) ++ suf) !! length pre = Some x.
Proof. induction pre as [|p pre IH]; simpl; [reflexivity | exact IH]. Qed.

Lemma fullRows_cons_empty (b : Board) : fullRows (emptyRow :: b) = fullRows b.
Proof. reflexivity. Qed.

Lemma fullRows_snoc (b : Board) (r : list BoardCell) :
  fullRows (b ++ [r]) = (fullRows b + (if rowFull r then 1 else 0))%nat.
Proof.
  unfold fullRows. rewrite List.filter_app, length_app. simpl.
  now destruct (rowFull r).
Qed.

Lemma keep_cons_empty (b : Board) :
  List.filter (fun r => negb (rowFull r)) (emptyRow :: b) =
  emptyRow :: List.filter (fun r => negb (rowFull r)) b.
Proof. reflexivity. Qed.

Lemma keep_snoc (b : Board) (r : list BoardCell) :
  List.filter (fun r => negb (rowFull r)) (b ++ [r]) =
  List.filter (fun r => negb (rowFull r)) b ++ (if rowFull r then [] else [r]).
Proof. rewrite List.filter_app. simpl. now destruct (rowFull r). Qed.

(** The loop at row index [length pre - 1]: the rows [pre] are still to be
    scanned, the rows [suf] below them are kept as they are. *)
Lemma clearLoop_spec (fuel : nat) :
  forall (pre suf : Board) (cleared : Z),
    (length pre + fullRows pre <= fuel)%nat ->
    clearLoop fuel (pre ++ suf) (Z.of_nat (length pre) - 1) cleared =
    Some (withoutFullRows pre ++ suf, cleared + Z.of_nat (fullRows pre)).
Proof.
  induction fuel as [|fuel IH]; intros pre suf cleared Hfuel.
  - destruct pre as [|p pre]; [|simpl in Hfuel; lia].
    simpl. unfold withoutFullRows, fullRows. simpl. now rewrite Z.add_0_r.
  - destruct pre as [|p pre0] using rev_ind.
    + simpl. unfold withoutFullRows, fullRows. simpl. now rewrite Z.add_0_r.
    + clear IHpre0. rename pre0 into pre.
      rewrite fullRows_snoc in *. rewrite length_app in *. simpl length in *.
      cbn [clearLoop].
      replace (Z.of_nat (length pre + 1) - 1 >=? 0) with true
        by (symmetry; apply Z.geb_le; lia).
      replace (Z.to_nat (Z.of_nat (length pre + 1) - 1)) with (length pre) by lia.
      rewrite lookup_middle_row.
      destruct (rowFull p) eqn:Hp.
      * rewrite delete_middle_row.
        replace (Z.of_nat (length pre + 1) - 1 + 1 - 1)
          with (Z.of_nat (length (emptyRow :: pre)) - 1) by (simpl length; lia).
        change (emptyRow :: pre ++ suf) with ((emptyRow :: pre) ++ suf).
        rewrite IH by (rewrite fullRows_cons_empty; simpl length; lia).
        rewrite fullRows_cons_empty.
        f_equal. f_equal; [|lia].
        unfold withoutFullRows.
        rewrite fullRows_cons_empty, keep_cons_empty, fullRows_snoc, keep_snoc, Hp.
        rewrite app_nil_r, replicate_snoc_cons.
        now replace (fullRows pre + 1)%nat with (S (fullRows pre)) by lia.
      * replace (Z.of_nat (length pre + 1) - 1 - 1) with (Z.of_nat (length pre) - 1) by lia.
        rewrite <- app_assoc. simpl app.
        rewrite IH by lia.
        f_equal. f_equal; [|lia].
        unfold withoutFullRows. rewrite fullRows_snoc, keep_snoc, Hp.
        rewrite Nat.add_0_r, <- !app_assoc. reflexivity.
Qed.

Lemma fullRows_le_length (b : Board) : (fullRows b <= length b)%nat.
Proof. unfold fullRows. apply List.filter_length_le. Qed.

Lemma withoutFullRows_none (b : Board) :
  Forall (fun r => rowFull r = false) b -> withoutFullRows b = b /\ fullRows b = O.
Proof.
  intros H. unfold withoutFullRows, fullRows.
  induction H as [|r b Hr Hb [IH1 IH2]]; simpl; [auto|].
  rewrite Hr. simpl. rewrite IH2 in *. simpl in *. now rewrite IH1.
Qed.

Lemma clearLines_returns (fuel : nat) (b : list (list BoardCell)) :
  length b = Z.to_nat TOTAL_ROWS ->
  (2 * Z.to_nat TOTAL_ROWS <= fuel)%nat ->
  clearLines fuel b = Some (withoutFullRows b, Z.of_nat (fullRows b)).
Proof.
  intros Hlen Hfuel. unfold clearLines.
  replace (TOTAL_ROWS - 1) with (Z.of_nat (length b) - 1) by (rewrite Hlen; reflexivity).
  pose proof (clearLoop_spec fuel b [] 0) as H.
  rewrite !app_nil_r in H. rewrite H; [reflexivity|].
  pose proof (fullRows_le_length b). lia.
Qed.

(** C5. On a board of TOTAL_ROWS rows [clearLines] returns: what is left is
    one empty row per full row on top of the rows with an empty cell, in
    their order; the count is the number of full rows, wherever they are;
    with no full row the answer is 0 and the same grid. *)
Theorem clearLines_removes_full_rows (fuel : nat) (b : Board) :
  length b = Z.to_nat TOTAL_ROWS ->
  (2 * Z.to_nat TOTAL_ROWS <= fuel)%nat ->
  clearLines fuel b = Some (withoutFullRows b, Z.of_nat (fullRows b)) /\
  withoutFullRows b =
    replicate (fullRows b) emptyRow ++ List.filter (fun r => negb (rowFull r)) b /\
  fullRows b = length (List.filter rowFull b) /\
  (Forall (fun r => rowFull r = false) b -> clearLines fuel b = Some (b, 0)).
Proof.
  intros Hlen Hfuel.
  pose proof (clearLines_returns fuel b Hlen Hfuel) as Hrun.
  split; [exact Hrun|]. split; [reflexivity|]. split; [reflexivity|].
  intros Hnone. rewrite Hrun.
  destruct (withoutFullRows_none b Hnone) as [-> ->]. reflexivity.
Qed.

(** ** Scoring *)

Lemma floorOneAndHalf_div (v : Z) : floorOneAndHalf v = v * 3 / 2.
Proof.
  unfold floorOneAndHalf, Qmult, inject_Z, Qfloor. simpl.
  now rewrite Z.mul_comm.
Qed.

Lemma handleLineScoring_fields (n : Z) (s : State) :
  0 < n ->
  let s' := handleLineScoring n s in
  let isTetris := n =? 4 in
  let base := match LINE_SCORES !! Z.to_nat n with Some v => v | None => 0 end in
  let lineScore :=
    if isTetris && (backToBack s >? 0) then base * level s * 3 / 2 else base * level s in
  let combo' := if combo s >=? 0 then combo s + 1 else 0 in
  lines s' = lines s + n /\
  level s' = (lines s + n) / 10 + 1 /\
  combo s' = combo' /\
  backToBack s' = (if isTetris then backToBack s + 1 else 0) /\
  score s' = score s + lineScore + (if combo' >? 0 then 50 * combo' * level s else 0) /\
  board s' = board s /\ active s' = active s /\ state s' = state s /\
  queue s' = queue s /\ holdPiece s' = holdPiece s.
Proof.
  intros Hn. unfold handleLineScoring.
  replace (n >? 0) with true by (symmetry; apply Z.gtb_lt; lia).
  cbn -[computeGravityInterval Z.div Z.mul Z.add Z.gtb Z.geb Z.eqb].
  destruct ((if combo s >=? 0 then combo s + 1 else 0) >? 0) eqn:Hc;
    cbn -[computeGravityInterval Z.div Z.mul Z.add Z.gtb Z.geb Z.eqb];
    repeat split; try reflexivity; lia.
Qed.

(** C6. A clear of n lines, 1 <= n <= 4, at level L: the score grows by
    base(n) * L, or by floor(1.5 * base(n) * L) for a 4-line clear with a
    running back-to-back counter, plus 50 * combo * L when the new combo is
    positive; combo goes from -1 to 0 and otherwise up by one; backToBack
    goes up by one on a 4-line clear and back to 0 on a smaller one.  Two
    4-line clears in a row from backToBack = 0 leave backToBack = 2 and give
    the second one the 1.5 factor. *)
Theorem handleLineScoring_clear (n : Z) (s : State) :
  1 <= n <= 4 ->
  -1 <= combo s ->
  let s' := handleLineScoring n s in
  let L := level s in
  let lineScore :=
    if (n =? 4) && (backToBack s >? 0) then floorOneAndHalf (baseLineScore n * L)
    else baseLineScore n * L in
  let combo' := if combo s =? -1 then 0 else combo s + 1 in
  (score s' = score s + lineScore + (if combo' >? 0 then 50 * combo' * L else 0) /\
   combo s' = combo' /\
   backToBack s' = (if n =? 4 then backToBack s + 1 else 0) /\
   lines s' = lines s + n /\
   level s' = (lines s + n) / 10 + 1) /\
  (backToBack s = 0 ->
   let s1 := handleLineScoring 4 s in
   let s2 := handleLineScoring 4 s1 in
   backToBack s1 = 1 /\ backToBack s2 = 2 /\
   score s2 = score s1 + floorOneAndHalf (800 * level s1) + 50 * combo s2 * level s1).
Proof.
  intros Hn Hcombo. cbn zeta. split.
  - destruct (handleLineScoring_fields n s ltac:(lia))
      as (Hl & Hlv & Hc & Hb & Hs & _).
    assert (Hcombo' : (if combo s >=? 0 then combo s + 1 else 0) =
                      (if combo s =? -1 then 0 else combo s + 1)).
    { destruct (combo s >=? 0) eqn:E1; destruct (combo s =? -1) eqn:E2;
        try reflexivity; lia. }
    rewrite Hcombo' in *.
    assert (Hbase : match LINE_SCORES !! Z.to_nat n with Some v => v | None => 0 end =
                    baseLineScore n).
    { assert (Hcases : n = 1 \/ n = 2 \/ n = 3 \/ n = 4) by lia.
      destruct Hcases as [-> | [-> | [-> | ->]]]; reflexivity. }
    rewrite Hbase in Hs. rewrite floorOneAndHalf_div.
    repeat split; assumption.
  - intros Hb0.
    destruct (handleLineScoring_fields 4 s ltac:(lia))
      as (Hl1 & Hlv1 & Hc1 & Hb1 & Hs1 & _).
    destruct (handleLineScoring_fields 4 (handleLineScoring 4 s) ltac:(lia))
      as (Hl2 & Hlv2 & Hc2 & Hb2 & Hs2 & _).
    change (4 =? 4) with true in *. cbn iota in *.
    rewrite Hb1, Hb0 in *. change (0 + 1 + 1) with 2 in Hb2.
    split; [reflexivity|]. split; [exact Hb2|].
    rewrite Hs2. rewrite floorOneAndHalf_div.
    change (0 + 1 >? 0) with true. cbn [andb].
    change (match LINE_SCORES !! Z.to_nat 4 with Some v => v | None => 0 end) with 800.
    rewrite Hc2, Hc1.
    assert (Hpos : ((if (if combo s >=? 0 then combo s + 1 else 0) >=? 0
                     then (if combo s >=? 0 then combo s + 1 else 0) + 1 else 0) >? 0)
                   = true).
    { destruct (combo s >=? 0) eqn:E1.
      - replace (combo s + 1 >=? 0) with true by lia. lia.
      - reflexivity. }
    rewrite Hpos. reflexivity.
Qed.

(** ** The bag randomizer *)

Lemma insert_swaps_in {A : Type} (l : list A) :
  forall (i : nat) (a b : A),
    l !! i = Some a -> Permutation (a :: <[i := b]> l) (b :: l).
Proof.
  induction l as [|x l IH]; intros [|i] a b H; simpl in *; try discriminate.
  - injection H as ->. apply perm_swap.
  - etransitivity; [apply perm_swap|].
    etransitivity; [apply perm_skip, (IH i a b H)|]. apply perm_swap.
Qed.

Lemma swap_Permutation {A : Type} (values : list A) (i j : nat) :
  Permutation (swap values i j) values.
Proof.
  unfold swap.
  destruct (values !! i) as [vi|] eqn:Hi; [|reflexivity].
  destruct (values !! j) as [vj|] eqn:Hj; [|reflexivity].
  assert (H1 : Permutation (vi :: <[i := vj]> values) (vj :: values))
    by (apply insert_swaps_in; exact Hi).
  assert (Hj' : <[i := vj]> values !! j = Some vj).
  { destruct (decide (i = j)) as [->|Hne].
    - apply list_lookup_insert_eq. eapply lookup_lt_Some; eauto.
    - rewrite list_lookup_insert_ne by exact Hne. exact Hj. }
  assert (H2 : Permutation (vj :: <[j := vi]> (<[i := vj]> values))
                           (vi :: <[i := vj]> values))
    by (apply insert_swaps_in; exact Hj').
  apply (Permutation_cons_inv (a := vj)).
  etransitivity; [exact H2 | exact H1].
Qed.

Lemma shuffleLoop_Permutation {A : Type} (i : nat) :
  forall (values : list A) (calls : nat),
    Permutation (fst (shuffleLoop i values calls)) values.
Proof.
  induction i as [|i IH]; intros values calls; simpl; [reflexivity|].
  etransitivity; [apply IH | apply swap_Permutation].
Qed.

Lemma shuffle_Permutation {A : Type} (values : list A) (calls : nat) :
  Permutation (fst (shuffle values calls)) values.
Proof. apply shuffleLoop_Permutation. Qed.

(** With a random source in [0, 1) the index [j] drawn at position [i] is
    at most [i]: the swap stays inside the array. *)
Lemma shuffle_index_in_range (r : Q) (i : nat) :
  (0 <= r)%Q -> (r < 1)%Q ->
  (Z.to_nat (Qfloor (r * inject_Z (Z.of_nat i + 1))) <= i)%nat.
Proof.
  intros H0 H1.
  assert (Hlt : (r * inject_Z (Z.of_nat i + 1) < inject_Z (Z.of_nat i + 1))%Q).
  { rewrite <- (Qmult_1_l (inject_Z (Z.of_nat i + 1))) at 2.
    apply Qmult_lt_compat_r; [|exact H1].
    change 0%Q with (inject_Z 0). rewrite <- Zlt_Qlt. lia. }
  assert (Hfl : Qfloor (r * inject_Z (Z.of_nat i + 1)) < Z.of_nat i + 1).
  { rewrite Zlt_Qlt. eapply Qle_lt_trans; [apply Qfloor_le | exact Hlt]. }
  lia.
Qed.

(** [refillLoop] only ever appends whole bags, each a rearrangement of
    PIECE_TYPES, and each of them at a moment when fewer than 7 pieces were
    queued; it stops with at least 7 pieces queued. *)
Lemma refillLoop_bags (fuel : nat) :
  forall (q : list PieceType) (calls : nat) (r : list PieceType * nat),
    refillLoop fuel q calls = Some r ->
    exists bags : list (list PieceType),
      fst r = q ++ concat bags /\
      Forall (fun bag => Permutation bag PIECE_TYPES) bags /\
      (forall (k : nat), (k < length bags)%nat ->
         (length (q ++ concat (take k bags)) < 7)%nat) /\
      (7 <= length (fst r))%nat.
Proof.
  induction fuel as [|fuel IH]; intros q calls r H; simpl in H.
  - destruct (length q <? 7)%nat eqn:E; [discriminate|].
    injection H as <-. exists []. simpl. rewrite app_nil_r.
    apply Nat.ltb_ge in E. repeat split; auto. intros k Hk. lia.
  - destruct (length q <? 7)%nat eqn:E.
    + apply IH in H. destruct H as (bags & Hq & Hperm & Hlt & Hlen).
      exists (fst (shuffle PIECE_TYPES calls) :: bags).
      split; [|split; [|split]].
      * rewrite Hq. simpl. now rewrite app_assoc.
      * constructor; [apply shuffle_Permutation | exact Hperm].
      * intros [|k] Hk; simpl in *.
        -- rewrite app_nil_r. now apply Nat.ltb_lt.
        -- rewrite app_assoc. apply Hlt. lia.
      * exact Hlen.
    + injection H as <-. exists []. simpl. rewrite app_nil_r.
      apply Nat.ltb_ge in E. repeat split; auto. intros k Hk. lia.
Qed.

Lemma refillLoop_full (fuel : nat) (q : list PieceType) (calls : nat) :
  (7 <= length q)%nat -> refillLoop fuel q calls = Some (q, calls).
Proof.
  intros H. apply Nat.ltb_ge in H. destruct fuel; simpl; now rewrite H.
Qed.

(** With the seven types in PIECE_TYPES one round fills the queue. *)
Lemma refillLoop_returns (fuel : nat) (q : list PieceType) (calls : nat) :
  length PIECE_TYPES = 7%nat -> (1 <= fuel)%nat ->
  exists r, refillLoop fuel q calls = Some r.
Proof.
  intros H7 Hfuel. destruct fuel as [|fuel]; [lia|]. simpl.
  destruct (length q <? 7)%nat eqn:E; [|eauto].
  rewrite refillLoop_full; [eauto|].
  rewrite length_app.
  pose proof (Permutation_length (shuffle_Permutation PIECE_TYPES calls)) as Hl.
  rewrite Hl, H7. lia.
Qed.

Lemma dequeue_bagsInv (fuel : nat) (hist q q' : list PieceType) (c c' : nat)
  (t : PieceType) :
  dequeue fuel (q, c) = Some (t, (q', c')) ->
  bagsInv hist q -> bagsInv (hist ++ [t]) q'.
Proof.
  unfold dequeue. simpl. intros H [bags [Hcat Hperm]].
  destruct (refillLoop fuel q c) as [r|] eqn:Hr; simpl in H; [|discriminate].
  destruct (refillLoop_bags _ _ _ _ Hr) as (more & Hq & Hmore & _ & _).
  destruct (fst r) as [|t0 rest] eqn:Hf; [discriminate|].
  injection H as <- <- <-.
  exists (bags ++ more). split.
  - rewrite concat_app, <- Hcat, <- !app_assoc. simpl. f_equal.
    now rewrite Hq.
  - apply Forall_app. auto.
Qed.

Lemma dequeueMany_bagsInv (fuel : nat) (n : nat) :
  forall (hist q : list PieceType) (c : nat) (ts : list PieceType)
         (st : list PieceType * nat),
    dequeueMany fuel n (q, c) = Some (ts, st) ->
    bagsInv hist q -> bagsInv (hist ++ ts) (fst st) /\ length ts = n.
Proof.
  induction n as [|n IH]; intros hist q c ts st H Hinv; simpl in H.
  - injection H as <- <-. simpl. now rewrite app_nil_r.
  - destruct (dequeue fuel (q, c)) as [[t [q1 c1]]|] eqn:Hd; simpl in H; [|discriminate].
    destruct (dequeueMany fuel n (q1, c1)) as [[ts1 st1]|] eqn:Hm; simpl in H;
      [|discriminate].
    injection H as <- <-.
    pose proof (dequeue_bagsInv _ _ _ _ _ _ _ Hd Hinv) as Hinv1.
    destruct (IH _ _ _ _ _ Hm Hinv1) as [Hinv2 Hlen].
    split; [|simpl; now rewrite Hlen].
    now rewrite <- app_assoc in Hinv2.
Qed.

Lemma dequeue_returns (fuel : nat) (st : list PieceType * nat) :
  length PIECE_TYPES = 7%nat -> (1 <= fuel)%nat ->
  exists r, dequeue fuel st = Some r.
Proof.
  intros H7 Hfuel. unfold dequeue.
  destruct (refillLoop_returns fuel (fst st) (snd st) H7 Hfuel) as [r Hr].
  rewrite Hr. simpl.
  destruct (refillLoop_bags _ _ _ _ Hr) as (_ & _ & _ & _ & Hlen).
  destruct (fst r) as [|t rest]; [simpl in Hlen; lia | eauto].
Qed.

Lemma dequeueMany_returns (fuel : nat) (n : nat) :
  length PIECE_TYPES = 7%nat -> (1 <= fuel)%nat ->
  forall st, exists r, dequeueMany fuel n st = Some r.
Proof.
  intros H7 Hfuel. induction n as [|n IH]; intros st; simpl; [eauto|].
  destruct (dequeue_returns fuel st H7 Hfuel) as [r Hr]. rewrite Hr. simpl.
  destruct (IH (snd r)) as [r' Hr']. rewrite Hr'. simpl. eauto.
Qed.

(** The k-th group of seven of a sequence of bags of seven is the k-th bag. *)
Lemma chunk_of_bags (bags : list (list PieceType)) :
  Forall (fun bag => length bag = 7%nat) bags ->
  forall k : nat, (k < length bags)%nat ->
    exists bag, bags !! k = Some bag /\ take 7 (drop (7 * k) (concat bags)) = bag.
Proof.
  induction 1 as [|b bags Hb Hbags IH]; intros k Hk; simpl in Hk; [lia|].
  destruct k as [|k].
  - exists b. split; [reflexivity|]. cbn [concat]. rewrite Nat.mul_0_r.
    change (drop 0 (b ++ concat bags)) with (b ++ concat bags).
    apply take_app_length'. now rewrite Hb.
  - destruct (IH k ltac:(lia)) as [bag [Hl Ht]].
    exists bag. split; [exact Hl|].
    cbn [concat]. replace (7 * S k)%nat with (length b + 7 * k)%nat by lia.
    now rewrite drop_app_add.
Qed.

Lemma chunk_of_prefix (ts q : list PieceType) (k : nat) :
  (7 * (k + 1) <= length ts)%nat ->
  take 7 (drop (7 * k) (ts ++ q)) = take 7 (drop (7 * k) ts).
Proof.
  intros H. rewrite drop_app_le by lia.
  apply take_app_le. rewrite length_drop. lia.
Qed.


(** ** The engine invariant *)

Arguments collides : simpl never.
Arguments checkGrounded : simpl never.
Arguments computeGravityInterval : simpl never.
Arguments getMatrix : simpl never.
Arguments refillLoop : simpl never.
Arguments clearLines : simpl never.
Arguments stampRows : simpl never.
Arguments handleLineScoring : simpl never.

(** Reading a field through the setters, without unfolding anything else. *)
Ltac fields :=
  cbn [board queue active holdPiece canHold gravityTimer gravityInterval
       lockTimer grounded softDropActive state score level lines combo
       backToBack randomCalls
       set_board set_queue set_active set_holdPiece set_canHold
       set_gravityTimer set_gravityInterval set_lockTimer set_grounded
       set_softDropActive set_state set_score set_level set_lines set_combo
       set_backToBack set_randomCalls endGame
       p_type p_rotation p_x p_y fst snd].

Tactic Notation "fields" "in" hyp(H) :=
  cbn [board queue active holdPiece canHold gravityTimer gravityInterval
       lockTimer grounded softDropActive state score level lines combo
       backToBack randomCalls
       set_board set_queue set_active set_holdPiece set_canHold
       set_gravityTimer set_gravityInterval set_lockTimer set_grounded
       set_softDropActive set_state set_score set_level set_lines set_combo
       set_backToBack set_randomCalls endGame
       p_type p_rotation p_x p_y fst snd] in H.

Lemma Sane_same (s s' : State) :
  board s' = board s -> lines s' = lines s -> level s' = level s ->
  combo s' = combo s -> backToBack s' = backToBack s -> score s' = score s ->
  active s' = active s ->
  Sane s -> Sane s'.
Proof.
  intros Hb Hl Hv Hc Hbb Hs Ha [H1 H2 H3 H4 H5 H6 H7].
  constructor; rewrite ?Hb, ?Hl, ?Hv, ?Hc, ?Hbb, ?Hs, ?Ha; assumption.
Qed.

Lemma Sane_score (s : State) (v : Z) :
  0 <= v -> Sane s -> Sane (set_score v s).
Proof. intros Hv [H1 H2 H3 H4 H5 H6 H7]. constructor; assumption. Qed.

Lemma Sane_board (s : State) (b : Board) :
  board_ok b -> Sane s -> Sane (set_board b s).
Proof. intros Hv [H1 H2 H3 H4 H5 H6 H7]. constructor; assumption. Qed.

Lemma Sane_active (s : State) (o : option ActivePiece) :
  (forall a, o = Some a -> 0 <= p_rotation a < 4) -> Sane s -> Sane (set_active o s).
Proof. intros Hv [H1 H2 H3 H4 H5 H6 H7]. constructor; assumption. Qed.

Lemma Sane_endGame (s : State) : Sane s -> Sane (endGame s).
Proof.
  intros [H1 H2 H3 H4 H5 H6 H7]. constructor; try assumption.
  intros a Ha. discriminate.
Qed.

Lemma Invariant_endGame (s : State) : Sane s -> Invariant (endGame s).
Proof. intros H. split; [now apply Sane_endGame | split; reflexivity]. Qed.

(** [tryMove] only touches the active piece's position, the lock timer and
    the grounded flag. *)
Lemma tryMove_frame (dx dy : Z) (s : State) :
  let s' := snd (tryMove dx dy s) in
  board s' = board s /\ queue s' = queue s /\ holdPiece s' = holdPiece s /\
  canHold s' = canHold s /\ gravityTimer s' = gravityTimer s /\
  gravityInterval s' = gravityInterval s /\ softDropActive s' = softDropActive s /\
  state s' = state s /\ score s' = score s /\ level s' = level s /\
  lines s' = lines s /\ combo s' = combo s /\ backToBack s' = backToBack s /\
  randomCalls s' = randomCalls s.
Proof.
  unfold tryMove. destruct (active s) as [a|]; [|simpl; repeat split].
  destruct (collides _ _ _ _ _); [destruct (dy >? 0)|]; simpl; repeat split.
Qed.

(** What [tryMove] does to the active piece. *)
Lemma tryMove_active (dx dy : Z) (s : State) :
  match active s with
  | None => tryMove dx dy s = (false, s)
  | Some a =>
      if collides (board s) (p_type a) (p_x a + dx) (p_y a + dy) (p_rotation a)
      then fst (tryMove dx dy s) = false /\ active (snd (tryMove dx dy s)) = Some a
      else fst (tryMove dx dy s) = true /\
           active (snd (tryMove dx dy s)) =
             Some (mkPiece (p_type a) (p_rotation a) (p_x a + dx) (p_y a + dy))
  end.
Proof.
  unfold tryMove. destruct (active s) as [a|] eqn:Ha; [|reflexivity].
  destruct (collides _ _ _ _ _); [destruct (dy >? 0)|]; simpl; auto.
Qed.

Lemma tryMove_Invariant (dx dy : Z) (s : State) :
  Invariant s -> Invariant (snd (tryMove dx dy s)).
Proof.
  intros [Hs Ha].
  destruct (tryMove_frame dx dy s) as (Hb & _ & _ & _ & _ & _ & _ & Hst & Hsc & Hlv & Hl & Hc & Hbb & _).
  pose proof (tryMove_active dx dy s) as Hact.
  destruct Hs as [H1 H2 H3 H4 H5 H6 H7].
  split.
  - constructor; rewrite ?Hb, ?Hl, ?Hlv, ?Hc, ?Hbb, ?Hsc; try assumption.
    intros a' Ha'. destruct (active s) as [a|] eqn:Ea.
    + destruct (collides _ _ _ _ _); destruct Hact as [_ Hact];
        rewrite Hact in Ha'; injection Ha' as <-; simpl; now apply H7.
    + rewrite Hact in Ha'. simpl in Ha'. congruence.
  - rewrite Hst, <- Ha. destruct (active s) as [a|] eqn:Ea.
    + destruct (collides _ _ _ _ _); destruct Hact as [_ Hact]; rewrite Hact;
        split; discriminate.
    + rewrite Hact. simpl. rewrite Ea. reflexivity.
Qed.

Lemma board_ok_createBoard : board_ok createBoard.
Proof.
  split; [reflexivity|]. apply Forall_replicate. reflexivity.
Qed.

Lemma board_ok_setCell (b : Board) (y x : Z) (v : BoardCell) :
  board_ok b -> board_ok (setCell b y x v).
Proof.
  intros [Hlen Hrows]. unfold setCell.
  destruct (b !! Z.to_nat y) as [r|] eqn:Hr; [|now split].
  split; [now rewrite length_insert|].
  apply Forall_insert; [exact Hrows|].
  rewrite length_insert. rewrite Forall_lookup in Hrows. eapply Hrows; eauto.
Qed.

Lemma board_ok_stampCols (t : PieceType) (x boardY : Z) (cells : list bool) :
  forall (col : Z) (acc : list (list BoardCell) * bool),
    board_ok (fst acc) -> board_ok (fst (stampCols t x boardY col cells acc)).
Proof.
  induction cells as [|c rest IH]; intros col acc H; simpl; [exact H|].
  destruct c; simpl; [|now apply IH].
  destruct (boardY <? 0); [now apply IH|].
  destruct ((boardY >=? TOTAL_ROWS) || (x + col <? 0) || (x + col >=? COLS));
    apply IH; [exact H|]. simpl. now apply board_ok_setCell.
Qed.

Lemma board_ok_stampRows (t : PieceType) (x y : Z) (m : list (list bool)) :
  forall (row : Z) (acc : list (list BoardCell) * bool),
    board_ok (fst acc) -> board_ok (fst (stampRows t x y row m acc)).
Proof.
  induction m as [|cells rest IH]; intros row acc H; [exact H|].
  cbn [stampRows]. apply IH. now apply board_ok_stampCols.
Qed.

Lemma split_full_rows (b : list (list BoardCell)) :
  (fullRows b + length (List.filter (fun r => negb (rowFull r)) b) = length b)%nat.
Proof.
  unfold fullRows. induction b as [|r b IH]; simpl; [reflexivity|].
  destruct (rowFull r); simpl; lia.
Qed.

Lemma board_ok_withoutFullRows (b : list (list BoardCell)) :
  board_ok b -> board_ok (withoutFullRows b).
Proof.
  intros [Hlen Hrows]. unfold withoutFullRows. split.
  - rewrite length_app, length_replicate, split_full_rows. exact Hlen.
  - apply Forall_app. split; [apply Forall_replicate; reflexivity|].
    rewrite Forall_forall in *. intros r Hr.
    apply Hrows. rewrite list_elem_of_In in *. eapply List.incl_filter; eauto.
Qed.

Lemma computeGravityInterval_min (lvl : Z) : (50 # 1 <= computeGravityInterval lvl)%Q.
Proof. unfold computeGravityInterval. apply Q.le_max_l. Qed.

(** Scoring keeps the counters in range and never lowers the score. *)
Lemma handleLineScoring_Sane (n : Z) (s : State) :
  0 <= n -> Sane s ->
  Sane (handleLineScoring n s) /\ score s <= score (handleLineScoring n s).
Proof.
  intros Hn [H1 H2 H3 H4 H5 H6 H7].
  destruct (Z.eq_dec n 0) as [-> | Hpos].
  - unfold handleLineScoring. change (0 >? 0) with false. cbn iota zeta.
    assert (Hdiv : 0 <= lines s / 10) by (apply Z.div_pos; lia).
    destruct (backToBack (set_combo (-1) s) >? 0); simpl;
      (split; [constructor; simpl; try assumption; lia | lia]).
  - destruct (handleLineScoring_fields n s ltac:(lia))
      as (Hl & Hlv & Hc & Hb & Hs & Hbd & Hact & _).
    cbn zeta in *.
    set (base := match LINE_SCORES !! Z.to_nat n with Some v => v | None => 0 end) in *.
    assert (Hbase : 0 <= base).
    { subst base. destruct (Z.to_nat n) as [|[|[|[|[|k]]]]]; simpl; lia. }
    assert (Hprod : 0 <= base * level s) by (apply Z.mul_nonneg_nonneg; lia).
    assert (Hline : 0 <= (if (n =? 4) && (backToBack s >? 0)
                          then base * level s * 3 / 2 else base * level s)).
    { destruct ((n =? 4) && (backToBack s >? 0)); [|exact Hprod].
      apply Z.div_pos; lia. }
    set (combo' := if combo s >=? 0 then combo s + 1 else 0) in *.
    assert (Hcombo' : 0 <= combo') by (subst combo'; destruct (combo s >=? 0) eqn:E; lia).
    assert (Hbonus : 0 <= (if combo' >? 0 then 50 * combo' * level s else 0)).
    { destruct (combo' >? 0); [|lia].
      apply Z.mul_nonneg_nonneg; [apply Z.mul_nonneg_nonneg|]; lia. }
    assert (Hdiv : 0 <= (lines s + n) / 10) by (apply Z.div_pos; lia).
    split; [|lia].
    constructor; rewrite ?Hbd, ?Hl, ?Hlv, ?Hc, ?Hb, ?Hs, ?Hact; try assumption; try lia.
    destruct (n =? 4); lia.
Qed.

(** Scoring leaves the board, the piece, the phase, the queue and the hold
    slot alone. *)
Lemma handleLineScoring_frame (n : Z) (s : State) :
  let s' := handleLineScoring n s in
  board s' = board s /\ active s' = active s /\ state s' = state s /\
  queue s' = queue s /\ holdPiece s' = holdPiece s /\ randomCalls s' = randomCalls s /\
  canHold s' = canHold s.
Proof.
  unfold handleLineScoring. cbn zeta.
  destruct (n >? 0).
  - cbn -[computeGravityInterval Z.div Z.mul Z.add Z.gtb Z.geb Z.eqb].
    destruct ((if combo s >=? 0 then combo s + 1 else 0) >? 0);
      cbn -[computeGravityInterval Z.div Z.mul Z.add Z.gtb Z.geb Z.eqb]; repeat split.
  - cbn -[computeGravityInterval Z.div Z.mul Z.add Z.gtb Z.geb Z.eqb].
    destruct (backToBack s >? 0);
      cbn -[computeGravityInterval Z.div Z.mul Z.add Z.gtb Z.geb Z.eqb]; repeat split.
Qed.

Lemma clearLoop_board_ok (fuel : nat) :
  forall (b : list (list BoardCell)) (row cleared : Z) (r : list (list BoardCell) * Z),
    board_ok b -> clearLoop fuel b row cleared = Some r ->
    board_ok (fst r) /\ cleared <= snd r.
Proof.
  induction fuel as [|fuel IH]; intros b row cleared r Hb H; simpl in H.
  - destruct (row >=? 0); [discriminate|]. injection H as <-. simpl. split; [exact Hb | lia].
  - destruct (row >=? 0); [|injection H as <-; simpl; split; [exact Hb | lia]].
    destruct (b !! Z.to_nat row) as [cells|] eqn:Hrow; [|discriminate].
    destruct (rowFull cells).
    + apply IH in H.
      * destruct H as [H1 H2]. split; [exact H1 | lia].
      * destruct Hb as [Hlen Hrows]. split.
        -- simpl. rewrite length_delete by eauto.
           apply lookup_lt_Some in Hrow. lia.
        -- constructor; [reflexivity | now apply Forall_delete].
    + now apply IH in H.
Qed.

Lemma refillQueue_spec (fuel : nat) (s s' : State) :
  refillQueue fuel s = Some s' ->
  refillLoop fuel (queue s) (randomCalls s) = Some (queue s', randomCalls s') /\
  (7 <= length (queue s'))%nat /\
  s' = set_randomCalls (randomCalls s') (set_queue (queue s') s).
Proof.
  unfold refillQueue. intros H.
  destruct (refillLoop fuel (queue s) (randomCalls s)) as [[q c]|] eqn:Hr;
    simpl in H; [|discriminate].
  injection H as <-. simpl.
  destruct (refillLoop_bags _ _ _ _ Hr) as (_ & _ & _ & _ & Hlen).
  auto.
Qed.

(** [spawnNextPiece], when it returns: the piece at the head of the
    refilled queue is dequeued; it becomes the active piece, or the game is
    over when it collides where it spawns. *)
Lemma spawnNextPiece_spec (fuel : nat) (s s' : State) :
  spawnNextPiece fuel s = Some s' ->
  exists (t : PieceType),
    dequeue fuel (queueOf s) = Some (t, queueOf s') /\
    board s' = board s /\ holdPiece s' = holdPiece s /\ score s' = score s /\
    level s' = level s /\ lines s' = lines s /\ combo s' = combo s /\
    backToBack s' = backToBack s /\ gravityInterval s' = gravityInterval s /\
    softDropActive s' = false /\ lockTimer s' = 0%Q /\ gravityTimer s' = 0%Q /\
    canHold s' = true /\
    let a := createPiece t in
    if collides (board s) (p_type a) (p_x a) (p_y a) (p_rotation a)
    then active s' = None /\ state s' = over
    else active s' = Some a /\ state s' = state s /\
         grounded s' = collides (board s) (p_type a) (p_x a) (p_y a + 1) (p_rotation a).
Proof.
  unfold spawnNextPiece. intros H.
  destruct (refillQueue fuel s) as [s1|] eqn:Hr; simpl in H; [|discriminate].
  destruct (refillQueue_spec _ _ _ Hr) as (Hloop & Hlen & Hs1).
  destruct (queue s1) as [|t rest] eqn:Hq; [simpl in Hlen; lia|].
  exists t.
  assert (Hb1 : board s1 = board s) by (rewrite Hs1; reflexivity).
  cbn zeta in *. simpl board in H. rewrite Hb1 in H.
  cbn [createPiece p_type p_x p_y p_rotation] in *.
  unfold dequeue, queueOf. cbn [fst snd]. rewrite Hloop. cbn [fst snd mbind option_bind].
  destruct (collides (board s) t (fst (SPAWN_POSITIONS t)) (snd (SPAWN_POSITIONS t)) 0)
    eqn:Hcol; injection H as <-; rewrite Hs1; unfold checkGrounded; simpl;
    repeat split; reflexivity.
Qed.

Lemma createPiece_rotation (t : PieceType) (a : ActivePiece) :
  Some (createPiece t) = Some a -> 0 <= p_rotation a < 4.
Proof. intros [= <-]. simpl. lia. Qed.

Lemma spawnNextPiece_Invariant (fuel : nat) (s s' : State) :
  Sane s -> state s = playing ->
  spawnNextPiece fuel s = Some s' ->
  Invariant s' /\ score s' = score s /\
  (exists t, dequeue fuel (queueOf s) = Some (t, queueOf s')).
Proof.
  intros [H1 H2 H3 H4 H5 H6 H7] Hplay H.
  destruct (spawnNextPiece_spec _ _ _ H)
    as (t & Hdq & Hb & _ & Hsc & Hlv & Hl & Hc & Hbb & _ & _ & _ & _ & _ & Hact).
  cbn zeta in Hact.
  split; [|split; [exact Hsc | eauto]].
  destruct (collides _ _ _ _ _); [destruct Hact as [Ha Hst] | destruct Hact as (Ha & Hst & _)].
  - split; [|rewrite Ha, Hst; split; reflexivity].
    constructor; rewrite ?Hb, ?Hl, ?Hlv, ?Hc, ?Hbb, ?Hsc, ?Ha; try assumption.
    intros a [=].
  - split; [|rewrite Ha, Hst, Hplay; split; discriminate].
    constructor; rewrite ?Hb, ?Hl, ?Hlv, ?Hc, ?Hbb, ?Hsc, ?Ha; try assumption.
    intros a. apply createPiece_rotation.
Qed.

Lemma lockPiece_unfold (fuel : nat) (s : State) (a : ActivePiece) :
  active s = Some a ->
  lockPiece fuel s =
  let stamped :=
    stampRows (p_type a) (p_x a) (p_y a) 0 (getMatrix (p_type a) (p_rotation a))
      (board s, false) in
  if snd stamped then Some (endGame (set_board (fst stamped) s))
  else
    r ← clearLines fuel (fst stamped);
    if is_playing (state s) then spawnNextPiece fuel (afterLock (fst r) (snd r) s)
    else Some (afterLock (fst r) (snd r) s).
Proof.
  intros Ha. unfold lockPiece. rewrite Ha. cbn zeta.
  destruct (snd (stampRows _ _ _ _ _ _)); [reflexivity|].
  fields.
  destruct (clearLines fuel _) as [r|]; [|reflexivity].
  cbn [mbind option_bind]. fields.
  match goal with
  | |- context [state (handleLineScoring ?n ?s0)] =>
      destruct (handleLineScoring_frame n s0) as (_ & _ & Hst & _)
  end.
  cbn zeta in Hst. rewrite Hst. reflexivity.
Qed.

Lemma afterLock_Sane (b : list (list BoardCell)) (n : Z) (s : State) :
  board_ok b -> 0 <= n -> Sane s ->
  Sane (afterLock b n s) /\ score s <= score (afterLock b n s) /\
  state (afterLock b n s) = state s /\ queueOf (afterLock b n s) = queueOf s /\
  active (afterLock b n s) = None.
Proof.
  intros Hb Hn Hs.
  destruct (handleLineScoring_Sane n (set_board b s) Hn (Sane_board s b Hb Hs))
    as [Hsane Hscore].
  destruct (handleLineScoring_frame n (set_board b s)) as (F1 & F2 & F3 & F4 & F5 & F6 & F7).
  cbn zeta in *. unfold afterLock, queueOf. fields. fields in Hscore.
  split; [|split; [exact Hscore | split; [exact F3 | split; [now rewrite F4, F6 | reflexivity]]]].
  destruct Hsane as [H1 H2 H3 H4 H5 H6 H7].
  constructor; fields; try assumption. intros a' [=].
Qed.

(** [lockPiece] in the playing phase keeps the invariant, never lowers the
    score, and dequeues at most one piece. *)
Lemma lockPiece_Invariant (fuel : nat) (s s' : State) :
  Invariant s -> state s = playing ->
  lockPiece fuel s = Some s' ->
  Invariant s' /\ score s <= score s' /\ queue_step fuel (queueOf s) (queueOf s').
Proof.
  intros [Hs Hact] Hplay H.
  destruct (active s) as [a|] eqn:Ha.
  2:{ unfold lockPiece in H. rewrite Ha in H. injection H as <-.
      split; [split; [exact Hs | now rewrite Ha]|]. split; [lia | now left]. }
  rewrite (lockPiece_unfold fuel s a Ha) in H. cbn zeta in H.
  set (stamped := stampRows (p_type a) (p_x a) (p_y a) 0
                    (getMatrix (p_type a) (p_rotation a)) (board s, false)) in *.
  assert (Hok : board_ok (fst stamped)).
  { apply board_ok_stampRows. simpl. apply Hs. }
  destruct (snd stamped).
  - injection H as <-. split; [|split; [fields; lia | now left]].
    apply Invariant_endGame. now apply Sane_board.
  - destruct (clearLines fuel (fst stamped)) as [[b2 n]|] eqn:Hclear;
      cbn [mbind option_bind] in H; [|discriminate].
    destruct (clearLoop_board_ok _ _ _ _ _ Hok Hclear) as [Hok2 Hn].
    fields in Hok2. fields in Hn.
    destruct (afterLock_Sane b2 n s Hok2 Hn Hs) as (Hsane & Hscore & Hst & Hq & Hnone).
    rewrite Hplay in H. cbn [is_playing fst snd] in H.
    destruct (spawnNextPiece_Invariant fuel _ _ Hsane ltac:(now rewrite Hst) H)
      as (Hinv & Hsc & t & Hdq).
    split; [exact Hinv|]. split; [lia|].
    right. exists t. now rewrite <- Hq.
Qed.

Lemma Invariant_same (s s' : State) :
  board s' = board s -> lines s' = lines s -> level s' = level s ->
  combo s' = combo s -> backToBack s' = backToBack s -> score s' = score s ->
  active s' = active s -> state s' = state s ->
  Invariant s -> Invariant s'.
Proof.
  intros Hb Hl Hv Hc Hbb Hs Ha Hst [Hsane Hact].
  split; [eapply Sane_same; eauto | now rewrite Ha, Hst].
Qed.

Lemma Invariant_score (s : State) (v : Z) :
  0 <= v -> Invariant s -> Invariant (set_score v s).
Proof. intros Hv [Hs Ha]. split; [now apply Sane_score | exact Ha]. Qed.

Lemma tryMove_state (dx dy : Z) (s : State) :
  state (snd (tryMove dx dy s)) = state s /\
  score (snd (tryMove dx dy s)) = score s /\
  queueOf (snd (tryMove dx dy s)) = queueOf s.
Proof.
  destruct (tryMove_frame dx dy s)
    as (_ & Hq & _ & _ & _ & _ & _ & Hst & Hsc & _ & _ & _ & _ & Hr).
  cbn zeta in *. unfold queueOf. now rewrite Hq, Hr.
Qed.

Lemma gravityLoop_Invariant (fuel : nat) (interval : Q) :
  forall s s' : State,
    Invariant s -> gravityLoop fuel interval s = Some s' ->
    Invariant s' /\ score s <= score s' /\ queueOf s' = queueOf s /\
    state s' = state s /\ (is_some (active s') = is_some (active s)).
Proof.
  induction fuel as [|fuel IH]; intros s s' Hinv H; simpl in H.
  - destruct (Qle_bool interval (gravityTimer s) && is_some (active s)); [discriminate|].
    injection H as <-. split; [exact Hinv | split; [lia | auto]].
  - destruct (Qle_bool interval (gravityTimer s) && is_some (active s)).
    2:{ injection H as <-. split; [exact Hinv | split; [lia | auto]]. }
    set (s1 := set_gravityTimer (number_sub (gravityTimer s) interval) s) in *.
    assert (Hinv1 : Invariant s1) by (eapply Invariant_same; [..|exact Hinv]; reflexivity).
    pose proof (tryMove_Invariant 0 1 s1 Hinv1) as Hinv2.
    destruct (tryMove_state 0 1 s1) as (Hst & Hsc & Hq).
    assert (Hsome : is_some (active (snd (tryMove 0 1 s1))) = is_some (active s)).
    { pose proof (tryMove_active 0 1 s1) as Hact.
      assert (Ha1 : active s1 = active s) by reflexivity.
      rewrite Ha1 in Hact.
      destruct (active s) as [a|] eqn:Ea.
      - destruct (collides _ _ _ _ _); destruct Hact as [_ ->]; reflexivity.
      - rewrite Hact. cbn [snd]. now rewrite Ha1. }
    assert (Hsc1 : score s1 = score s) by reflexivity.
    assert (Hst1 : state s1 = state s) by reflexivity.
    assert (Hq1 : queueOf s1 = queueOf s) by reflexivity.
    destruct (fst (tryMove 0 1 s1)).
    + set (s2 := snd (tryMove 0 1 s1)) in *.
      set (s3 := if softDropActive s2 then set_score (score s2 + 1) s2 else s2) in *.
      assert (H3 : Invariant s3 /\ score s2 <= score s3 /\ queueOf s3 = queueOf s2 /\
                   state s3 = state s2 /\ active s3 = active s2).
      { subst s3. destruct (softDropActive s2).
        - split; [|fields; unfold queueOf; fields; split; [lia | auto]].
          apply Invariant_score; [|exact Hinv2]. destruct Hinv2 as [[] _]. lia.
        - split; [exact Hinv2 | split; [lia | auto]]. }
      destruct H3 as (Hi3 & Hs3 & Hq3 & Hst3 & Ha3).
      destruct (IH _ _ Hi3 H) as (Hi & Hs' & Hq' & Hst' & Hsome').
      split; [exact Hi|]. split; [lia|]. split; [congruence|]. split; [congruence|].
      rewrite Hsome', Ha3. exact Hsome.
    + injection H as <-.
      split; [eapply Invariant_same; [..|exact Hinv2]; reflexivity|].
      fields. split; [lia|]. split; [unfold queueOf in *; fields; congruence|].
      split; [congruence | exact Hsome].
Qed.

Lemma good_step_refl (fuel : nat) (s : State) : Invariant s -> good_step fuel s s.
Proof. intros H. split; [exact H | split; [lia | now left]]. Qed.

Lemma good_step_same (fuel : nat) (s s' : State) :
  board s' = board s -> lines s' = lines s -> level s' = level s ->
  combo s' = combo s -> backToBack s' = backToBack s -> score s' = score s ->
  active s' = active s -> state s' = state s -> queueOf s' = queueOf s ->
  Invariant s -> good_step fuel s s'.
Proof.
  intros Hb Hl Hv Hc Hbb Hs Ha Hst Hq Hinv.
  split; [eapply Invariant_same; eauto|]. split; [lia | left; exact Hq].
Qed.

Lemma update_step (fuel : nat) (delta : Q) (s s' : State) :
  Invariant s -> update fuel delta s = Some s' -> good_step fuel s s'.
Proof.
  intros Hinv H. unfold update in H.
  destruct (negb (is_playing (state s)) || negb (is_some (active s))) eqn:Hguard.
  - injection H as <-. now apply good_step_refl.
  - apply orb_false_elim in Hguard. destruct Hguard as [Hplay _].
    assert (Hst : state s = playing) by (destruct (state s); simpl in Hplay; congruence).
    set (interval := if softDropActive s then SOFT_DROP_INTERVAL else gravityInterval s) in *.
    set (s1 := set_gravityTimer (number_add (gravityTimer s) delta) s) in *.
    assert (Hinv1 : Invariant s1) by (eapply Invariant_same; [..|exact Hinv]; reflexivity).
    destruct (gravityLoop fuel interval s1) as [s2|] eqn:Hloop;
      cbn [mbind option_bind] in H; [|discriminate].
    destruct (gravityLoop_Invariant _ _ _ _ Hinv1 Hloop) as (Hinv2 & Hsc & Hq & Hst2 & _).
    assert (Hsc' : score s <= score s2) by exact Hsc.
    assert (Hq' : queueOf s2 = queueOf s) by exact Hq.
    assert (Hst' : state s2 = playing) by (rewrite Hst2; exact Hst).
    destruct (grounded s2 && is_some (active s2)).
    2:{ injection H as <-. split; [exact Hinv2 | split; [lia | left; exact Hq']]. }
    set (s3 := set_lockTimer (number_add (lockTimer s2) delta) s2) in *.
    assert (Hinv3 : Invariant s3) by (eapply Invariant_same; [..|exact Hinv2]; reflexivity).
    destruct (Qle_bool LOCK_DELAY_MS (lockTimer s3)).
    + destruct (lockPiece_Invariant fuel s3 s' Hinv3 Hst' H) as (Hi & Hs & Hstep).
      split; [exact Hi|]. split; [change (score s3) with (score s2) in Hs; lia|].
      change (queueOf s3) with (queueOf s2) in Hstep. now rewrite Hq' in Hstep.
    + injection H as <-. split; [exact Hinv3|]. split; [exact Hsc' | left; exact Hq'].
Qed.

Lemma move_step (fuel : nat) (direction : Z) (s : State) :
  Invariant s -> good_step fuel s (move direction s).
Proof.
  intros Hinv. unfold move.
  destruct (negb (is_playing (state s))); [now apply good_step_refl|].
  pose proof (tryMove_Invariant direction 0 s Hinv) as Hinv2.
  destruct (tryMove_state direction 0 s) as (Hst & Hsc & Hq).
  destruct (fst (tryMove direction 0 s)).
  - split; [eapply Invariant_same; [..|exact Hinv2]; reflexivity|].
    fields. split; [lia | left; unfold queueOf in *; fields; exact Hq].
  - split; [exact Hinv2 | split; [lia | left; exact Hq]].
Qed.

Lemma tapSoftDrop_step (fuel : nat) (s : State) :
  Invariant s -> good_step fuel s (tapSoftDrop s).
Proof.
  intros Hinv. unfold tapSoftDrop.
  destruct (negb (is_playing (state s))); [now apply good_step_refl|].
  pose proof (tryMove_Invariant 0 1 s Hinv) as Hinv2.
  destruct (tryMove_state 0 1 s) as (Hst & Hsc & Hq).
  destruct (fst (tryMove 0 1 s)).
  - split; [apply Invariant_score; [destruct Hinv2 as [[] _]; lia | exact Hinv2]|].
    fields. split; [lia | left; unfold queueOf in *; fields; exact Hq].
  - split; [eapply Invariant_same; [..|exact Hinv2]; reflexivity|].
    fields. split; [lia | left; unfold queueOf in *; fields; exact Hq].
Qed.

Lemma setSoftDrop_step (fuel : nat) (on : bool) (s : State) :
  Invariant s -> good_step fuel s (setSoftDrop on s).
Proof.
  intros Hinv. unfold setSoftDrop.
  destruct (Bool.eqb (softDropActive s) on); [now apply good_step_refl|].
  destruct on; apply good_step_same; auto.
Qed.

Lemma togglePause_step (fuel : nat) (s : State) :
  Invariant s -> good_step fuel s (togglePause s).
Proof.
  intros Hinv. unfold togglePause.
  destruct (state s) eqn:Hst; [| |now apply good_step_refl].
  - destruct Hinv as [Hs Ha]. split; [|split; [fields; lia | now left]].
    split; [eapply Sane_same; [..|exact Hs]; reflexivity|].
    fields. rewrite Ha, Hst. split; discriminate.
  - destruct Hinv as [Hs Ha]. split; [|split; [fields; lia | now left]].
    split; [eapply Sane_same; [..|exact Hs]; reflexivity|].
    fields. rewrite Ha, Hst. split; discriminate.
Qed.

Lemma toRotation_range (r dir : Z) :
  -1 <= dir <= 1 -> 0 <= Z.rem (Z.rem (Z.rem r 4 + 4) 4 + dir + 4) 4 < 4.
Proof.
  intros Hdir.
  assert (H1 : Z.abs (Z.rem r 4) < Z.abs 4) by (apply Z.rem_bound_abs; lia).
  assert (H2 : 0 <= Z.rem (Z.rem r 4 + 4) 4 < 4) by (apply Z.rem_bound_pos; lia).
  apply Z.rem_bound_pos; lia.
Qed.

Lemma rotateKicks_step (fuel : nat) (a : ActivePiece) (toRotation : Z)
  (kicks : list (Z * Z)) (s : State) :
  0 <= toRotation < 4 -> active s = Some a -> Invariant s ->
  good_step fuel s (rotateKicks a toRotation kicks s).
Proof.
  intros Hrot Ha Hinv.
  induction kicks as [|[offsetX offsetY] rest IH]; simpl; [now apply good_step_refl|].
  destruct (collides _ _ _ _ _); simpl; [exact IH|].
  destruct Hinv as [Hs Hact].
  split; [|split; [fields; lia | now left]].
  split.
  - eapply Sane_same with (s := set_active
      (Some (mkPiece (p_type a) toRotation (p_x a + offsetX) (p_y a + offsetY))) s);
      try reflexivity.
    apply Sane_active; [|exact Hs]. intros a' [= <-]. exact Hrot.
  - fields. rewrite <- Hact, Ha. split; discriminate.
Qed.

Lemma rotate_step (fuel : nat) (clockwise : bool) (s : State) :
  Invariant s -> good_step fuel s (rotate clockwise s).
Proof.
  intros Hinv. unfold rotate.
  destruct (negb (is_playing (state s))); [now apply good_step_refl|].
  destruct (active s) as [a|] eqn:Ha; [|now apply good_step_refl].
  apply rotateKicks_step; [|exact Ha | exact Hinv].
  apply toRotation_range. destruct clockwise; lia.
Qed.

Lemma hardDrop_step (fuel : nat) (s s' : State) :
  Invariant s -> hardDrop fuel s = Some s' -> good_step fuel s s'.
Proof.
  intros Hinv H. unfold hardDrop in H.
  destruct (is_playing (state s)) eqn:Hplay; simpl in H;
    [|injection H as <-; now apply good_step_refl].
  assert (Hst : state s = playing) by (destruct (state s); simpl in Hplay; congruence).
  destruct (active s) as [a|] eqn:Ha; [|injection H as <-; now apply good_step_refl].
  destruct (getDropDistance fuel s) as [distance|]; cbn [mbind option_bind] in H;
    [|discriminate].
  destruct (distance <=? 0) eqn:Hd; [injection H as <-; now apply good_step_refl|].
  apply Z.leb_gt in Hd.
  set (s2 := set_score _ _) in H.
  assert (Hinv2 : Invariant s2).
  { destruct Hinv as [Hs Hact]. subst s2. split.
    - apply Sane_score; [fields; destruct Hs; lia|].
      apply Sane_active; [|exact Hs]. intros a' [= <-]. simpl.
      now apply (sane_rotation s Hs).
    - fields. rewrite <- Hact, Ha. split; discriminate. }
  destruct (lockPiece_Invariant fuel s2 s' Hinv2 Hst H) as (Hi & Hs & Hstep).
  split; [exact Hi|]. split; [|exact Hstep].
  subst s2. fields in Hs. lia.
Qed.

Lemma hold_step (fuel : nat) (s s' : State) :
  Invariant s -> hold fuel s = Some s' -> good_step fuel s s'.
Proof.
  intros Hinv H. unfold hold in H.
  destruct (negb (is_playing (state s)) || negb (canHold s)) eqn:Hguard;
    [injection H as <-; now apply good_step_refl|].
  apply orb_false_elim in Hguard. destruct Hguard as [Hplay _].
  assert (Hst : state s = playing) by (destruct (state s); simpl in Hplay; congruence).
  destruct (active s) as [a|] eqn:Ha; [|injection H as <-; now apply good_step_refl].
  destruct Hinv as [Hs Hact].
  destruct (holdPiece s) as [t|] eqn:Hh.
  - cbn zeta in H. fields in H.
    assert (Hsane : Sane (set_active (Some (createPiece t))
                            (set_canHold false (set_holdPiece (Some (p_type a)) s)))).
    { apply Sane_active; [intros a'; apply createPiece_rotation|].
      eapply Sane_same; [..|exact Hs]; reflexivity. }
    destruct (collides _ _ _ _ _); injection H as <-.
    + split; [now apply Invariant_endGame|]. split; [fields; lia | now left].
    + split; [|split; [fields; lia | now left]].
      split; [eapply Sane_same; [..|exact Hsane]; reflexivity|].
      fields. rewrite Hst. split; discriminate.
  - cbn zeta in H.
    assert (Hsane : Sane (set_active None
                            (set_canHold false (set_holdPiece (Some (p_type a)) s)))).
    { apply Sane_active; [intros a' [=]|].
      eapply Sane_same; [..|exact Hs]; reflexivity. }
    destruct (spawnNextPiece_Invariant fuel _ _ Hsane Hst H) as (Hi & Hsc & t & Hdq).
    split; [exact Hi|]. split; [fields in Hsc; lia|].
    right. exists t. exact Hdq.
Qed.

Lemma Sane_initial (calls : nat) :
  Sane (mkState createBoard [] None None true 0%Q (1000 # 1) 0%Q false false playing
          0 1 0 (-1) 0 calls).
Proof.
  constructor; simpl; try lia; [apply board_ok_createBoard | intros a [=]].
Qed.

(** [reset] builds a state that satisfies the invariant, with score 0,
    and hands out the first piece of a fresh queue. *)
Lemma reset_Invariant (fuel : nat) (s s' : State) :
  reset fuel s = Some s' ->
  Invariant s' /\ score s' = 0 /\
  exists t, dequeue fuel ([], randomCalls s) = Some (t, queueOf s').
Proof.
  unfold reset. intros H.
  set (s0 := mkState _ _ _ _ _ _ _ _ _ _ _ _ _ _ _ _ _) in H.
  destruct (refillQueue fuel s0) as [s1|] eqn:Hr; cbn [mbind option_bind] in H;
    [|discriminate].
  destruct (refillQueue_spec _ _ _ Hr) as (Hloop & Hlen & Hs1).
  assert (Hsane : Sane s1).
  { rewrite Hs1. eapply Sane_same; [..|apply (Sane_initial (randomCalls s))]; reflexivity. }
  assert (Hplay : state s1 = playing) by (rewrite Hs1; reflexivity).
  destruct (spawnNextPiece_Invariant fuel _ _ Hsane Hplay H) as (Hi & Hsc & t & Hdq).
  split; [exact Hi|]. split; [rewrite Hsc, Hs1; reflexivity|].
  exists t. unfold dequeue in *. cbn [fst snd queueOf] in *.
  change (queue s0) with (@nil PieceType) in Hloop.
  change (randomCalls s0) with (randomCalls s) in Hloop.
  rewrite Hloop. cbn [mbind option_bind fst snd].
  rewrite (refillLoop_full fuel _ _ Hlen) in Hdq. exact Hdq.
Qed.

(** Every command other than [reset] keeps the invariant, never lowers the
    score and dequeues at most one piece. *)
Lemma exec_step (fuel : nat) (c : Command) (s s' : State) :
  c <> CReset -> Invariant s -> exec fuel c s = Some s' -> good_step fuel s s'.
Proof.
  intros Hc Hinv H.
  destruct c as [|delta|direction|clockwise| | |on| |]; simpl in H; try congruence;
    try (injection H as <-).
  - now apply (update_step fuel delta).
  - now apply move_step.
  - now apply rotate_step.
  - now apply hardDrop_step.
  - now apply tapSoftDrop_step.
  - now apply setSoftDrop_step.
  - now apply hold_step.
  - now apply togglePause_step.
Qed.

Lemma exec_Invariant (fuel : nat) (c : Command) (s s' : State) :
  Invariant s -> exec fuel c s = Some s' -> Invariant s'.
Proof.
  intros Hinv H.
  assert (Hcases : c = CReset \/ c <> CReset)
    by (destruct c; auto; right; discriminate).
  destruct Hcases as [-> | Hc].
  - simpl in H. now apply reset_Invariant in H.
  - now apply (exec_step fuel c s s' Hc Hinv H).
Qed.

Lemma reachable_Invariant (s : State) : reachable s -> Invariant s.
Proof.
  induction 1 as [fuel s H | fuel c s s' _ IH H].
  - unfold newGame in H. now apply reset_Invariant in H.
  - eapply exec_Invariant; eauto.
Qed.

(** ** Every command returns *)

Section Returns.

Hypothesis catalog : catalog_ok.

Lemma PIECE_TYPES_seven : length PIECE_TYPES = 7%nat.
Proof. destruct catalog as [H _]. now rewrite (Permutation_length H). Qed.

Lemma collides_below (b : list (list BoardCell)) (t : PieceType) (x y r : Z) :
  occupiedSomewhere (getMatrix t r) -> TOTAL_ROWS <= y -> collides b t x y r = true.
Proof.
  intros (row & col & Hm) Hy. unfold collides. apply collidesRows_spec.
  exists row, col. split; [exact Hm|]. unfold blocked. right. right. left. lia.
Qed.

Lemma dropLoop_returns (b : list (list BoardCell)) (a : ActivePiece) (fuel : nat) :
  occupiedSomewhere (getMatrix (p_type a) (p_rotation a)) ->
  forall distance : Z,
    (Z.to_nat (TOTAL_ROWS - (p_y a + distance + 1)) <= fuel)%nat ->
    exists d, dropLoop fuel b a distance = Some d.
Proof.
  intros Hocc. induction fuel as [|fuel IH]; intros distance Hfuel; simpl.
  - rewrite collides_below; [simpl; eauto | exact Hocc | lia].
  - destruct (collides b (p_type a) (p_x a) (p_y a + distance + 1) (p_rotation a)) eqn:Hc;
      simpl; [eauto|].
    apply IH.
    destruct (Z_lt_le_dec (p_y a + distance + 1) TOTAL_ROWS) as [Hlt|Hge]; [lia|].
    rewrite collides_below in Hc by (auto; lia). discriminate.
Qed.

Lemma refillQueue_returns (fuel : nat) (s : State) :
  (1 <= fuel)%nat -> exists s', refillQueue fuel s = Some s'.
Proof.
  intros Hfuel. unfold refillQueue.
  destruct (refillLoop_returns fuel (queue s) (randomCalls s) PIECE_TYPES_seven Hfuel)
    as [r ->].
  simpl. eauto.
Qed.

Lemma spawnNextPiece_returns (fuel : nat) (s : State) :
  (1 <= fuel)%nat -> exists s', spawnNextPiece fuel s = Some s'.
Proof.
  intros Hfuel. unfold spawnNextPiece.
  destruct (refillQueue_returns fuel s Hfuel) as [s1 ->]. simpl.
  destruct (queue s1); [eauto|].
  destruct (collides _ _ _ _ _); eauto.
Qed.

Lemma reset_returns (fuel : nat) (s : State) :
  (1 <= fuel)%nat -> exists s', reset fuel s = Some s'.
Proof.
  intros Hfuel. unfold reset.
  match goal with
  | |- context [refillQueue fuel ?s0] =>
      destruct (refillQueue_returns fuel s0 Hfuel) as [s1 ->]
  end.
  simpl. now apply spawnNextPiece_returns.
Qed.

Lemma lockPiece_returns (fuel : nat) (s : State) :
  board_ok (board s) -> (2 * Z.to_nat TOTAL_ROWS <= fuel)%nat ->
  exists s', lockPiece fuel s = Some s'.
Proof.
  intros Hok Hfuel.
  destruct (active s) as [a|] eqn:Ha;
    [|unfold lockPiece; rewrite Ha; eauto].
  rewrite (lockPiece_unfold fuel s a Ha). cbn zeta.
  set (stamped := stampRows _ _ _ _ _ _).
  assert (Hok1 : board_ok (fst stamped)) by (apply board_ok_stampRows; exact Hok).
  destruct (snd stamped); [eauto|].
  rewrite (clearLines_returns fuel (fst stamped) (proj1 Hok1) Hfuel).
  cbn [mbind option_bind].
  destruct (is_playing (state s)); [|eauto].
  apply spawnNextPiece_returns. simpl in Hfuel. lia.
Qed.

Lemma gravityLoop_returns (interval : Q) (fuel : nat) :
  forall s : State,
    (forall a, active s = Some a ->
       occupiedSomewhere (getMatrix (p_type a) (p_rotation a)) /\
       (Z.to_nat (TOTAL_ROWS - p_y a) + 1 <= fuel)%nat) ->
    exists s', gravityLoop fuel interval s = Some s'.
Proof.
  induction fuel as [|fuel IH]; intros s Hact; simpl.
  - destruct (active s) as [a|] eqn:Ha.
    + destruct (Hact a eq_refl) as [_ Hfuel]. lia.
    + rewrite andb_false_r. eauto.
  - destruct (Qle_bool interval (gravityTimer s) && is_some (active s)); [|eauto].
    set (s1 := set_gravityTimer (number_sub (gravityTimer s) interval) s).
    pose proof (tryMove_active 0 1 s1) as Hmove.
    assert (Ha1 : active s1 = active s) by reflexivity.
    assert (Hb1 : board s1 = board s) by reflexivity.
    rewrite Ha1, Hb1 in Hmove.
    destruct (active s) as [a|] eqn:Ha.
    2:{ rewrite Hmove. simpl. eauto. }
    destruct (Hact a eq_refl) as [Hocc Hfuel].
    destruct (collides (board s) (p_type a) (p_x a + 0) (p_y a + 1) (p_rotation a)) eqn:Hc;
      destruct Hmove as [-> Hnew]; [eauto|].
    apply IH. intros a' Ha'.
    assert (Ha'' : a' = mkPiece (p_type a) (p_rotation a) (p_x a + 0) (p_y a + 1)).
    { destruct (softDropActive (snd (tryMove 0 1 s1))); fields in Ha'; congruence. }
    subst a'. simpl. split; [exact Hocc|].
    destruct (Z_lt_le_dec (p_y a + 1) TOTAL_ROWS) as [Hlt|Hge]; [lia|].
    rewrite collides_below in Hc by (auto; lia). discriminate.
Qed.

Lemma fuelFor_lock (fuel : nat) (s : State) :
  (fuelFor s <= fuel)%nat -> (2 * Z.to_nat TOTAL_ROWS <= fuel)%nat /\ (1 <= fuel)%nat.
Proof. unfold fuelFor. lia. Qed.

Lemma update_returns (fuel : nat) (delta : Q) (s : State) :
  Invariant s -> (fuelFor s <= fuel)%nat -> exists s', update fuel delta s = Some s'.
Proof.
  intros Hinv Hfuel. unfold update.
  destruct (negb (is_playing (state s)) || negb (is_some (active s))); [eauto|].
  set (interval := if softDropActive s then SOFT_DROP_INTERVAL else gravityInterval s).
  set (s1 := set_gravityTimer (number_add (gravityTimer s) delta) s).
  assert (Hinv1 : Invariant s1) by (eapply Invariant_same; [..|exact Hinv]; reflexivity).
  destruct (gravityLoop_returns interval fuel s1) as [s2 Hs2].
  { intros a Ha. change (active s1) with (active s) in Ha. split.
    - apply catalog. destruct Hinv as [Hs _]. now apply (sane_rotation s Hs).
    - unfold fuelFor in Hfuel. rewrite Ha in Hfuel. lia. }
  rewrite Hs2. cbn [mbind option_bind].
  destruct (gravityLoop_Invariant _ _ _ _ Hinv1 Hs2) as (Hinv2 & _).
  destruct (grounded s2 && is_some (active s2)); [|eauto].
  destruct (Qle_bool LOCK_DELAY_MS _); [|eauto].
  apply lockPiece_returns; [apply Hinv2 | apply (fuelFor_lock fuel s Hfuel)].
Qed.

Lemma hardDrop_returns (fuel : nat) (s : State) :
  Invariant s -> (fuelFor s <= fuel)%nat -> exists s', hardDrop fuel s = Some s'.
Proof.
  intros Hinv Hfuel. unfold hardDrop.
  destruct (negb (is_playing (state s))); [eauto|].
  destruct (active s) as [a|] eqn:Ha; [|eauto].
  unfold getDropDistance. rewrite Ha.
  destruct (dropLoop_returns (board s) a fuel) with (distance := 0) as [d ->].
  { apply catalog. destruct Hinv as [Hs _]. now apply (sane_rotation s Hs). }
  { unfold fuelFor in Hfuel. rewrite Ha in Hfuel. lia. }
  cbn [mbind option_bind].
  destruct (d <=? 0); [eauto|].
  apply lockPiece_returns; [apply Hinv | apply (fuelFor_lock fuel s Hfuel)].
Qed.

Lemma hold_returns (fuel : nat) (s : State) :
  (1 <= fuel)%nat -> exists s', hold fuel s = Some s'.
Proof.
  intros Hfuel. unfold hold.
  destruct (negb (is_playing (state s)) || negb (canHold s)); [eauto|].
  destruct (active s) as [a|]; [|eauto].
  destruct (holdPiece s) as [t|].
  - cbn zeta. destruct (collides _ _ _ _ _); eauto.
  - now apply spawnNextPiece_returns.
Qed.

(** With the fuel of [fuelFor], or more, every command returns. *)
Lemma exec_returns (fuel : nat) (c : Command) (s : State) :
  Invariant s -> (fuelFor s <= fuel)%nat -> exists s', exec fuel c s = Some s'.
Proof.
  intros Hinv Hfuel. destruct c; simpl; eauto.
  - apply reset_returns. apply (fuelFor_lock fuel s Hfuel).
  - now apply update_returns.
  - now apply hardDrop_returns.
  - apply hold_returns. apply (fuelFor_lock fuel s Hfuel).
Qed.

Lemma newGame_returns (fuel : nat) :
  (1 <= fuel)%nat -> exists s, newGame fuel = Some s.
Proof. intros H. now apply reset_returns. Qed.

End Returns.

(** C9. For every random source with values in [0, 1): [shuffle] returns a
    rearrangement of its argument; [refillLoop] appends whole bags, each a
    rearrangement of the seven piece types and each at a moment when fewer
    than 7 pieces were queued; and of the pieces handed out by any number
    of spawns after a reset, each group of seven counted from the start is
    a rearrangement of the seven piece types.  The engine touches its queue
    in no other way: [reset] starts from the empty queue and hands out one
    piece, every other command hands out one piece or leaves the queue as
    it is. *)
Theorem bag_randomizer_groups_of_seven :
  (forall n : nat, (0 <= Math_random n)%Q /\ (Math_random n < 1)%Q) ->
  Permutation PIECE_TYPES allPieceTypes ->
  (forall (values : list PieceType) (calls : nat),
     Permutation (fst (shuffle values calls)) values) /\
  (forall (fuel : nat) (q : list PieceType) (calls : nat) (r : list PieceType * nat),
     refillLoop fuel q calls = Some r ->
     exists bags : list (list PieceType),
       fst r = q ++ concat bags /\
       Forall (fun bag => Permutation bag allPieceTypes) bags /\
       (forall k : nat, (k < length bags)%nat ->
          (length (q ++ concat (take k bags)) < 7)%nat)) /\
  (forall (fuel n calls : nat),
     (1 <= fuel)%nat ->
     exists (ts : list PieceType) (st : list PieceType * nat),
       dequeueMany fuel n ([], calls) = Some (ts, st) /\
       length ts = n /\
       forall k : nat, (7 * (k + 1) <= n)%nat ->
         Permutation (take 7 (drop (7 * k) ts)) allPieceTypes) /\
  (forall (s s' : State) (c : Command) (fuel : nat),
     reachable s -> exec fuel c s = Some s' ->
     (c = CReset ->
        exists t, dequeue fuel ([], randomCalls s) = Some (t, queueOf s')) /\
     (c <> CReset -> queue_step fuel (queueOf s) (queueOf s'))).
Proof.
  intros _ Htypes.
  assert (H7 : length PIECE_TYPES = 7%nat)
    by (rewrite (Permutation_length Htypes); reflexivity).
  split; [intros; apply shuffle_Permutation|]. split; [|split].
  - intros fuel q calls r Hr.
    destruct (refillLoop_bags _ _ _ _ Hr) as (bags & Hq & Hperm & Hlt & _).
    exists bags. repeat split; auto.
    eapply Forall_impl; [exact Hperm|]. intros bag Hb. simpl in Hb.
    now rewrite Hb.
  - intros fuel n calls Hfuel.
    destruct (dequeueMany_returns fuel n H7 Hfuel ([], calls)) as [[ts st] Hrun].
    exists ts, st. split; [exact Hrun|].
    assert (Hstart : bagsInv [] []) by (exists []; split; [reflexivity | constructor]).
    destruct (dequeueMany_bagsInv _ _ _ _ _ _ _ Hrun Hstart) as [[bags [Hcat Hperm]] Hlen].
    split; [exact Hlen|]. intros k Hk. simpl in Hcat.
    assert (Hlens : Forall (fun bag => length bag = 7%nat) bags).
    { eapply Forall_impl; [exact Hperm|]. intros bag Hb. simpl in Hb.
      now rewrite (Permutation_length Hb). }
    assert (Htotal : length (concat bags) = (7 * length bags)%nat).
    { clear -Hlens. induction Hlens as [|b bags Hb _ IH]; simpl; [reflexivity|].
      rewrite length_app, IH, Hb. lia. }
    assert (Hkb : (k < length bags)%nat).
    { rewrite <- Hcat, length_app in Htotal. lia. }
    destruct (chunk_of_bags bags Hlens k Hkb) as [bag [Hl Ht]].
    rewrite <- (chunk_of_prefix ts (fst st) k) by lia.
    rewrite Hcat, Ht.
    rewrite Forall_lookup in Hperm. rewrite (Hperm k bag Hl). exact Htypes.
  - intros s s' c fuel Hr Hrun. split.
    + intros ->. simpl in Hrun. now apply reset_Invariant in Hrun.
    + intros Hc. apply (exec_step fuel c s s' Hc (reachable_Invariant s Hr) Hrun).
Qed.

(** ** Phase and score properties *)

(** C10. After the constructor and after every command the active piece is
    null exactly when the phase is over; the constructor and every command
    return. *)
Theorem active_null_iff_over :
  catalog_ok ->
  (forall fuel : nat, (1 <= fuel)%nat ->
     exists s, newGame fuel = Some s /\ (active s = None <-> state s = over)) /\
  (forall s : State, reachable s -> (active s = None <-> state s = over)) /\
  (forall (s : State) (c : Command) (fuel : nat),
     reachable s -> (fuelFor s <= fuel)%nat ->
     exists s', exec fuel c s = Some s' /\ (active s' = None <-> state s' = over)).
Proof.
  intros Hcat. split; [|split].
  - intros fuel Hfuel. destruct (newGame_returns Hcat fuel Hfuel) as [s Hs].
    exists s. split; [exact Hs|].
    apply (reachable_Invariant s (reach_new fuel s Hs)).
  - intros s Hr. apply (reachable_Invariant s Hr).
  - intros s c fuel Hr Hfuel.
    destruct (exec_returns Hcat fuel c s (reachable_Invariant s Hr) Hfuel) as [s' Hs'].
    exists s'. split; [exact Hs'|].
    apply (reachable_Invariant s' (reach_exec fuel c s s' Hr Hs')).
Qed.

(** C7, amended. From a state of a game, no command other than [reset]
    lowers the score; [reset] sets it to 0; the score is never negative. *)
Theorem score_never_decreases_except_reset (s : State) :
  reachable s ->
  0 <= score s /\
  (forall (c : Command) (fuel : nat) (s' : State),
     c <> CReset -> exec fuel c s = Some s' -> score s <= score s') /\
  (forall (fuel : nat) (s' : State),
     exec fuel CReset s = Some s' -> score s' = 0).
Proof.
  intros Hr. pose proof (reachable_Invariant s Hr) as Hinv.
  split; [apply Hinv|]. split.
  - intros c fuel s' Hc H. now apply (exec_step fuel c s s' Hc Hinv H).
  - intros fuel s' H. simpl in H. now apply reset_Invariant in H.
Qed.

Lemma setSoftDrop_softDropSet (on : bool) (s : State) :
  setSoftDrop on s = softDropSet on s.
Proof.
  unfold setSoftDrop, softDropSet. destruct s. simpl.
  destruct softDropActive0, on; reflexivity.
Qed.

(** C3, amended. In the over phase update, move, rotate, hardDrop,
    tapSoftDrop, hold and togglePause change nothing at all; setSoftDrop
    changes at most the soft-drop flag and the gravity timer; no command
    other than reset leaves the over phase. *)
Theorem over_is_terminal (s : State) :
  state s = over ->
  (forall (c : Command) (fuel : nat),
     c <> CReset -> (forall on, c <> CSetSoftDrop on) -> exec fuel c s = Some s) /\
  (forall (on : bool) (fuel : nat),
     exec fuel (CSetSoftDrop on) s = Some (softDropSet on s)) /\
  (forall (c : Command) (fuel : nat) (s' : State),
     c <> CReset -> exec fuel c s = Some s' -> state s' = over).
Proof.
  intros Hover.
  assert (Hquiet : forall (c : Command) (fuel : nat),
            c <> CReset -> (forall on, c <> CSetSoftDrop on) -> exec fuel c s = Some s).
  { intros c fuel Hc Hsoft.
    destruct c as [|delta|direction|clockwise| | |on| |]; simpl;
      [congruence | | | | | | exfalso; now apply (Hsoft on) | |].
    - unfold update. now rewrite Hover.
    - unfold move. now rewrite Hover.
    - unfold rotate. now rewrite Hover.
    - unfold hardDrop. now rewrite Hover.
    - unfold tapSoftDrop. now rewrite Hover.
    - unfold hold. now rewrite Hover.
    - unfold togglePause. now rewrite Hover. }
  split; [exact Hquiet|]. split.
  - intros on fuel. simpl. now rewrite setSoftDrop_softDropSet.
  - intros c fuel s' Hc H.
    assert (Hcases : (exists on, c = CSetSoftDrop on) \/ (forall on, c <> CSetSoftDrop on))
      by (destruct c as [|delta|direction|clockwise| | |on| |];
          try (right; discriminate); left; eauto).
    destruct Hcases as [[on ->] | Hsoft].
    + simpl in H. injection H as <-. rewrite setSoftDrop_softDropSet. exact Hover.
    + rewrite (Hquiet c fuel Hc Hsoft) in H. injection H as <-. exact Hover.
Qed.

(** ** Hard drop *)

Lemma dropLoop_spec (b : list (list BoardCell)) (a : ActivePiece) (fuel : nat) :
  forall distance d : Z,
    dropLoop fuel b a distance = Some d ->
    distance <= d /\
    (forall i : Z, distance < i <= d ->
       collides b (p_type a) (p_x a) (p_y a + i) (p_rotation a) = false) /\
    collides b (p_type a) (p_x a) (p_y a + d + 1) (p_rotation a) = true.
Proof.
  induction fuel as [|fuel IH]; intros distance d H; simpl in H.
  - destruct (collides b (p_type a) (p_x a) (p_y a + distance + 1) (p_rotation a)) eqn:Hc;
      simpl in H; [|discriminate].
    injection H as <-. split; [lia|]. split; [intros i Hi; lia | exact Hc].
  - destruct (collides b (p_type a) (p_x a) (p_y a + distance + 1) (p_rotation a)) eqn:Hc;
      simpl in H.
    + injection H as <-. split; [lia|]. split; [intros i Hi; lia | exact Hc].
    + destruct (IH _ _ H) as (Hle & Hfree & Hstop).
      split; [lia|]. split; [|exact Hstop].
      intros i Hi. destruct (Z.eq_dec i (distance + 1)) as [-> | Hne].
      * now rewrite Z.add_assoc.
      * apply Hfree. lia.
Qed.

(** [hardDrop] in the playing phase with an active piece: the distance [d]
    is the length of the free straight run below the piece. *)
Lemma hardDrop_spec (fuel : nat) (s s' : State) (a : ActivePiece) :
  state s = playing -> active s = Some a ->
  hardDrop fuel s = Some s' ->
  exists d : Z,
    getDropDistance fuel s = Some d /\
    0 <= d /\
    (forall i : Z, 1 <= i <= d ->
       collides (board s) (p_type a) (p_x a) (p_y a + i) (p_rotation a) = false) /\
    collides (board s) (p_type a) (p_x a) (p_y a + d + 1) (p_rotation a) = true /\
    (d = 0 -> s' = s) /\
    (0 < d -> lockPiece fuel (dropped d a s) = Some s').
Proof.
  intros Hplay Ha H. unfold hardDrop in H. rewrite Hplay, Ha in H. simpl negb in H.
  cbn iota in H. unfold getDropDistance in *. rewrite Ha in *.
  destruct (dropLoop fuel (board s) a 0) as [d|] eqn:Hd; cbn [mbind option_bind] in H;
    [|discriminate].
  destruct (dropLoop_spec _ _ _ _ _ Hd) as (Hle & Hfree & Hstop).
  exists d. split; [reflexivity|]. split; [exact Hle|].
  split; [intros i Hi; apply Hfree; lia|]. split; [exact Hstop|].
  destruct (d <=? 0) eqn:Hz.
  - apply Z.leb_le in Hz. split; [intros _; congruence | intros; lia].
  - apply Z.leb_gt in Hz. split; [intros; lia | intros _; exact H].
Qed.

(** ** Gravity and lock delay *)

Lemma piece_eta (a : ActivePiece) :
  mkPiece (p_type a) (p_rotation a) (p_x a) (p_y a + Z.of_nat 0) = a.
Proof. destruct a. simpl. now rewrite Z.add_0_r. Qed.

Lemma gravityLoop_spec (interval : Q) (fuel : nat) :
  forall (s s2 : State) (a : ActivePiece),
    active s = Some a ->
    gravityLoop fuel interval s = Some s2 ->
    exists (k : nat) (failed : bool), gravityOutcome interval s a k failed s2.
Proof.
  induction fuel as [|fuel IH]; intros s s2 a Ha H; simpl in H; rewrite Ha in H;
    simpl is_some in H; rewrite andb_true_r in H.
  - destruct (Qle_bool interval (gravityTimer s)) eqn:Hq; [discriminate|].
    injection H as <-. exists O, false. unfold gravityOutcome. cbn zeta.
    cbn [Nat.add drained Nat.eqb]. rewrite piece_eta.
    assert (Hlt : (gravityTimer s < interval)%Q).
    { apply Qnot_le_lt. intros Hle. apply Qle_bool_iff in Hle. congruence. }
    repeat split; try reflexivity; try exact Ha.
    + intros i Hi. simpl in Hi. lia.
    + discriminate.
    + intros j Hj. lia.
    + intros _. exact Hlt.
    + destruct (softDropActive s); lia.
  - destruct (Qle_bool interval (gravityTimer s)) eqn:Hq.
    2:{ injection H as <-. exists O, false. unfold gravityOutcome. cbn zeta.
        cbn [Nat.add drained Nat.eqb]. rewrite piece_eta.
        assert (Hlt : (gravityTimer s < interval)%Q).
        { apply Qnot_le_lt. intros Hle. apply Qle_bool_iff in Hle. congruence. }
        repeat split; try reflexivity; try exact Ha.
        + intros i Hi. simpl in Hi. lia.
        + discriminate.
        + intros j Hj. lia.
        + intros _. exact Hlt.
        + destruct (softDropActive s); lia. }
    apply Qle_bool_iff in Hq.
    set (s1 := set_gravityTimer (number_sub (gravityTimer s) interval) s) in *.
    pose proof (tryMove_active 0 1 s1) as Hmove.
    destruct (tryMove_frame 0 1 s1)
      as (F1 & F2 & F3 & F4 & F5 & F6 & F7 & F8 & F9 & F10 & F11 & F12 & F13 & F14).
    cbn zeta in *.
    change (active s1) with (active s) in Hmove. rewrite Ha in Hmove.
    change (board s1) with (board s) in Hmove.
    rewrite Z.add_0_r in Hmove.
    destruct (collides (board s) (p_type a) (p_x a) (p_y a + 1) (p_rotation a)) eqn:Hc;
      destruct Hmove as [Hfst Hact]; rewrite Hfst in H.
    + (* the step fails *)
      injection H as <-. exists O, true. unfold gravityOutcome. cbn zeta.
      cbn [Nat.add drained Nat.eqb]. fields.
      rewrite F1, F2, F3, F4, F5, F6, F7, F8, F9, F10, F11, F12, F13, F14, Hact.
      subst s1. fields. rewrite piece_eta.
      assert (Hlock : lockTimer (snd (tryMove 0 1
                 (set_gravityTimer (number_sub (gravityTimer s) interval) s))) = lockTimer s).
      { unfold tryMove. fields. rewrite Ha, Z.add_0_r, Hc. reflexivity. }
      rewrite Hlock.
      repeat split; try reflexivity.
      * intros i Hi. simpl in Hi. lia.
      * intros _. now rewrite Z.add_0_r.
      * intros j Hj. assert (j = O) as -> by lia. exact Hq.
      * discriminate.
      * destruct (softDropActive s); lia.
    + (* the step succeeds *)
      set (s2' := snd (tryMove 0 1 s1)) in *.
      set (s3 := if softDropActive s2' then set_score (score s2' + 1) s2' else s2') in *.
      set (a1 := mkPiece (p_type a) (p_rotation a) (p_x a) (p_y a + 1)) in *.
      assert (Hlock3 : lockTimer s2' = 0%Q /\
                grounded s2' = collides (board s) (p_type a) (p_x a) (p_y a + 1 + 1)
                                 (p_rotation a)).
      { subst s2' s1. unfold tryMove. fields. rewrite Ha, Z.add_0_r, Hc. fields.
        split; [reflexivity|]. unfold checkGrounded. fields. reflexivity. }
      destruct Hlock3 as [Hlock3 Hgr3].
      assert (H3 : active s3 = Some a1 /\ board s3 = board s /\
                   gravityTimer s3 = (number_sub (gravityTimer s) interval) /\
                   score s3 = score s + (if softDropActive s then 1 else 0) /\
                   lockTimer s3 = 0%Q /\ grounded s3 = grounded s2' /\
                   queue s3 = queue s /\ holdPiece s3 = holdPiece s /\
                   canHold s3 = canHold s /\ gravityInterval s3 = gravityInterval s /\
                   softDropActive s3 = softDropActive s /\ state s3 = state s /\
                   level s3 = level s /\ lines s3 = lines s /\ combo s3 = combo s /\
                   backToBack s3 = backToBack s /\ randomCalls s3 = randomCalls s).
      { subst s3. rewrite F7. change (softDropActive s1) with (softDropActive s).
        destruct (softDropActive s) eqn:Esd; fields;
          rewrite ?F1, ?F2, ?F3, ?F4, ?F5, ?F6, ?F7, ?F8, ?F9, ?F10, ?F11, ?F12, ?F13, ?F14;
          subst s1; fields; repeat split; auto; lia. }
      destruct H3 as (G1 & G2 & G3 & G4 & G5 & G6 & G7 & G8 & G9 & G10 & G11 & G12 &
                      G13 & G14 & G15 & G16 & G17).
      destruct (IH s3 s2 a1 G1 H) as (k & failed & Hout).
      exists (S k), failed. unfold gravityOutcome in *. cbn zeta in *.
      destruct Hout as (O1 & O2 & O3 & O4 & O5 & O6 & O7 & O8 & O9 & O10 & O11 & O12 &
                        O13 & O14 & O15 & O16 & O17 & O18 & O19 & O20 & O21).
      subst a1. fields in O1. fields in O2. fields in O6. fields in O8.
      rewrite G2 in *. rewrite G3 in *.
      replace (S k + (if failed then 1 else 0))%nat
        with (S (k + (if failed then 1 else 0)))%nat by lia.
      cbn [drained Nat.eqb].
      replace (p_y a + Z.of_nat (S k)) with (p_y a + 1 + Z.of_nat k) by lia.
      split; [|split; [|split; [|split; [|split; [|split; [|split; [|split]]]]]]].
      * intros i Hi. destruct (Z.eq_dec i 1) as [-> | Hne]; [exact Hc|].
        replace (p_y a + i) with (p_y a + 1 + (i - 1)) by lia. apply O1. lia.
      * exact O2.
      * intros [|j] Hj; [exact Hq|].
        cbn [drained]. apply O3. lia.
      * exact O4.
      * exact O5.
      * exact O6.
      * rewrite O7, G4, G11. destruct (softDropActive s); lia.
      * rewrite O8. destruct failed; [reflexivity|].
        destruct k as [|k]; [|reflexivity].
        cbn [Nat.eqb]. rewrite G6, Hgr3. now rewrite Z.add_0_r.
      * rewrite O9, G5. split; [destruct k; reflexivity|].
        repeat split; congruence.
Qed.

Lemma update_unfold (fuel : nat) (delta : Q) (s : State) (a : ActivePiece) :
  state s = playing -> active s = Some a ->
  update fuel delta s =
  (s2 ← gravityLoop fuel
          (if softDropActive s then SOFT_DROP_INTERVAL else gravityInterval s)
          (set_gravityTimer (number_add (gravityTimer s) delta) s);
   lockDelayPhase fuel delta s2).
Proof. intros Hst Ha. unfold update. now rewrite Hst, Ha. Qed.

(** C4, amended. [update] in the playing phase with an active piece adds
    [delta] to the gravity timer and runs the gravity loop: [k] successful
    one-row steps, each made while the timer is at least the interval and
    each taking the interval off the timer (and giving 1 point under soft
    drop), possibly ended by a failed step, which takes the interval off the
    timer as well and marks the piece grounded.  Then, if the piece is
    grounded, [delta] is added to the lock timer and the piece locks once
    that timer has reached LOCK_DELAY_MS.  The sums and the differences are
    those of the source, whatever their rounding: the timer after [n]
    rounds is [drained n], the interval subtracted [n] times in a row. *)
Theorem update_gravity_then_lock_delay (fuel : nat) (delta : Q) (s : State)
  (a : ActivePiece) :
  catalog_ok -> Invariant s ->
  state s = playing -> active s = Some a ->
  (fuelFor s <= fuel)%nat ->
  let interval := if softDropActive s then SOFT_DROP_INTERVAL else gravityInterval s in
  let s1 := set_gravityTimer (number_add (gravityTimer s) delta) s in
  exists (s' : State) (k : nat) (failed : bool) (s2 : State),
    update fuel delta s = Some s' /\
    gravityOutcome interval s1 a k failed s2 /\
    (grounded s2 = false -> s' = s2) /\
    (grounded s2 = true ->
     let s3 := set_lockTimer (number_add (lockTimer s2) delta) s2 in
     ((number_add (lockTimer s2) delta < LOCK_DELAY_MS)%Q -> s' = s3) /\
     ((LOCK_DELAY_MS <= number_add (lockTimer s2) delta)%Q -> lockPiece fuel s3 = Some s')).
Proof.
  intros Hcat Hinv Hst Ha Hfuel interval s1.
  destruct (update_returns Hcat fuel delta s Hinv Hfuel) as [s' Hs'].
  pose proof Hs' as Hrun.
  rewrite (update_unfold fuel delta s a Hst Ha) in Hrun.
  fold interval s1 in Hrun.
  destruct (gravityLoop fuel interval s1) as [s2|] eqn:Hloop;
    cbn [mbind option_bind] in Hrun; [|discriminate].
  destruct (gravityLoop_spec interval fuel s1 s2 a Ha Hloop) as (k & failed & Hout).
  exists s', k, failed, s2. split; [exact Hs'|]. split; [exact Hout|].
  assert (Hact2 : is_some (active s2) = true).
  { destruct Hout as (_ & _ & _ & _ & _ & -> & _). reflexivity. }
  unfold lockDelayPhase in Hrun. rewrite Hact2, andb_true_r in Hrun.
  split.
  - intros Hg. rewrite Hg in Hrun. congruence.
  - intros Hg. rewrite Hg in Hrun. cbn zeta in *. fields in Hrun. split.
    + intros Hlt.
      destruct (Qle_bool LOCK_DELAY_MS (number_add (lockTimer s2) delta)) eqn:Hq;
        [|congruence].
      apply Qle_bool_iff in Hq. lra.
    + intros Hle. apply Qle_bool_iff in Hle. now rewrite Hle in Hrun.
Qed.

(** ** Hold *)

(** [hold] with an empty slot: the type of the active piece is stored and
    the next piece is spawned, which enables hold again. *)
Lemma hold_empty_slot (fuel : nat) (s s1 : State) (a : ActivePiece) :
  state s = playing -> active s = Some a -> canHold s = true -> holdPiece s = None ->
  hold fuel s = Some s1 ->
  holdPiece s1 = Some (p_type a) /\ canHold s1 = true /\
  exists t : PieceType,
    dequeue fuel (queueOf s) = Some (t, queueOf s1) /\
    if collides (board s) t (fst (SPAWN_POSITIONS t)) (snd (SPAWN_POSITIONS t)) 0
    then active s1 = None /\ state s1 = over
    else active s1 = Some (createPiece t) /\ state s1 = playing.
Proof.
  intros Hst Ha Hcan Hh H. unfold hold in H.
  rewrite Hst, Ha, Hcan, Hh in H. simpl in H.
  destruct (spawnNextPiece_spec _ _ _ H)
    as (t & Hdq & Hb & Hhold & _ & _ & _ & _ & _ & _ & _ & _ & _ & Hcan' & Hact).
  fields in Hhold. split; [exact Hhold|]. split; [exact Hcan'|].
  exists t. split; [exact Hdq|].
  cbn zeta in Hact. cbn [createPiece p_type p_x p_y p_rotation] in Hact.
  fields in Hact.
  destruct (collides _ _ _ _ _); [exact Hact|].
  destruct Hact as (H1 & H2 & _). split; [exact H1|]. now rewrite H2.
Qed.

(** [hold] with hold enabled and a stored type swaps the two pieces. *)
Lemma hold_swap (fuel : nat) (s s2 : State) (b : ActivePiece) (t0 : PieceType) :
  state s = playing -> active s = Some b -> canHold s = true ->
  holdPiece s = Some t0 ->
  hold fuel s = Some s2 ->
  holdPiece s2 = Some (p_type b) /\ canHold s2 = false /\
  if collides (board s) t0 (fst (SPAWN_POSITIONS t0)) (snd (SPAWN_POSITIONS t0)) 0
  then active s2 = None /\ state s2 = over
  else active s2 = Some (createPiece t0) /\ state s2 = playing.
Proof.
  intros Hst Ha Hcan Hh H. unfold hold in H.
  rewrite Hst, Ha, Hcan, Hh in H. simpl in H.
  destruct (collides _ _ _ _ _); injection H as <-; fields; auto.
Qed.

(** ** Runs of commands *)

Lemma run_reachable (fuel : nat) (cs : list Command) :
  forall s s' : State, reachable s -> run fuel cs s = Some s' -> reachable s'.
Proof.
  induction cs as [|c cs IH]; intros s s' Hr H; simpl in H.
  - now injection H as <-.
  - destruct (exec fuel c s) as [s1|] eqn:Hc; cbn [mbind option_bind] in H; [|discriminate].
    eapply IH; [|exact H]. eapply reach_exec; eauto.
Qed.

Lemma play_reachable (fuel : nat) (cs : list Command) (s : State) :
  play fuel cs = Some s -> reachable s.
Proof.
  unfold play. intros H.
  destruct (newGame fuel) as [s0|] eqn:H0; cbn [mbind option_bind] in H; [|discriminate].
  eapply run_reachable; [|exact H]. eapply reach_new; eauto.
Qed.

(** [hardDrop] in the playing phase with an active piece returns; its
    distance [d] is the length of the free straight run below the piece:
    the translations by 1..d rows do not collide and the one by d + 1 rows
    does.  With d = 0 nothing changes; otherwise the piece moves down d
    rows, the score grows by 2 * d and the piece is locked in the same
    call. *)
Lemma hardDrop_straight_run (fuel : nat) (s : State) (a : ActivePiece) :
  catalog_ok -> Invariant s ->
  state s = playing -> active s = Some a ->
  (fuelFor s <= fuel)%nat ->
  exists (d : Z) (s' : State),
    hardDrop fuel s = Some s' /\
    getDropDistance fuel s = Some d /\
    0 <= d /\
    (forall i : Z, 1 <= i <= d ->
       collides (board s) (p_type a) (p_x a) (p_y a + i) (p_rotation a) = false) /\
    collides (board s) (p_type a) (p_x a) (p_y a + d + 1) (p_rotation a) = true /\
    (d = 0 -> s' = s) /\
    (0 < d ->
       lockPiece fuel (dropped d a s) = Some s' /\
       active (dropped d a s) =
         Some (mkPiece (p_type a) (p_rotation a) (p_x a) (p_y a + d)) /\
       score (dropped d a s) = score s + 2 * d /\
       score s + 2 * d <= score s').
Proof.
  intros Hcat Hinv Hst Ha Hfuel.
  destruct (hardDrop_returns Hcat fuel s Hinv Hfuel) as [s' Hs'].
  destruct (hardDrop_spec fuel s s' a Hst Ha Hs') as (d & Hd & H0 & Hfree & Hstop & Hz & Hp).
  exists d, s'. repeat (split; [assumption|]).
  intros Hpos. specialize (Hp Hpos). split; [exact Hp|]. split; [reflexivity|].
  assert (Hsc : score (dropped d a s) = score s + 2 * d)
    by (unfold dropped; fields; lia).
  split; [exact Hsc|].
  assert (Hinv2 : Invariant (dropped d a s)).
  { destruct Hinv as [Hs Hact]. unfold dropped. split.
    - apply Sane_score; [fields; destruct Hs; lia|].
      apply Sane_active; [|exact Hs]. intros a' [= <-]. simpl.
      now apply (sane_rotation s Hs).
    - fields. rewrite <- Hact, Ha. split; discriminate. }
  destruct (lockPiece_Invariant fuel _ s' Hinv2 Hst Hp) as (_ & Hle & _).
  lia.
Qed.

(** * Further properties of the engine *)

(** ** The cells of a piece *)

Lemma cellsCols_spec (t : PieceType) (baseX y : Z) (cells : list bool) (c : Cell) :
  forall col,
    In c (cellsCols t baseX y col cells) <->
    exists k : nat, cells !! k = Some true /\ c = mkCell (baseX + col + Z.of_nat k) y t.
Proof.
  induction cells as [|b rest IH]; intros col; simpl.
  - split; [tauto | intros [k [Hk _]]; destruct k; discriminate].
  - destruct b; simpl.
    + rewrite IH. split.
      * intros [<- | [k [Hk ->]]].
        -- exists 0%nat. split; [reflexivity|]. f_equal. lia.
        -- exists (S k). split; [exact Hk|]. f_equal. lia.
      * intros [[|k] [Hk ->]].
        -- left. f_equal. lia.
        -- right. exists k. split; [exact Hk|]. f_equal. lia.
    + rewrite IH. split.
      * intros [k [Hk ->]]. exists (S k). split; [exact Hk|]. f_equal. lia.
      * intros [[|k] [Hk ->]]; [discriminate|].
        exists k. split; [exact Hk|]. f_equal. lia.
Qed.

Lemma cellsRows_spec (t : PieceType) (baseX baseY : Z) (m : list (list bool)) (c : Cell) :
  forall row,
    In c (cellsRows t baseX baseY row m) <->
    exists i k : nat,
      matrixCell m i k = true /\
      c = mkCell (baseX + Z.of_nat k) (baseY + row + Z.of_nat i) t.
Proof.
  induction m as [|cells rest IH]; intros row; simpl.
  - split; [tauto | intros [i [k [H _]]]; now destruct i].
  - rewrite in_app_iff, IH, cellsCols_spec. split.
    + intros [[k [Hk ->]] | [i [k [Hm ->]]]].
      * exists 0%nat, k. split; [apply matrixCell_true; eauto|]. f_equal; lia.
      * exists (S i), k. split; [exact Hm|]. f_equal; lia.
    + intros [[|i] [k [Hm ->]]].
      * left. apply matrixCell_true in Hm. destruct Hm as [cells' [[= <-] Hk]].
        exists k. split; [exact Hk|]. f_equal; lia.
      * right. exists i, k. split; [exact Hm|]. f_equal; lia.
Qed.

Lemma getCellsFor_covers (t : PieceType) (rotation x y : Z) (c : Cell) :
  In c (getCellsFor t rotation x y) <->
  c_type c = t /\ covers (getMatrix t rotation) x y (c_x c) (c_y c).
Proof.
  unfold getCellsFor, covers. rewrite cellsRows_spec. split.
  - intros [i [k [Hm ->]]]. simpl. split; [reflexivity|].
    exists i, k. repeat split; [exact Hm | lia].
  - intros [Ht [i [k [Hm [Hx Hy]]]]]. exists i, k. split; [exact Hm|].
    destruct c as [cx cy ct]. simpl in *. subst. f_equal. lia.
Qed.

Lemma collides_covers (b : list (list BoardCell)) (t : PieceType) (x y rotation : Z) :
  collides b t x y rotation = true <->
  exists X Y, covers (getMatrix t rotation) x y X Y /\ blocked b X Y.
Proof.
  unfold collides. rewrite collidesRows_spec. unfold covers. split.
  - intros [i [k [Hm Hb]]]. exists (x + Z.of_nat k), (y + Z.of_nat i).
    split; [eauto|]. now rewrite Z.add_0_r in Hb.
  - intros [X [Y [[i [k [Hm [-> ->]]]] Hb]]]. exists i, k. split; [exact Hm|].
    now rewrite Z.add_0_r.
Qed.

Lemma cellsCols_shift (t : PieceType) (baseX y d : Z) (cells : list bool) :
  forall col,
    cellsCols t baseX (y + d) col cells = map (shiftDown d) (cellsCols t baseX y col cells).
Proof.
  induction cells as [|b rest IH]; intros col; simpl; [reflexivity|].
  destruct b; simpl; now rewrite IH.
Qed.

Lemma cellsRows_shift (t : PieceType) (baseX baseY d : Z) (m : list (list bool)) :
  forall row,
    cellsRows t baseX (baseY + d) row m =
    map (shiftDown d) (cellsRows t baseX baseY row m).
Proof.
  induction m as [|cells rest IH]; intros row; simpl; [reflexivity|].
  rewrite map_app, <- IH, <- cellsCols_shift. f_equal. f_equal. lia.
Qed.

(** X1. [collides] answers true exactly when one of the cells listed by
    [getCellsFor] for the same piece and position is blocked; every listed
    cell carries the type of the piece; and moving the anchor down by [d]
    rows moves every listed cell down by [d] rows, in the same order. *)
Theorem collides_iff_listed_cell_blocked (b : Board) (t : PieceType)
  (x y rotation d : Z) :
  (collides b t x y rotation = true <->
   exists c : Cell, In c (getCellsFor t rotation x y) /\ blocked b (c_x c) (c_y c)) /\
  (forall c : Cell, In c (getCellsFor t rotation x y) -> c_type c = t) /\
  getCellsFor t rotation x (y + d) = map (shiftDown d) (getCellsFor t rotation x y).
Proof.
  split; [|split].
  - rewrite collides_covers. split.
    + intros [X [Y [Hc Hb]]]. exists (mkCell X Y t). split; [|exact Hb].
      apply getCellsFor_covers. simpl. auto.
    + intros [c [Hin Hb]]. apply getCellsFor_covers in Hin.
      exists (c_x c), (c_y c). tauto.
  - intros c Hin. now apply getCellsFor_covers in Hin.
  - apply cellsRows_shift.
Qed.

(** ** Locking *)

Lemma coversb_covers (m : list (list bool)) (x y X Y : Z) :
  coversb m x y X Y = true <-> covers m x y X Y.
Proof.
  unfold coversb, covers. rewrite !andb_true_iff, !Z.leb_le. split.
  - intros [[Hy Hx] Hm]. exists (Z.to_nat (Y - y)), (Z.to_nat (X - x)).
    split; [exact Hm | lia].
  - intros [i [k [Hm [-> ->]]]]. split; [lia|].
    now replace (Z.to_nat (y + Z.of_nat i - y)) with i by lia;
      replace (Z.to_nat (x + Z.of_nat k - x)) with k by lia.
Qed.

Lemma cellAt_setCell_other (b : list (list BoardCell)) (y x Y X : Z) (v : BoardCell) :
  0 <= y -> 0 <= x -> 0 <= Y -> 0 <= X -> (Y <> y \/ X <> x) ->
  cellAt (setCell b y x v) Y X = cellAt b Y X.
Proof.
  intros Hy Hx HY HX Hne. unfold cellAt, setCell.
  destruct (b !! Z.to_nat y) as [r|] eqn:Hr; [|reflexivity].
  destruct (Z.eq_dec Y y) as [-> | HYy].
  - rewrite list_lookup_insert_eq by (eapply lookup_lt_Some; eauto).
    rewrite Hr. rewrite list_lookup_insert_ne by lia. reflexivity.
  - rewrite list_lookup_insert_ne by lia. reflexivity.
Qed.

(** One matrix row stamped at board row [boardY], from column [col] on. *)
Lemma stampCols_spec (t : PieceType) (x boardY : Z) (cells : list bool) :
  forall (col : Z) (acc : list (list BoardCell) * bool),
    board_ok (fst acc) -> 0 <= col ->
    let r := stampCols t x boardY col cells acc in
    (snd r = true <->
     snd acc = true \/ (boardY < 0 /\ exists k : nat, cells !! k = Some true)) /\
    (forall Y X : Z, 0 <= Y < TOTAL_ROWS -> 0 <= X < COLS ->
       cellAt (fst r) Y X =
       if (Y =? boardY) && (x + col <=? X) &&
          match cells !! Z.to_nat (X - (x + col)) with Some c => c | None => false end
       then Some t else cellAt (fst acc) Y X).
Proof.
  induction cells as [|c rest IH]; intros col acc Hok Hcol; cbn zeta.
  - simpl. split.
    + split; [auto|]. intros [H | [_ [k Hk]]]; [exact H | destruct k; discriminate].
    + intros Y X _ _. now rewrite andb_false_r.
  - assert (Hstep : forall X : Z, x + col <= X ->
              match (c :: rest) !! Z.to_nat (X - (x + col)) with
              | Some c0 => c0 | None => false end =
              if X =? x + col then c
              else match rest !! Z.to_nat (X - (x + (col + 1))) with
                   | Some c0 => c0 | None => false end).
    { intros X HX. destruct (X =? x + col) eqn:E.
      - apply Z.eqb_eq in E. subst X.
        now replace (Z.to_nat (x + col - (x + col))) with 0%nat by lia.
      - apply Z.eqb_neq in E.
        replace (Z.to_nat (X - (x + col))) with (S (Z.to_nat (X - (x + (col + 1)))))
          by lia.
        reflexivity. }
    assert (Hex : (exists k : nat, (c :: rest) !! k = Some true) <->
                  c = true \/ exists k : nat, rest !! k = Some true).
    { split.
      - intros [[|k] Hk]; [left; now injection Hk | right; eauto].
      - intros [-> | [k Hk]]; [exists 0%nat; reflexivity | exists (S k); exact Hk]. }
    simpl stampCols.
    destruct c; simpl negb; cbn iota.
    + destruct (boardY <? 0) eqn:Hneg.
      * apply Z.ltb_lt in Hneg.
        destruct (IH (col + 1) (fst acc, true) Hok ltac:(lia)) as [IHf IHc].
        cbn zeta in *. split.
        -- rewrite IHf, Hex. simpl. split; [intros _; right; split; auto | auto].
        -- intros Y X HY HX. rewrite (IHc Y X HY HX). simpl fst.
           destruct (Y =? boardY) eqn:EY; [apply Z.eqb_eq in EY; lia|]. reflexivity.
      * apply Z.ltb_ge in Hneg.
        destruct ((boardY >=? TOTAL_ROWS) || (x + col <? 0) || (x + col >=? COLS)) eqn:Hout.
        -- destruct (IH (col + 1) acc Hok ltac:(lia)) as [IHf IHc].
           cbn zeta in *. split.
           ++ rewrite IHf. split; [tauto|]. intros [H | [H _]]; [auto | lia].
           ++ intros Y X HY HX. rewrite (IHc Y X HY HX).
              destruct (Y =? boardY) eqn:EY; [|reflexivity]. apply Z.eqb_eq in EY. subst Y.
              simpl andb.
              destruct (x + col <=? X) eqn:E1.
              ** apply Z.leb_le in E1. rewrite (Hstep X E1).
                 destruct (X =? x + col) eqn:E2.
                 --- apply Z.eqb_eq in E2. subst X. exfalso.
                     rewrite !orb_true_iff, Z.geb_le, Z.ltb_lt, Z.geb_le in Hout.
                     unfold COLS, TOTAL_ROWS in *. lia.
                 --- apply Z.eqb_neq in E2.
                     replace (x + (col + 1) <=? X) with true
                       by (symmetry; apply Z.leb_le; lia).
                     reflexivity.
              ** apply Z.leb_gt in E1.
                 replace (x + (col + 1) <=? X) with false
                   by (symmetry; apply Z.leb_gt; lia).
                 reflexivity.
        -- rewrite !orb_false_iff, Z.geb_leb, Z.ltb_ge, Z.geb_leb, !Z.leb_gt in Hout.
           destruct Hout as [[Hrow Hx0] Hx1].
           assert (Hok' : board_ok (fst (setCell (fst acc) boardY (x + col) (Some t), snd acc)))
             by (simpl; now apply board_ok_setCell).
           destruct (IH (col + 1) _ Hok' ltac:(lia)) as [IHf IHc].
           cbn zeta in *. split.
           ++ rewrite IHf. simpl snd. split; [tauto|]. intros [H | [H _]]; [auto | lia].
           ++ intros Y X HY HX. rewrite (IHc Y X HY HX). simpl fst.
              destruct (Y =? boardY) eqn:EY.
              ** apply Z.eqb_eq in EY. subst Y. simpl andb.
                 destruct (x + col <=? X) eqn:E1.
                 --- apply Z.leb_le in E1. rewrite (Hstep X E1).
                     destruct (X =? x + col) eqn:E2.
                     +++ apply Z.eqb_eq in E2. subst X.
                         replace (x + (col + 1) <=? x + col) with false
                           by (symmetry; apply Z.leb_gt; lia).
                         simpl. apply cellAt_setCell; [exact Hok | lia | lia].
                     +++ apply Z.eqb_neq in E2.
                         replace (x + (col + 1) <=? X) with true
                           by (symmetry; apply Z.leb_le; lia).
                         simpl andb.
                         destruct (match rest !! Z.to_nat (X - (x + (col + 1))) with
                                   | Some c0 => c0 | None => false end); [reflexivity|].
                         apply cellAt_setCell_other; lia.
                 --- apply Z.leb_gt in E1.
                     replace (x + (col + 1) <=? X) with false
                       by (symmetry; apply Z.leb_gt; lia).
                     simpl. apply cellAt_setCell_other; lia.
              ** apply Z.eqb_neq in EY. simpl. apply cellAt_setCell_other; lia.
    + destruct (IH (col + 1) acc Hok ltac:(lia)) as [IHf IHc].
      cbn zeta in *. split.
      * rewrite IHf, Hex. split; [tauto|].
        intros [H | [Hb [H | H]]]; [auto | discriminate | auto].
      * intros Y X HY HX. rewrite (IHc Y X HY HX).
        destruct (Y =? boardY) eqn:EY; [|reflexivity]. simpl andb.
        destruct (x + col <=? X) eqn:E1.
        -- apply Z.leb_le in E1. rewrite (Hstep X E1).
           destruct (X =? x + col) eqn:E2.
           ++ apply Z.eqb_eq in E2. subst X.
              replace (x + (col + 1) <=? x + col) with false
                by (symmetry; apply Z.leb_gt; lia).
              reflexivity.
           ++ apply Z.eqb_neq in E2.
              replace (x + (col + 1) <=? X) with true
                by (symmetry; apply Z.leb_le; lia).
              reflexivity.
        -- apply Z.leb_gt in E1.
           replace (x + (col + 1) <=? X) with false
             by (symmetry; apply Z.leb_gt; lia).
           reflexivity.
Qed.

Lemma stampRows_cons (t : PieceType) (x y row : Z) (cells : list bool)
  (rest : list (list bool)) (acc : list (list BoardCell) * bool) :
  stampRows t x y row (cells :: rest) acc =
  stampRows t x y (row + 1) rest (stampCols t x (y + row) 0 cells acc).
Proof. reflexivity. Qed.

Lemma stampRows_spec (t : PieceType) (x y : Z) (m : list (list bool)) :
  forall (row : Z) (acc : list (list BoardCell) * bool),
    board_ok (fst acc) -> 0 <= row ->
    let r := stampRows t x y row m acc in
    (snd r = true <->
     snd acc = true \/
     exists i k : nat, matrixCell m i k = true /\ y + row + Z.of_nat i < 0) /\
    (forall Y X : Z, 0 <= Y < TOTAL_ROWS -> 0 <= X < COLS ->
       cellAt (fst r) Y X =
       if (y + row <=? Y) && (x <=? X) &&
          matrixCell m (Z.to_nat (Y - (y + row))) (Z.to_nat (X - x))
       then Some t else cellAt (fst acc) Y X).
Proof.
  induction m as [|cells rest IH]; intros row acc Hok Hrow; cbn zeta.
  - change (stampRows t x y row [] acc) with acc. split.
    + split; [auto|]. intros [H | [i [k [Hm _]]]]; [exact H | now destruct i].
    + intros Y X _ _.
      replace (matrixCell [] (Z.to_nat (Y - (y + row))) (Z.to_nat (X - x))) with false
        by (unfold matrixCell; now rewrite lookup_nil).
      now rewrite andb_false_r.
  - rewrite stampRows_cons.
    destruct (stampCols_spec t x (y + row) cells 0 acc Hok ltac:(lia)) as [Cf Cc].
    cbn zeta in Cf, Cc.
    set (acc' := stampCols t x (y + row) 0 cells acc) in *.
    assert (Hok' : board_ok (fst acc')) by (apply board_ok_stampCols; exact Hok).
    destruct (IH (row + 1) acc' Hok' ltac:(lia)) as [IHf IHc].
    cbn zeta in IHf, IHc. split.
    + rewrite IHf, Cf. split.
      * intros [[H | [Hneg [k Hk]]] | [i [k [Hm Hlt]]]].
        -- auto.
        -- right. exists 0%nat, k. split; [apply matrixCell_true; eauto | lia].
        -- right. exists (S i), k. split; [exact Hm | lia].
      * intros [H | [[|i] [k [Hm Hlt]]]].
        -- auto.
        -- left. right. split; [lia|].
           apply matrixCell_true in Hm. destruct Hm as [cells' [[= <-] Hk]]. eauto.
        -- right. exists i, k. split; [exact Hm | lia].
    + intros Y X HY HX. rewrite (IHc Y X HY HX), (Cc Y X HY HX).
      rewrite Z.add_0_r.
      destruct (x <=? X) eqn:EX; [|now rewrite !andb_false_r].
      rewrite !andb_true_r.
      destruct (Z.compare_spec Y (y + row)) as [Heq | Hlt | Hgt].
      * subst Y.
        replace (y + (row + 1) <=? y + row) with false by (symmetry; apply Z.leb_gt; lia).
        rewrite Z.eqb_refl, Z.leb_refl, Z.sub_diag. simpl andb.
        unfold matrixCell. simpl. reflexivity.
      * replace (y + (row + 1) <=? Y) with false by (symmetry; apply Z.leb_gt; lia).
        replace (y + row <=? Y) with false by (symmetry; apply Z.leb_gt; lia).
        replace (Y =? y + row) with false by (symmetry; apply Z.eqb_neq; lia).
        reflexivity.
      * replace (y + (row + 1) <=? Y) with true by (symmetry; apply Z.leb_le; lia).
        replace (y + row <=? Y) with true by (symmetry; apply Z.leb_le; lia).
        replace (Y =? y + row) with false by (symmetry; apply Z.eqb_neq; lia).
        simpl andb.
        replace (Z.to_nat (Y - (y + row))) with (S (Z.to_nat (Y - (y + (row + 1)))))
          by lia.
        unfold matrixCell. simpl. reflexivity.
Qed.

(** X2. The stamping loops of [lockPiece], on a board of the engine: the
    topped-out flag is raised exactly when the piece covers a cell of a
    negative row; the board keeps its shape; inside the board every covered
    cell holds the type of the piece and every other cell is as before; and
    when the piece does not collide where it is, no settled cell is
    overwritten. *)
Theorem lock_stamps_the_piece (s : State) (a : ActivePiece) :
  board_ok (board s) ->
  let m := getMatrix (p_type a) (p_rotation a) in
  (snd (stamped s a) = true <->
   exists X Y : Z, covers m (p_x a) (p_y a) X Y /\ Y < 0) /\
  board_ok (fst (stamped s a)) /\
  (forall Y X : Z, 0 <= Y < TOTAL_ROWS -> 0 <= X < COLS ->
     (covers m (p_x a) (p_y a) X Y -> cellAt (fst (stamped s a)) Y X = Some (p_type a)) /\
     (~ covers m (p_x a) (p_y a) X Y ->
      cellAt (fst (stamped s a)) Y X = cellAt (board s) Y X)) /\
  (collides (board s) (p_type a) (p_x a) (p_y a) (p_rotation a) = false ->
   forall Y X : Z, 0 <= Y < TOTAL_ROWS -> 0 <= X < COLS ->
     cellAt (board s) Y X <> None ->
     cellAt (fst (stamped s a)) Y X = cellAt (board s) Y X).
Proof.
  intros Hok m. unfold stamped. fold m.
  destruct (stampRows_spec (p_type a) (p_x a) (p_y a) m 0 (board s, false) Hok ltac:(lia))
    as [Hf Hc].
  cbn zeta in Hf, Hc. simpl fst in Hc. simpl snd in Hf.
  assert (Hcells : forall Y X : Z, 0 <= Y < TOTAL_ROWS -> 0 <= X < COLS ->
            (covers m (p_x a) (p_y a) X Y ->
             cellAt (fst (stampRows (p_type a) (p_x a) (p_y a) 0 m (board s, false))) Y X
             = Some (p_type a)) /\
            (~ covers m (p_x a) (p_y a) X Y ->
             cellAt (fst (stampRows (p_type a) (p_x a) (p_y a) 0 m (board s, false))) Y X
             = cellAt (board s) Y X)).
  { intros Y X HY HX. rewrite (Hc Y X HY HX). rewrite Z.add_0_r.
    change ((p_y a <=? Y) && (p_x a <=? X) &&
            matrixCell m (Z.to_nat (Y - p_y a)) (Z.to_nat (X - p_x a)))
      with (coversb m (p_x a) (p_y a) X Y).
    destruct (coversb m (p_x a) (p_y a) X Y) eqn:E.
    - apply coversb_covers in E. split; [reflexivity | tauto].
    - split; [|reflexivity]. intros Hcov. apply coversb_covers in Hcov. congruence. }
  split; [|split; [|split]].
  - rewrite Hf. split.
    + intros [H | [i [k [Hm Hlt]]]]; [discriminate|].
      exists (p_x a + Z.of_nat k), (p_y a + Z.of_nat i). split; [|lia].
      exists i, k. auto.
    + intros [X [Y [[i [k [Hm [-> ->]]]] Hlt]]]. right. exists i, k. split; [exact Hm | lia].
  - apply board_ok_stampRows. exact Hok.
  - exact Hcells.
  - intros Hfree Y X HY HX Hocc.
    apply Hcells; [exact HY | exact HX|].
    intros Hcov. apply not_true_iff_false in Hfree. apply Hfree.
    apply collides_covers. exists X, Y. split; [exact Hcov|].
    unfold blocked. right. right. right. split; [lia | exact Hocc].
Qed.

(** ** Placement and derived values *)

Lemma clearLoop_more_fuel (fuel : nat) :
  forall (b : list (list BoardCell)) (row cleared : Z) (r : list (list BoardCell) * Z)
         (fuel' : nat),
    clearLoop fuel b row cleared = Some r -> (fuel <= fuel')%nat ->
    clearLoop fuel' b row cleared = Some r.
Proof.
  induction fuel as [|fuel IH]; intros b row cleared r fuel' H Hle; simpl in H.
  - destruct (row >=? 0) eqn:E; [discriminate|].
    destruct fuel'; simpl; now rewrite E.
  - destruct fuel' as [|fuel']; [lia|]. simpl.
    destruct (row >=? 0); [|exact H].
    destruct (b !! Z.to_nat row) as [cells|]; [|discriminate].
    destruct (rowFull cells); apply IH; auto; lia.
Qed.

(** Whatever the fuel, when [clearLines] returns on a board of TOTAL_ROWS
    rows it returns the board without its full rows and their number. *)
Lemma clearLines_result (fuel : nat) (b : list (list BoardCell))
  (r : list (list BoardCell) * Z) :
  length b = Z.to_nat TOTAL_ROWS ->
  clearLines fuel b = Some r ->
  r = (withoutFullRows b, Z.of_nat (fullRows b)).
Proof.
  intros Hlen H. unfold clearLines in H.
  apply (clearLoop_more_fuel _ _ _ _ _ (fuel + 2 * Z.to_nat TOTAL_ROWS)%nat) in H; [|lia].
  pose proof (clearLines_returns (fuel + 2 * Z.to_nat TOTAL_ROWS)%nat b Hlen ltac:(lia)) as H'.
  unfold clearLines in H'. congruence.
Qed.

Lemma noFullRows_withoutFullRows (b : list (list BoardCell)) :
  noFullRows (withoutFullRows b).
Proof.
  unfold noFullRows, withoutFullRows. apply Forall_app. split.
  - apply Forall_replicate. reflexivity.
  - apply Forall_forall. intros r Hr. rewrite list_elem_of_In in Hr.
    apply List.filter_In in Hr. destruct Hr as [_ Hr].
    now apply negb_true_iff in Hr.
Qed.

Lemma noFullRows_createBoard : noFullRows createBoard.
Proof. apply Forall_replicate. reflexivity. Qed.

(** What [lockPiece] returns in the playing phase, by the topped-out flag
    of the stamping loops. *)
Lemma lockPiece_outcome (fuel : nat) (s s' : State) (a : ActivePiece) :
  board_ok (board s) -> state s = playing -> active s = Some a ->
  lockPiece fuel s = Some s' ->
  if snd (stamped s a) then s' = endGame (set_board (fst (stamped s a)) s)
  else spawnNextPiece fuel
         (afterLock (withoutFullRows (fst (stamped s a)))
            (Z.of_nat (fullRows (fst (stamped s a)))) s) = Some s'.
Proof.
  intros Hok Hst Ha H. rewrite (lockPiece_unfold fuel s a Ha) in H. cbn zeta in H.
  fold (stamped s a) in H.
  destruct (snd (stamped s a)); [congruence|].
  destruct (clearLines fuel (fst (stamped s a))) as [r|] eqn:Hclear;
    cbn [mbind option_bind] in H; [|discriminate].
  assert (Hok1 : board_ok (fst (stamped s a))) by (apply board_ok_stampRows; exact Hok).
  rewrite (clearLines_result fuel _ r (proj1 Hok1) Hclear) in H.
  rewrite Hst in H. exact H.
Qed.

Lemma handleLineScoring_derived (n : Z) (s : State) :
  level (handleLineScoring n s) = lines (handleLineScoring n s) / 10 + 1 /\
  gravityInterval (handleLineScoring n s) =
    computeGravityInterval (level (handleLineScoring n s)).
Proof. unfold handleLineScoring. cbn zeta. fields. split; reflexivity. Qed.

Lemma Placed_same (s s' : State) :
  board s' = board s -> active s' = active s -> grounded s' = grounded s ->
  Placed s -> Placed s'.
Proof.
  intros Hb Ha Hg H a' Ha'. rewrite Hb, Hg. apply H. now rewrite <- Ha.
Qed.

Lemma Placed_none (s : State) : active s = None -> Placed s.
Proof. intros H a Ha. congruence. Qed.

Lemma Derived_same (s s' : State) :
  level s' = level s -> lines s' = lines s -> gravityInterval s' = gravityInterval s ->
  queue s' = queue s -> board s' = board s ->
  (state s' <> over -> state s <> over) ->
  Derived s -> Derived s'.
Proof.
  intros Hlv Hl Hg Hq Hb Hst (D1 & D2 & D3 & D4).
  unfold Derived. rewrite Hlv, Hl, Hg, Hq, Hb. repeat split; auto.
Qed.

Lemma spawnNextPiece_tidy (fuel : nat) (s s' : State) :
  level s = lines s / 10 + 1 ->
  gravityInterval s = computeGravityInterval (level s) ->
  noFullRows (board s) ->
  spawnNextPiece fuel s = Some s' ->
  Placed s' /\ Derived s'.
Proof.
  intros Hlv Hg Hnf H.
  destruct (spawnNextPiece_spec _ _ _ H)
    as (t & Hdq & Hb & _ & _ & Hlv' & Hl' & _ & _ & Hg' & _ & _ & _ & _ & Hact).
  cbn zeta in Hact. split.
  - destruct (collides (board s) (p_type (createPiece t)) (p_x (createPiece t))
                (p_y (createPiece t)) (p_rotation (createPiece t))) eqn:Hc.
    + apply Placed_none. apply Hact.
    + destruct Hact as (Ha & _ & Hgr). intros a' Ha'. rewrite Ha in Ha'.
      injection Ha' as <-. rewrite Hb. auto.
  - unfold Derived. rewrite Hlv', Hl', Hg', Hb. repeat split; auto.
    unfold dequeue, queueOf in Hdq. cbn [fst snd] in Hdq.
    destruct (refillLoop fuel (queue s) (randomCalls s)) as [r|] eqn:Hr;
      cbn [mbind option_bind] in Hdq; [|discriminate].
    destruct (refillLoop_bags _ _ _ _ Hr) as (_ & _ & _ & _ & Hlen).
    destruct (fst r) as [|t0 rest]; [discriminate|].
    injection Hdq as _ Hq _. rewrite <- Hq. simpl in Hlen. lia.
Qed.

Lemma lockPiece_tidy (fuel : nat) (s s' : State) :
  board_ok (board s) -> Derived s -> state s = playing ->
  lockPiece fuel s = Some s' ->
  Placed s' /\ Derived s'.
Proof.
  intros Hok Hd Hst H.
  destruct (active s) as [a|] eqn:Ha.
  2:{ unfold lockPiece in H. rewrite Ha in H. injection H as <-.
      split; [now apply Placed_none | exact Hd]. }
  pose proof (lockPiece_outcome fuel s s' a Hok Hst Ha H) as Hout.
  destruct (snd (stamped s a)).
  - subst s'. split; [now apply Placed_none|].
    destruct Hd as (D1 & D2 & D3 & D4). unfold Derived. fields.
    repeat split; auto. intros Hne. congruence.
  - destruct (handleLineScoring_derived
                (Z.of_nat (fullRows (fst (stamped s a))))
                (set_board (withoutFullRows (fst (stamped s a))) s)) as [Hlv Hg].
    destruct (handleLineScoring_frame
                (Z.of_nat (fullRows (fst (stamped s a))))
                (set_board (withoutFullRows (fst (stamped s a))) s)) as (Hb & _).
    cbn zeta in Hb.
    assert (Htidy : Placed s' /\ Derived s').
    { apply (spawnNextPiece_tidy fuel _ s' ) with (4 := Hout).
      - unfold afterLock. fields. exact Hlv.
      - unfold afterLock. fields. exact Hg.
      - unfold afterLock. fields. rewrite Hb. fields. apply noFullRows_withoutFullRows. }
    exact Htidy.
Qed.

Lemma tryMove_Placed (dx dy : Z) (s : State) :
  (dy > 0 -> dx = 0 /\ dy = 1) ->
  Placed s -> Placed (snd (tryMove dx dy s)).
Proof.
  intros Hdown Hp. unfold tryMove.
  destruct (active s) as [a|] eqn:Ha; [|exact Hp].
  destruct (Hp a Ha) as [Hfree Hgr].
  destruct (collides (board s) (p_type a) (p_x a + dx) (p_y a + dy) (p_rotation a)) eqn:Hc.
  - cbn [snd]. destruct (dy >? 0) eqn:Hdy; [|exact Hp].
    apply Z.gtb_lt in Hdy. destruct (Hdown ltac:(lia)) as [-> ->].
    rewrite Z.add_0_r in Hc.
    intros a' Ha'. fields in Ha'. rewrite Ha in Ha'. injection Ha' as <-.
    fields. split; [exact Hfree | now rewrite Hc].
  - cbn [snd]. intros a' Ha'. fields in Ha'. injection Ha' as <-.
    fields. unfold checkGrounded. fields. split; [exact Hc | reflexivity].
Qed.

Lemma tryMove_Derived (dx dy : Z) (s : State) :
  Derived s -> Derived (snd (tryMove dx dy s)).
Proof.
  intros Hd.
  destruct (tryMove_frame dx dy s)
    as (Hb & Hq & _ & _ & _ & Hg & _ & Hst & _ & Hlv & Hl & _).
  cbn zeta in *. eapply Derived_same; eauto. now rewrite Hst.
Qed.

Lemma checkGrounded_Placed (s : State) :
  Placed s -> Placed (set_grounded (checkGrounded s) s).
Proof.
  intros Hp a Ha. fields in Ha. fields. destruct (Hp a Ha) as [Hfree _].
  split; [exact Hfree|]. unfold checkGrounded. now rewrite Ha.
Qed.

Lemma gravityLoop_tidy (fuel : nat) (interval : Q) :
  forall s s' : State,
    Placed s -> Derived s -> gravityLoop fuel interval s = Some s' ->
    Placed s' /\ Derived s' /\ board s' = board s /\ state s' = state s.
Proof.
  induction fuel as [|fuel IH]; intros s s' Hp Hd H; simpl in H.
  - destruct (Qle_bool interval (gravityTimer s) && is_some (active s)); [discriminate|].
    injection H as <-. auto.
  - destruct (Qle_bool interval (gravityTimer s) && is_some (active s)).
    2:{ injection H as <-. auto. }
    set (s1 := set_gravityTimer (number_sub (gravityTimer s) interval) s) in *.
    assert (Hp1 : Placed s1) by (eapply Placed_same; [..|exact Hp]; reflexivity).
    assert (Hd1 : Derived s1) by (eapply Derived_same; [..|exact Hd]; auto).
    pose proof (tryMove_Placed 0 1 s1 ltac:(auto) Hp1) as Hp2.
    pose proof (tryMove_Derived 0 1 s1 Hd1) as Hd2.
    destruct (tryMove_frame 0 1 s1) as (Hb & _ & _ & _ & _ & _ & _ & Hst & _).
    cbn zeta in Hb, Hst.
    change (board s1) with (board s) in Hb. change (state s1) with (state s) in Hst.
    pose proof (tryMove_active 0 1 s1) as Hact.
    change (active s1) with (active s) in Hact.
    change (board s1) with (board s) in Hact.
    destruct (fst (tryMove 0 1 s1)) eqn:Hmoved.
    + set (s2 := snd (tryMove 0 1 s1)) in *.
      set (s3 := if softDropActive s2 then set_score (score s2 + 1) s2 else s2) in *.
      assert (H3 : Placed s3 /\ Derived s3 /\ board s3 = board s2 /\ state s3 = state s2).
      { subst s3. destruct (softDropActive s2); [|auto].
        split; [eapply Placed_same; [..|exact Hp2]; reflexivity|].
        split; [eapply Derived_same; [..|exact Hd2]; auto | split; reflexivity]. }
      destruct H3 as (Hp3 & Hd3 & Hb3 & Hst3).
      destruct (IH _ _ Hp3 Hd3 H) as (Hp' & Hd' & Hb' & Hst').
      split; [exact Hp'|]. split; [exact Hd' | split; congruence].
    + injection H as <-.
      split; [|split; [eapply Derived_same; [..|exact Hd2]; auto | split; [exact Hb | exact Hst]]].
      intros a' Ha'. fields in Ha'. fields.
      destruct (Hp2 a' Ha') as [Hfree _]. split; [exact Hfree|].
      destruct (active s) as [a|] eqn:Ha.
      * destruct (collides (board s) (p_type a) (p_x a + 0) (p_y a + 1) (p_rotation a)) eqn:Hc;
          destruct Hact as [Hf Hact]; [|congruence].
        rewrite Hact in Ha'. injection Ha' as <-. rewrite Hb.
        rewrite Z.add_0_r in Hc. now rewrite Hc.
      * rewrite Hact in Ha'. cbn [snd] in Ha'. change (active s1) with (active s) in Ha'.
        congruence.
Qed.

Lemma update_tidy (fuel : nat) (delta : Q) (s s' : State) :
  board_ok (board s) -> Placed s -> Derived s ->
  update fuel delta s = Some s' -> Placed s' /\ Derived s'.
Proof.
  intros Hok Hp Hd H. unfold update in H.
  destruct (negb (is_playing (state s)) || negb (is_some (active s))) eqn:Hguard.
  - injection H as <-. auto.
  - apply orb_false_elim in Hguard. destruct Hguard as [Hplay _].
    assert (Hst : state s = playing) by (destruct (state s); simpl in Hplay; congruence).
    set (interval := if softDropActive s then SOFT_DROP_INTERVAL else gravityInterval s) in *.
    set (s1 := set_gravityTimer (number_add (gravityTimer s) delta) s) in *.
    assert (Hp1 : Placed s1) by (eapply Placed_same; [..|exact Hp]; reflexivity).
    assert (Hd1 : Derived s1) by (eapply Derived_same; [..|exact Hd]; auto).
    destruct (gravityLoop fuel interval s1) as [s2|] eqn:Hloop;
      cbn [mbind option_bind] in H; [|discriminate].
    destruct (gravityLoop_tidy _ _ _ _ Hp1 Hd1 Hloop) as (Hp2 & Hd2 & Hb2 & Hst2).
    destruct (grounded s2 && is_some (active s2)); [|injection H as <-; auto].
    set (s3 := set_lockTimer (number_add (lockTimer s2) delta) s2) in *.
    destruct (Qle_bool LOCK_DELAY_MS (lockTimer s3)).
    + apply (lockPiece_tidy fuel s3 s');
        [ change (board s3) with (board s2); rewrite Hb2; exact Hok
        | eapply Derived_same; [..|exact Hd2]; auto
        | change (state s3) with (state s2); rewrite Hst2; exact Hst
        | exact H ].
    + injection H as <-.
      split; [eapply Placed_same; [..|exact Hp2]; reflexivity|].
      eapply Derived_same; [..|exact Hd2]; auto.
Qed.
Lemma move_tidy (direction : Z) (s : State) :
  Placed s -> Derived s -> Placed (move direction s) /\ Derived (move direction s).
Proof.
  intros Hp Hd. unfold move.
  destruct (negb (is_playing (state s))); [auto|].
  pose proof (tryMove_Placed direction 0 s ltac:(lia) Hp) as Hp2.
  pose proof (tryMove_Derived direction 0 s Hd) as Hd2.
  destruct (fst (tryMove direction 0 s)); [|auto].
  split; [now apply checkGrounded_Placed|].
  eapply Derived_same; [..|exact Hd2]; auto.
Qed.

Lemma tapSoftDrop_tidy (s : State) :
  Placed s -> Derived s -> Placed (tapSoftDrop s) /\ Derived (tapSoftDrop s).
Proof.
  intros Hp Hd. unfold tapSoftDrop.
  destruct (negb (is_playing (state s))); [auto|].
  pose proof (tryMove_Placed 0 1 s ltac:(auto) Hp) as Hp2.
  pose proof (tryMove_Derived 0 1 s Hd) as Hd2.
  pose proof (tryMove_active 0 1 s) as Hact.
  destruct (tryMove_frame 0 1 s) as (Hb & _). cbn zeta in Hb.
  destruct (fst (tryMove 0 1 s)) eqn:Hmoved.
  - split; [eapply Placed_same; [..|exact Hp2]; reflexivity|].
    eapply Derived_same; [..|exact Hd2]; auto.
  - split; [|eapply Derived_same; [..|exact Hd2]; auto].
    intros a' Ha'. fields in Ha'. fields.
    destruct (Hp2 a' Ha') as [Hfree _]. split; [exact Hfree|].
    destruct (active s) as [a|] eqn:Ha.
    + destruct (collides (board s) (p_type a) (p_x a + 0) (p_y a + 1) (p_rotation a)) eqn:Hc;
        destruct Hact as [Hf Hact]; [|congruence].
      rewrite Hact in Ha'. injection Ha' as <-. rewrite Hb.
      rewrite Z.add_0_r in Hc. now rewrite Hc.
    + rewrite Hact in Ha'. cbn [snd] in Ha'. congruence.
Qed.

Lemma rotateKicks_tidy (a : ActivePiece) (toRotation : Z) (kicks : list (Z * Z))
  (s : State) :
  Placed s -> Derived s ->
  Placed (rotateKicks a toRotation kicks s) /\ Derived (rotateKicks a toRotation kicks s).
Proof.
  intros Hp Hd. induction kicks as [|[offsetX offsetY] rest IH]; simpl; [auto|].
  destruct (collides (board s) (p_type a) (p_x a + offsetX) (p_y a + offsetY) toRotation)
    eqn:Hc; simpl; [exact IH|].
  split; [|eapply Derived_same; [..|exact Hd]; auto].
  intros a' Ha'. fields in Ha'. injection Ha' as <-. fields.
  unfold checkGrounded. fields. auto.
Qed.

Lemma rotate_tidy (clockwise : bool) (s : State) :
  Placed s -> Derived s -> Placed (rotate clockwise s) /\ Derived (rotate clockwise s).
Proof.
  intros Hp Hd. unfold rotate.
  destruct (negb (is_playing (state s))); [auto|].
  destruct (active s) as [a|]; [|auto].
  now apply rotateKicks_tidy.
Qed.

Lemma setSoftDrop_tidy (on : bool) (s : State) :
  Placed s -> Derived s -> Placed (setSoftDrop on s) /\ Derived (setSoftDrop on s).
Proof.
  intros Hp Hd. unfold setSoftDrop.
  destruct (Bool.eqb (softDropActive s) on); [auto|].
  destruct on; (split; [eapply Placed_same; [..|exact Hp]; reflexivity|]);
    eapply Derived_same; [..|exact Hd]; auto.
Qed.

Lemma togglePause_tidy (s : State) :
  Placed s -> Derived s -> Placed (togglePause s) /\ Derived (togglePause s).
Proof.
  intros Hp Hd. unfold togglePause.
  destruct (state s) eqn:Hst; [| |auto];
    (split; [eapply Placed_same; [..|exact Hp]; reflexivity|]);
    (eapply Derived_same; [..|exact Hd]; auto); intros _; congruence.
Qed.

Lemma hardDrop_tidy (fuel : nat) (s s' : State) :
  board_ok (board s) -> Placed s -> Derived s ->
  hardDrop fuel s = Some s' -> Placed s' /\ Derived s'.
Proof.
  intros Hok Hp Hd H. unfold hardDrop in H.
  destruct (is_playing (state s)) eqn:Hplay; simpl in H; [|injection H as <-; auto].
  assert (Hst : state s = playing) by (destruct (state s); simpl in Hplay; congruence).
  destruct (active s) as [a|] eqn:Ha; [|injection H as <-; auto].
  destruct (getDropDistance fuel s) as [distance|]; cbn [mbind option_bind] in H;
    [|discriminate].
  destruct (distance <=? 0); [injection H as <-; auto|].
  apply (lockPiece_tidy fuel _ s') with (4 := H); [exact Hok | | exact Hst].
  eapply Derived_same; [..|exact Hd]; auto.
Qed.

Lemma hold_tidy (fuel : nat) (s s' : State) :
  Placed s -> Derived s -> hold fuel s = Some s' -> Placed s' /\ Derived s'.
Proof.
  intros Hp Hd H. unfold hold in H.
  destruct (negb (is_playing (state s)) || negb (canHold s)) eqn:Hguard;
    [injection H as <-; auto|].
  apply orb_false_elim in Hguard. destruct Hguard as [Hplay _].
  assert (Hst : state s = playing) by (destruct (state s); simpl in Hplay; congruence).
  destruct (active s) as [a|] eqn:Ha; [|injection H as <-; auto].
  destruct (holdPiece s) as [t|] eqn:Hh.
  - cbn zeta in H. fields in H.
    destruct (collides (board s) (p_type (createPiece t)) (p_x (createPiece t))
                (p_y (createPiece t)) (p_rotation (createPiece t))) eqn:Hc;
      injection H as <-.
    + split; [now apply Placed_none|].
      destruct Hd as (D1 & D2 & D3 & D4). unfold Derived. fields.
      repeat split; auto.
    + split; [|eapply Derived_same; [..|exact Hd]; auto].
      intros a' Ha'. fields in Ha'. injection Ha' as <-. fields.
      unfold checkGrounded. fields. auto.
  - cbn zeta in H. destruct Hd as (D1 & D2 & D3 & D4).
    apply (spawnNextPiece_tidy fuel _ s') with (4 := H); fields; auto.
    apply D4. congruence.
Qed.

Lemma computeGravityInterval_one : computeGravityInterval 1 = (1000 # 1)%Q.
Proof. reflexivity. Qed.

Lemma reset_tidy (fuel : nat) (s s' : State) :
  reset fuel s = Some s' -> Placed s' /\ Derived s'.
Proof.
  unfold reset. intros H.
  set (s0 := mkState _ _ _ _ _ _ _ _ _ _ _ _ _ _ _ _ _) in H.
  destruct (refillQueue fuel s0) as [s1|] eqn:Hr; cbn [mbind option_bind] in H;
    [|discriminate].
  destruct (refillQueue_spec _ _ _ Hr) as (_ & _ & Hs1).
  apply (spawnNextPiece_tidy fuel s1 s') with (4 := H); rewrite Hs1; fields.
  - reflexivity.
  - symmetry. exact computeGravityInterval_one.
  - apply noFullRows_createBoard.
Qed.

Lemma exec_tidy (fuel : nat) (c : Command) (s s' : State) :
  board_ok (board s) -> Placed s -> Derived s ->
  exec fuel c s = Some s' -> Placed s' /\ Derived s'.
Proof.
  intros Hok Hp Hd H.
  destruct c as [|delta|direction|clockwise| | |on| |]; simpl in H;
    try (injection H as <-).
  - now apply (reset_tidy fuel s).
  - now apply (update_tidy fuel delta s).
  - now apply move_tidy.
  - now apply rotate_tidy.
  - now apply (hardDrop_tidy fuel s).
  - now apply tapSoftDrop_tidy.
  - now apply setSoftDrop_tidy.
  - now apply (hold_tidy fuel s).
  - now apply togglePause_tidy.
Qed.

Lemma reachable_tidy (s : State) : reachable s -> Placed s /\ Derived s.
Proof.
  induction 1 as [fuel s H | fuel c s s' Hr [Hp Hd] H].
  - unfold newGame in H. now apply reset_tidy in H.
  - apply (exec_tidy fuel c s s'); auto.
    apply (reachable_Invariant s Hr).
Qed.

(** ** The gravity interval *)







(** ** What holds in every state of a game *)

Lemma covers_shift (m : list (list bool)) (x y d X Y : Z) :
  covers m x (y + d) X Y <-> covers m x y X (Y - d).
Proof.
  unfold covers. split; intros [i [k [Hm [Hx Hy]]]]; exists i, k;
    (split; [exact Hm | lia]).
Qed.

(** X4. In every state of a game no cell of the active piece is blocked, and
    the grounded flag is up exactly when a cell of the piece has a blocked
    cell right below it. *)
Theorem active_piece_is_never_blocked (s : State) :
  reachable s ->
  (forall c : Cell, In c (getActiveCells s) -> ~ blocked (getBoard s) (c_x c) (c_y c)) /\
  (is_some (active s) = true ->
   (grounded s = true <->
    exists c : Cell,
      In c (getActiveCells s) /\ blocked (getBoard s) (c_x c) (c_y c + 1))).
Proof.
  intros Hr. destruct (reachable_tidy s Hr) as [Hp _].
  unfold getActiveCells, getBoard. destruct (active s) as [a|] eqn:Ha.
  - destruct (Hp a Ha) as [Hfree Hg]. split.
    + intros c Hin Hb. apply not_true_iff_false in Hfree. apply Hfree.
      apply collides_covers. apply getCellsFor_covers in Hin.
      exists (c_x c), (c_y c). tauto.
    + intros _. rewrite Hg, collides_covers. split.
      * intros [X [Y [Hc Hb]]]. exists (mkCell X (Y - 1) (p_type a)). simpl. split.
        -- apply getCellsFor_covers. simpl. split; [reflexivity|].
           now apply covers_shift.
        -- now replace (Y - 1 + 1) with Y by lia.
      * intros [c [Hin Hb]]. apply getCellsFor_covers in Hin.
        exists (c_x c), (c_y c + 1). split; [|exact Hb].
        apply covers_shift. now replace (c_y c + 1 - 1) with (c_y c) by lia.
  - split; [intros c [] | discriminate].
Qed.


(** X6. In every state of a game the board has TOTAL_ROWS rows of COLS
    cells, and until the game is over none of its rows is full: a lock
    that does not end the game clears every full row before the next piece
    appears. *)
Theorem no_full_row_survives (s : State) :
  reachable s ->
  board_ok (getBoard s) /\ (isGameOver s = false -> noFullRows (getBoard s)).
Proof.
  intros Hr. destruct (reachable_tidy s Hr) as [_ (_ & _ & _ & D4)].
  split; [apply (reachable_Invariant s Hr)|].
  unfold isGameOver, getBoard. intros Hover. apply D4. intros Heq.
  rewrite Heq in Hover. discriminate.
Qed.

Lemma getNextPieces_take (count : Z) (s : State) :
  0 <= count <= Z.of_nat (length (queue s)) ->
  getNextPieces (Some count) s = take (Z.to_nat count) (queue s).
Proof.
  intros Hc. unfold getNextPieces. cbv zeta.
  replace (count <? 0) with false by (symmetry; apply Z.ltb_ge; lia).
  now rewrite Z.min_l by lia.
Qed.

(** The preview before and after a spawn that returned. *)
Lemma preview_after_spawn (fuel : nat) (s s' : State) :
  reachable s -> spawnNextPiece fuel s = Some s' ->
  length (getNextPieces None s) = 5%nat /\
  (forall count : Z, 0 <= count <= 6 ->
     length (getNextPieces (Some count) s) = Z.to_nat count) /\
  exists t : PieceType,
    head (getNextPieces None s) = Some t /\
    (active s' = Some (createPiece t) \/ state s' = over) /\
    getNextPieces (Some 4) s' = tail (getNextPieces None s).
Proof.
  intros Hr Hspawn. destruct (reachable_tidy s Hr) as [_ (_ & _ & D3 & _)].
  assert (Hnone : getNextPieces None s = getNextPieces (Some 5) s) by reflexivity.
  rewrite Hnone, (getNextPieces_take 5 s) by lia.
  split; [rewrite length_take; lia|].
  split; [intros count Hc; rewrite getNextPieces_take by lia; rewrite length_take; lia|].
  destruct (spawnNextPiece_spec _ _ _ Hspawn) as (t & Hdq & Hrest).
  unfold dequeue, queueOf in Hdq. cbn [fst snd] in Hdq.
  destruct (refillLoop fuel (queue s) (randomCalls s)) as [r|] eqn:Hrefill;
    cbn [mbind option_bind] in Hdq; [|discriminate].
  destruct (refillLoop_bags _ _ _ _ Hrefill) as (bags & Hq & _).
  destruct (fst r) as [|t0 rest]; [discriminate|].
  injection Hdq as -> Hq' _.
  destruct (queue s) as [|t1 q1] eqn:Hqueue; [simpl in D3; lia|].
  simpl in Hq. injection Hq as -> ->.
  exists t1. split; [reflexivity|]. split.
  - destruct Hrest as (_ & _ & _ & _ & _ & _ & _ & _ & _ & _ & _ & _ & Hact).
    cbn zeta in Hact.
    destruct (collides _ _ _ _ _) in Hact; [right | left]; apply Hact.
  - rewrite getNextPieces_take by (rewrite <- Hq', length_app; simpl in D3; lia).
    rewrite <- Hq'. simpl in D3. simpl.
    rewrite take_app_le by lia. reflexivity.
Qed.

(** X7. In every state of a game the preview of [getNextPieces] has its five
    entries (and any count up to six is served in full); [spawnNextPiece]
    returns, it hands out the first entry of the preview, and the four that
    follow move up to the front of the next preview. *)
Theorem preview_is_full_and_in_spawn_order (fuel : nat) (s : State) :
  catalog_ok -> (1 <= fuel)%nat -> reachable s ->
  length (getNextPieces None s) = 5%nat /\
  (forall count : Z, 0 <= count <= 6 ->
     length (getNextPieces (Some count) s) = Z.to_nat count) /\
  exists (t : PieceType) (s' : State),
    spawnNextPiece fuel s = Some s' /\
    head (getNextPieces None s) = Some t /\
    (active s' = Some (createPiece t) \/ state s' = over) /\
    getNextPieces (Some 4) s' = tail (getNextPieces None s).
Proof.
  intros Hcat Hfuel Hr.
  destruct (spawnNextPiece_returns Hcat fuel s Hfuel) as [s' Hspawn].
  destruct (preview_after_spawn fuel s s' Hr Hspawn) as (Hfive & Hcount & t & Hrest).
  split; [exact Hfive|]. split; [exact Hcount|].
  exists t, s'. split; [exact Hspawn | exact Hrest].
Qed.

(** ** The outcome of a lock *)

(** [handleLineScoring] never looks at the board. *)
Lemma handleLineScoring_set_board (n : Z) (b : list (list BoardCell)) (s : State) :
  handleLineScoring n (set_board b s) = set_board b (handleLineScoring n s).
Proof.
  unfold handleLineScoring. cbv zeta. fields.
  repeat match goal with
         | |- context [if ?c then _ else _] => destruct c
         end; reflexivity.
Qed.

(** A lock that clears no line: only the combo and the back-to-back chain
    are touched. *)
Lemma handleLineScoring_zero (s : State) :
  score (handleLineScoring 0 s) = score s /\
  lines (handleLineScoring 0 s) = lines s /\
  combo (handleLineScoring 0 s) = -1 /\
  backToBack (handleLineScoring 0 s) = Z.min (backToBack s) 0.
Proof.
  unfold handleLineScoring. cbv zeta. change (0 >? 0) with false. cbv iota. fields.
  destruct (backToBack s >? 0) eqn:E; fields; repeat split; try reflexivity.
  - apply Z.gtb_lt in E. lia.
  - assert (backToBack s <= 0) by (destruct (Z.gtb_spec (backToBack s) 0); [discriminate | lia]).
    lia.
Qed.

Lemma afterLock_fields (b : list (list BoardCell)) (n : Z) (s : State) :
  board (afterLock b n s) = b /\
  score (afterLock b n s) = score (handleLineScoring n s) /\
  lines (afterLock b n s) = lines (handleLineScoring n s) /\
  combo (afterLock b n s) = combo (handleLineScoring n s) /\
  backToBack (afterLock b n s) = backToBack (handleLineScoring n s) /\
  queueOf (afterLock b n s) = queueOf s /\
  holdPiece (afterLock b n s) = holdPiece s /\
  state (afterLock b n s) = state s.
Proof.
  unfold afterLock. rewrite handleLineScoring_set_board. unfold queueOf. fields.
  destruct (handleLineScoring_frame n s) as (_ & _ & Hst & Hq & Hh & Hr & _).
  cbv zeta in Hst, Hq, Hh, Hr. rewrite Hq, Hr, Hh, Hst. repeat split; reflexivity.
Qed.

(** The outcome of a lock that returned. *)
Lemma lockPiece_result (fuel : nat) (s s' : State) (a : ActivePiece) :
  board_ok (board s) -> state s = playing -> active s = Some a ->
  lockPiece fuel s = Some s' ->
  let b1 := fst (stamped s a) in
  let n := Z.of_nat (fullRows b1) in
  if snd (stamped s a)
  then board s' = b1 /\ state s' = over /\ active s' = None /\
       score s' = score s /\ lines s' = lines s /\ level s' = level s /\
       combo s' = combo s /\ backToBack s' = backToBack s /\
       queueOf s' = queueOf s /\ holdPiece s' = holdPiece s
  else board s' = withoutFullRows b1 /\
       score s' = score (handleLineScoring n s) /\
       lines s' = lines (handleLineScoring n s) /\
       combo s' = combo (handleLineScoring n s) /\
       backToBack s' = backToBack (handleLineScoring n s) /\
       (n = 0 ->
        score s' = score s /\ lines s' = lines s /\ combo s' = -1 /\
        backToBack s' = Z.min (backToBack s) 0) /\
       canHold s' = true /\ holdPiece s' = holdPiece s /\
       exists t : PieceType,
         dequeue fuel (queueOf s) = Some (t, queueOf s') /\
         (active s' = Some (createPiece t) /\ state s' = playing \/
          active s' = None /\ state s' = over).
Proof.
  intros Hok Hst Ha H b1 n.
  pose proof (lockPiece_outcome fuel s s' a Hok Hst Ha H) as Hout.
  fold b1 in Hout. fold n in Hout.
  destruct (snd (stamped s a)).
  - subst s'. unfold endGame, queueOf. fields. repeat split; reflexivity.
  - destruct (spawnNextPiece_spec _ _ _ Hout)
      as (t & Hdq & Hb & Hh & Hsc & _ & Hl & Hco & Hbb & _ & _ & _ & _ & Hcan & Hact).
    destruct (afterLock_fields (withoutFullRows b1) n s)
      as (Fb & Fsc & Fl & Fco & Fbb & Fq & Fh & Fst).
    rewrite Fq in Hdq. rewrite Fb in Hb. rewrite Fh in Hh. rewrite Fsc in Hsc.
    rewrite Fl in Hl. rewrite Fco in Hco. rewrite Fbb in Hbb.
    do 5 (split; [assumption|]).
    split.
    { intros Hn. rewrite Hsc, Hl, Hco, Hbb, Hn. apply handleLineScoring_zero. }
    split; [exact Hcan|]. split; [exact Hh|].
    exists t. split; [exact Hdq|]. cbv zeta in Hact.
    destruct (collides _ _ _ _ _) in Hact.
    + right. exact Hact.
    + left. destruct Hact as (Hact & Hstate & _). split; [exact Hact|].
      rewrite Hstate, Fst. exact Hst.
Qed.

(** X8. What [lockPiece] does with the active piece of a playing game: with
    fuel for the rows of the board twice over it returns.  When
    the stamping loops raise the topped-out flag the game is over on the
    stamped board, with no row cleared, no scoring and no new piece.
    Otherwise the board is the stamped board without its full rows, the
    lines grow by their number, the score and the chains are those of
    [handleLineScoring] (a lock that clears nothing leaves the score, ends
    the combo and the back-to-back chain), holding is allowed again, and the
    next piece of the queue is spawned, or the game is over when it has no
    room. *)
Theorem lockPiece_tops_out_or_clears (fuel : nat) (s : State) (a : ActivePiece) :
  catalog_ok -> board_ok (board s) -> state s = playing -> active s = Some a ->
  (2 * Z.to_nat TOTAL_ROWS <= fuel)%nat ->
  exists s' : State,
    lockPiece fuel s = Some s' /\
    let b1 := fst (stamped s a) in
    let n := Z.of_nat (fullRows b1) in
    if snd (stamped s a)
    then board s' = b1 /\ state s' = over /\ active s' = None /\
         score s' = score s /\ lines s' = lines s /\ level s' = level s /\
         combo s' = combo s /\ backToBack s' = backToBack s /\
         queueOf s' = queueOf s /\ holdPiece s' = holdPiece s
    else board s' = withoutFullRows b1 /\
         score s' = score (handleLineScoring n s) /\
         lines s' = lines (handleLineScoring n s) /\
         combo s' = combo (handleLineScoring n s) /\
         backToBack s' = backToBack (handleLineScoring n s) /\
         (n = 0 ->
          score s' = score s /\ lines s' = lines s /\ combo s' = -1 /\
          backToBack s' = Z.min (backToBack s) 0) /\
         canHold s' = true /\ holdPiece s' = holdPiece s /\
         exists t : PieceType,
           dequeue fuel (queueOf s) = Some (t, queueOf s') /\
           (active s' = Some (createPiece t) /\ state s' = playing \/
            active s' = None /\ state s' = over).
Proof.
  intros Hcat Hok Hst Ha Hfuel.
  destruct (lockPiece_returns Hcat fuel s Hok Hfuel) as [s' Hlock].
  exists s'. split; [exact Hlock|].
  exact (lockPiece_result fuel s s' a Hok Hst Ha Hlock).
Qed.

(** ** The ghost piece *)

(** Where the drop loop stops under the piece of a state of a game: the
    piece is free of collision there, and collides one row further down. *)
Lemma ghost_position (fuel : nat) (s : State) (a : ActivePiece) :
  catalog_ok -> reachable s -> (fuelFor s <= fuel)%nat -> active s = Some a ->
  exists d : Z,
    dropLoop fuel (board s) a 0 = Some d /\ 0 <= d /\
    collides (board s) (p_type a) (p_x a) (p_y a + d) (p_rotation a) = false /\
    collides (board s) (p_type a) (p_x a) (p_y a + d + 1) (p_rotation a) = true.
Proof.
  intros [_ Hcat] Hr Hfuel Ha.
  destruct (reachable_tidy s Hr) as [Hp _].
  pose proof (reachable_Invariant s Hr) as [Hsane _].
  unfold fuelFor in Hfuel. rewrite Ha in Hfuel.
  destruct (dropLoop_returns (board s) a fuel
              (Hcat _ _ (sane_rotation s Hsane a Ha)) 0) as [d Hd];
    [unfold TOTAL_ROWS in *; lia|].
  destruct (dropLoop_spec _ _ _ _ _ Hd) as (Hd0 & Hfree & Hstop).
  destruct (Hp a Ha) as [Hhere _].
  exists d. split; [exact Hd|]. split; [exact Hd0|]. split; [|exact Hstop].
  destruct (Z.eq_dec d 0) as [-> | Hne]; [now rewrite Z.add_0_r|].
  apply Hfree. lia.
Qed.

Lemma listed_cells_free (b : list (list BoardCell)) (t : PieceType) (x y r : Z) :
  collides b t x y r = false ->
  forall c : Cell, In c (getCellsFor t r x y) -> ~ blocked b (c_x c) (c_y c).
Proof.
  intros Hfree c Hin Hb. apply not_true_iff_false in Hfree. apply Hfree.
  apply collides_covers. apply getCellsFor_covers in Hin.
  exists (c_x c), (c_y c). tauto.
Qed.

(** X9. With enough fuel [getGhostCells] returns, in every state of a game:
    its cells are those of the active piece moved down by the drop distance,
    in the same order; none of them is blocked; and when there is a piece,
    one of them has a blocked cell right below it. *)
Theorem ghost_is_the_dropped_piece (fuel : nat) (s : State) :
  catalog_ok -> reachable s -> (fuelFor s <= fuel)%nat ->
  exists (d : Z) (cells : list Cell),
    getGhostCells fuel s = Some cells /\
    getDropDistance fuel s = Some d /\
    0 <= d /\
    cells = map (shiftDown d) (getActiveCells s) /\
    (forall c : Cell, In c cells -> ~ blocked (getBoard s) (c_x c) (c_y c)) /\
    (is_some (active s) = true ->
     exists c : Cell, In c cells /\ blocked (getBoard s) (c_x c) (c_y c + 1)).
Proof.
  intros Hcat Hr Hfuel.
  unfold getGhostCells, getDropDistance, getActiveCells, getBoard.
  destruct (active s) as [a|] eqn:Ha.
  - destruct (ghost_position fuel s a Hcat Hr Hfuel Ha) as (d & Hd & Hd0 & Hat & Hstop).
    exists d, (getCellsFor (p_type a) (p_rotation a) (p_x a) (p_y a + d)).
    rewrite Hd. cbn [mbind option_bind].
    split; [reflexivity|]. split; [reflexivity|]. split; [exact Hd0|].
    split; [apply cellsRows_shift|]. split.
    + now apply listed_cells_free.
    + intros _. apply collides_covers in Hstop. destruct Hstop as [X [Y [Hc Hb]]].
      exists (mkCell X (Y - 1) (p_type a)). simpl. split.
      * apply getCellsFor_covers. simpl. split; [reflexivity|].
        now apply (covers_shift _ (p_x a) (p_y a + d) 1 X Y).
      * now replace (Y - 1 + 1) with Y by lia.
  - exists 0, []. do 2 (split; [reflexivity|]). split; [lia|].
    split; [reflexivity|]. split; [intros c [] | discriminate].
Qed.

(** ** Moving and turning the piece *)

(** X10. [move] in the playing phase: when the piece collides one column
    over, nothing at all changes, the lock timer included; otherwise the
    piece is one column over, the lock timer restarts and the grounded flag
    is computed afresh. *)
Theorem move_shifts_or_leaves (direction : Z) (s : State) (a : ActivePiece) :
  state s = playing -> active s = Some a ->
  move direction s =
  if collides (board s) (p_type a) (p_x a + direction) (p_y a) (p_rotation a)
  then s else shifted direction s a.
Proof.
  intros Hst Ha. unfold move, tryMove, shifted. rewrite Hst, Ha. cbn [is_playing negb].
  cbv zeta. rewrite Z.add_0_r.
  destruct (collides (board s) (p_type a) (p_x a + direction) (p_y a) (p_rotation a));
    cbn [fst snd]; [reflexivity|].
  unfold checkGrounded. fields. reflexivity.
Qed.

Lemma rotateKicks_all_fail (a : ActivePiece) (toRotation : Z) (kicks : list (Z * Z))
  (s : State) :
  forallb (kickFails s a toRotation) kicks = true ->
  rotateKicks a toRotation kicks s = s.
Proof.
  induction kicks as [|[offsetX offsetY] rest IH]; simpl; [reflexivity|].
  unfold kickFails at 1. cbn [fst snd]. intros H. apply andb_true_iff in H.
  destruct H as [Hk Hrest]. rewrite Hk. cbn [negb]. auto.
Qed.

Lemma rotateKicks_first_fit (a : ActivePiece) (toRotation : Z)
  (pre post : list (Z * Z)) (k : Z * Z) (s : State) :
  forallb (kickFails s a toRotation) pre = true ->
  kickFails s a toRotation k = false ->
  rotateKicks a toRotation (pre ++ k :: post) s = kicked s a toRotation k.
Proof.
  intros Hpre Hk. induction pre as [|[offsetX offsetY] rest IH]; simpl.
  - destruct k as [offsetX offsetY]. unfold kickFails in Hk. cbn [fst snd] in Hk.
    rewrite Hk. cbn [negb]. unfold kicked, checkGrounded. fields. reflexivity.
  - simpl in Hpre. apply andb_true_iff in Hpre. destruct Hpre as [Hk0 Hrest].
    unfold kickFails in Hk0. cbn [fst snd] in Hk0. rewrite Hk0. cbn [negb]. auto.
Qed.

(** X11. [rotate] in the playing phase.  The two normalisations of the
    source are the mathematical remainder: the kick table is read at
    [rotation mod 4] and [(rotation + 1) mod 4] (clockwise) or
    [(rotation + 3) mod 4] (counter-clockwise), whatever the sign of
    [rotation].  The piece takes the first kick of the list that leaves it
    free of collision, with the lock timer restarted and the grounded flag
    computed afresh; when every kick collides nothing at all changes. *)
Theorem rotate_takes_the_first_free_kick (clockwise : bool) (s : State)
  (a : ActivePiece) :
  state s = playing -> active s = Some a ->
  let toRotation := (p_rotation a + (if clockwise then 1 else 3)) mod 4 in
  let kicks := getKickData (p_type a) (p_rotation a mod 4) toRotation in
  (forallb (kickFails s a toRotation) kicks = true -> rotate clockwise s = s) /\
  (forall (pre post : list (Z * Z)) (k : Z * Z),
     kicks = pre ++ k :: post ->
     forallb (kickFails s a toRotation) pre = true ->
     kickFails s a toRotation k = false ->
     rotate clockwise s = kicked s a toRotation k).
Proof.
  intros Hst Ha toRotation kicks.
  assert (Hfrom : Z.rem (Z.rem (p_rotation a) 4 + 4) 4 = p_rotation a mod 4).
  { generalize (p_rotation a). intros r. Z.to_euclidean_division_equations. lia. }
  assert (Hto : Z.rem (p_rotation a mod 4 + (if clockwise then 1 else -1) + 4) 4
                = toRotation).
  { unfold toRotation. generalize (p_rotation a). intros r.
    destruct clockwise; Z.to_euclidean_division_equations; lia. }
  assert (Hrot : rotate clockwise s = rotateKicks a toRotation kicks s).
  { unfold rotate. rewrite Hst, Ha. cbn [is_playing negb]. cbv zeta.
    rewrite Hfrom, Hto. reflexivity. }
  rewrite Hrot. split.
  - apply rotateKicks_all_fail.
  - intros pre post k -> Hpre Hk. now apply rotateKicks_first_fit.
Qed.

Lemma set_grounded_same (s : State) (g : bool) : grounded s = g -> set_grounded g s = s.
Proof. intros <-. destruct s. reflexivity. Qed.

(** X12. [tapSoftDrop] on the piece of a playing game: a grounded piece is
    left as it is, with no point awarded; any other piece goes down one row,
    for one point, and the lock timer restarts. *)
Theorem tapSoftDrop_steps_or_rests (s : State) (a : ActivePiece) :
  reachable s -> state s = playing -> active s = Some a ->
  if grounded s then tapSoftDrop s = s
  else active (tapSoftDrop s) =
         Some (mkPiece (p_type a) (p_rotation a) (p_x a) (p_y a + 1)) /\
       score (tapSoftDrop s) = score s + 1 /\
       lockTimer (tapSoftDrop s) = 0%Q /\
       board (tapSoftDrop s) = board s.
Proof.
  intros Hr Hst Ha. destruct (reachable_tidy s Hr) as [Hp _].
  destruct (Hp a Ha) as [_ Hg]. rewrite Hg.
  unfold tapSoftDrop, tryMove. rewrite Hst, Ha. cbn [is_playing negb]. cbv zeta.
  rewrite Z.add_0_r.
  destruct (collides (board s) (p_type a) (p_x a) (p_y a + 1) (p_rotation a)) eqn:Hc;
    cbn [fst snd].
  - change (1 >? 0) with true. cbv iota.
    rewrite (set_grounded_same s true) by congruence.
    apply set_grounded_same. congruence.
  - fields. repeat split; reflexivity.
Qed.

(** ** Pausing *)

Lemma exec_paused (fuel : nat) (c : Command) (s : State) :
  state s = paused -> gameplay c = true -> exec fuel c s = Some s.
Proof.
  intros Hst Hc. destruct c; try discriminate; simpl;
    unfold update, move, rotate, hardDrop, tapSoftDrop, hold; rewrite Hst; reflexivity.
Qed.

Lemma run_paused (fuel : nat) (cs : list Command) (s : State) :
  state s = paused -> forallb gameplay cs = true -> run fuel cs s = Some s.
Proof.
  intros Hst. induction cs as [|c rest IH]; simpl; [reflexivity|].
  intros H. apply andb_true_iff in H. destruct H as [Hc Hrest].
  rewrite (exec_paused fuel c s Hst Hc). cbn [mbind option_bind]. auto.
Qed.

Lemma run_app (fuel : nat) (cs cs' : list Command) (s : State) :
  run fuel (cs ++ cs') s = (s' ← run fuel cs s; run fuel cs' s').
Proof.
  revert s. induction cs as [|c rest IH]; intros s; simpl; [reflexivity|].
  destruct (exec fuel c s) as [s1|]; cbn [mbind option_bind]; auto.
Qed.

(** X13. Pausing a playing game, sending any number of gameplay commands
    (frames, moves, rotations, drops, holds) and resuming leaves the game
    exactly as it was, but for the soft-drop flag, which the pause lowers:
    the timers, the piece and the score are untouched. *)
Theorem pause_freezes_the_game (fuel : nat) (cs : list Command) (s : State) :
  state s = playing -> forallb gameplay cs = true ->
  run fuel (CTogglePause :: cs ++ [CTogglePause]) s = Some (set_softDropActive false s).
Proof.
  intros Hst Hcs. cbn [run exec]. cbn [mbind option_bind].
  rewrite run_app.
  assert (Hp : state (togglePause s) = paused)
    by (unfold togglePause; rewrite Hst; reflexivity).
  rewrite (run_paused fuel cs _ Hp Hcs). cbn [mbind option_bind run exec].
  unfold togglePause at 1. rewrite Hp. unfold togglePause. rewrite Hst.
  destruct s. simpl in Hst. subst. reflexivity.
Qed.

(** ** What the commands leave alone *)

Lemma rotateKicks_frame (a : ActivePiece) (toRotation : Z) (kicks : list (Z * Z))
  (s : State) :
  let s' := rotateKicks a toRotation kicks s in
  board s' = board s /\ lines s' = lines s /\ level s' = level s /\
  combo s' = combo s /\ backToBack s' = backToBack s /\
  gravityInterval s' = gravityInterval s /\ score s' = score s /\
  holdPiece s' = holdPiece s /\ state s' = state s.
Proof.
  induction kicks as [|[offsetX offsetY] rest IH]; simpl; [repeat split|].
  destruct (collides _ _ _ _ _); simpl; [exact IH | repeat split].
Qed.

Ltac settle := repeat split; intros; first [assumption | reflexivity | congruence].

(** X14. The commands that never lock a piece (moves, rotations, the soft
    drop tap and switch, hold, pause) never change the board, the lines,
    the level, the combo, the back-to-back chain or the gravity interval;
    only the soft drop tap can change the score. *)
Theorem lock_free_commands_keep_the_board (fuel : nat) (c : Command) (s s' : State) :
  lockFree c = true -> exec fuel c s = Some s' ->
  board s' = board s /\ lines s' = lines s /\ level s' = level s /\
  combo s' = combo s /\ backToBack s' = backToBack s /\
  gravityInterval s' = gravityInterval s /\
  (c <> CTapSoftDrop -> score s' = score s).
Proof.
  intros Hc H.
  destruct c as [|delta|direction|clockwise| | |on| |]; try discriminate; simpl in H.
  - injection H as <-. unfold move.
    destruct (negb (is_playing (state s))); [settle|].
    destruct (tryMove_frame direction 0 s)
      as (Hb & _ & _ & _ & _ & Hg & _ & _ & Hsc & Hlv & Hl & Hco & Hbb & _).
    cbv zeta in Hb, Hg, Hsc, Hlv, Hl, Hco, Hbb.
    destruct (fst (tryMove direction 0 s)); fields; settle.
  - injection H as <-. unfold rotate.
    destruct (negb (is_playing (state s))); [settle|].
    destruct (active s) as [a|]; [|settle].
    match goal with
    | |- context [rotateKicks a ?r ?k s] =>
        destruct (rotateKicks_frame a r k s)
          as (Hb & Hl & Hlv & Hco & Hbb & Hg & Hsc & _)
    end.
    cbv zeta in Hb, Hl, Hlv, Hco, Hbb, Hg, Hsc. cbv zeta.
    settle.
  - injection H as <-. unfold tapSoftDrop.
    destruct (negb (is_playing (state s))); [settle|].
    destruct (tryMove_frame 0 1 s)
      as (Hb & _ & _ & _ & _ & Hg & _ & _ & Hsc & Hlv & Hl & Hco & Hbb & _).
    cbv zeta in Hb, Hg, Hsc, Hlv, Hl, Hco, Hbb.
    destruct (fst (tryMove 0 1 s)); fields; settle.
  - injection H as <-. unfold setSoftDrop.
    destruct (Bool.eqb (softDropActive s) on); [settle|].
    destruct on; settle.
  - unfold hold in H.
    destruct (negb (is_playing (state s)) || negb (canHold s));
      [injection H as <-; settle|].
    destruct (active s) as [a|]; [|injection H as <-; settle].
    destruct (holdPiece s) as [t|]; cbv zeta in H.
    + destruct (collides _ _ _ _ _) in H; injection H as <-; settle.
    + destruct (spawnNextPiece_spec _ _ _ H)
        as (t & _ & Hb & _ & Hsc & Hlv & Hl & Hco & Hbb & Hg & _).
      fields in Hb. fields in Hsc. fields in Hlv. fields in Hl. fields in Hco.
      fields in Hbb. fields in Hg. settle.
  - injection H as <-. unfold togglePause. destruct (state s); settle.
Qed.

(** [lockPiece] leaves the hold slot alone. *)
Lemma lockPiece_holdPiece (fuel : nat) (s s' : State) :
  lockPiece fuel s = Some s' -> holdPiece s' = holdPiece s.
Proof.
  intros H. destruct (active s) as [a|] eqn:Ha;
    [|unfold lockPiece in H; rewrite Ha in H; injection H as <-; reflexivity].
  rewrite (lockPiece_unfold fuel s a Ha) in H. cbv zeta in H.
  destruct (snd (stampRows _ _ _ _ _ _)); [injection H as <-; reflexivity|].
  destruct (clearLines _ _) as [r|]; cbn [mbind option_bind] in H; [|discriminate].
  destruct (is_playing (state s)).
  - destruct (spawnNextPiece_spec _ _ _ H) as (t & _ & _ & Hh & _).
    rewrite Hh. apply afterLock_fields.
  - injection H as <-. apply afterLock_fields.
Qed.

(** X15. The hold slot changes under two commands only: [reset] empties
    it, and [hold], in the playing phase with holding allowed, puts the type
    of the active piece in it.  So once a piece is held the slot is never
    empty again before the next [reset]. *)
Theorem hold_slot_changes_by_hold_only (fuel : nat) (c : Command) (s s' : State) :
  c <> CReset -> exec fuel c s = Some s' ->
  getHold s' = getHold s \/
  (c = CHold /\ state s = playing /\ canHold s = true /\
   exists a : ActivePiece, active s = Some a /\ getHold s' = Some (p_type a)).
Proof.
  intros Hc H. unfold getHold.
  destruct c as [|delta|direction|clockwise| | |on| |]; simpl in H; [congruence|..].
  - left. unfold update in H.
    destruct (negb (is_playing (state s)) || negb (is_some (active s)));
      [injection H as <-; reflexivity|].
    cbv zeta in H.
    destruct (active s) as [a|] eqn:Ha.
    2:{ destruct fuel; simpl in H; rewrite Ha in H; rewrite andb_false_r in H;
        cbn [mbind option_bind] in H; fields in H; rewrite Ha in H;
        rewrite andb_false_r in H; injection H as <-; reflexivity. }
    match type of H with
    | context [gravityLoop fuel ?i ?s1] =>
        destruct (gravityLoop fuel i s1) as [s2|] eqn:Hloop;
        cbn [mbind option_bind] in H; [|discriminate];
        destruct (gravityLoop_spec i fuel s1 s2 a Ha Hloop) as (k & failed & Hout)
    end.
    destruct Hout as (_ & _ & _ & _ & _ & _ & _ & _ & _ & _ & _ & Hh & _).
    fields in Hh.
    destruct (grounded s2 && is_some (active s2)); [|injection H as <-; exact Hh].
    destruct (Qle_bool _ _) in H; [|injection H as <-; exact Hh].
    apply lockPiece_holdPiece in H. rewrite H. exact Hh.
  - left. injection H as <-. unfold move.
    destruct (negb (is_playing (state s))); [reflexivity|].
    destruct (tryMove_frame direction 0 s) as (_ & _ & Hh & _). cbv zeta in Hh.
    destruct (fst (tryMove direction 0 s)); exact Hh.
  - left. injection H as <-. unfold rotate.
    destruct (negb (is_playing (state s))); [reflexivity|].
    destruct (active s) as [a|]; [|reflexivity]. cbv zeta.
    apply rotateKicks_frame.
  - left. unfold hardDrop in H.
    destruct (negb (is_playing (state s))); [injection H as <-; reflexivity|].
    destruct (active s) as [a|]; [|injection H as <-; reflexivity].
    destruct (getDropDistance fuel s) as [d|]; cbn [mbind option_bind] in H;
      [|discriminate].
    destruct (d <=? 0); [injection H as <-; reflexivity|].
    apply lockPiece_holdPiece in H. exact H.
  - left. injection H as <-. unfold tapSoftDrop.
    destruct (negb (is_playing (state s))); [reflexivity|].
    destruct (tryMove_frame 0 1 s) as (_ & _ & Hh & _). cbv zeta in Hh.
    destruct (fst (tryMove 0 1 s)); exact Hh.
  - left. injection H as <-. unfold setSoftDrop.
    destruct (Bool.eqb (softDropActive s) on); [reflexivity|]. destruct on; reflexivity.
  - unfold hold in H.
    destruct (state s) eqn:Hst; cbn [is_playing negb orb] in H;
      [|left; injection H as <-; reflexivity..].
    destruct (canHold s) eqn:Hcan; cbn [negb] in H;
      [|left; injection H as <-; reflexivity].
    destruct (active s) as [a|] eqn:Ha; [|left; injection H as <-; reflexivity].
    right. split; [reflexivity|]. split; [reflexivity|]. split; [reflexivity|].
    exists a. split; [reflexivity|].
    destruct (holdPiece s) as [t|]; cbv zeta in H.
    + destruct (collides _ _ _ _ _) in H; injection H as <-; reflexivity.
    + destruct (spawnNextPiece_spec _ _ _ H) as (t & _ & _ & Hh & _). exact Hh.
  - left. injection H as <-. unfold togglePause. destruct (state s); reflexivity.
Qed.

(** ** Line clearing, again *)

Lemma withoutFullRows_fixed (b : list (list BoardCell)) :
  noFullRows b -> withoutFullRows b = b /\ fullRows b = 0%nat.
Proof.
  unfold noFullRows, withoutFullRows, fullRows. induction 1 as [|r rest Hr _ IH]; simpl.
  - split; reflexivity.
  - rewrite Hr. simpl. destruct IH as [IH1 IH2]. rewrite IH2 in *. simpl in *.
    now rewrite IH1.
Qed.

(** X16. Whatever the fuel, when [clearLines] returns on a board of the
    engine, the result is again a board of the engine, none of its rows is
    full, the count is at most TOTAL_ROWS, and clearing the result once more
    changes nothing and counts 0. *)
Theorem clearLines_leaves_nothing_to_clear (fuel : nat) (b b' : Board) (n : Z) :
  board_ok b -> clearLines fuel b = Some (b', n) ->
  board_ok b' /\ noFullRows b' /\ 0 <= n <= TOTAL_ROWS /\
  forall fuel' : nat,
    (2 * Z.to_nat TOTAL_ROWS <= fuel')%nat -> clearLines fuel' b' = Some (b', 0).
Proof.
  intros Hok H. apply (clearLines_result fuel b _ (proj1 Hok)) in H.
  injection H as -> ->.
  pose proof (board_ok_withoutFullRows b Hok) as Hok'.
  pose proof (noFullRows_withoutFullRows b) as Hnf.
  split; [exact Hok'|]. split; [exact Hnf|]. split.
  - pose proof (fullRows_le_length b) as Hle. destruct Hok as [Hlen _].
    rewrite Hlen in Hle. unfold TOTAL_ROWS in *. lia.
  - intros fuel' Hfuel.
    rewrite (clearLines_returns fuel' _ (proj1 Hok') Hfuel).
    destruct (withoutFullRows_fixed _ Hnf) as [-> ->]. reflexivity.
Qed.

(** ** A fresh game and its queue *)

Lemma refillLoop_unfold (fuel : nat) (q : list PieceType) (calls : nat) :
  refillLoop fuel q calls =
  if (length q <? 7)%nat then
    match fuel with
    | O => None
    | S fuel' =>
        refillLoop fuel' (q ++ fst (shuffle PIECE_TYPES calls))
          (snd (shuffle PIECE_TYPES calls))
    end
  else Some (q, calls).
Proof. destruct fuel; reflexivity. Qed.

Lemma refillLoop_length (fuel : nat) :
  length PIECE_TYPES = 7%nat ->
  forall (q : list PieceType) (calls : nat) (r : list PieceType * nat),
    refillLoop fuel q calls = Some r ->
    (length (fst r) <= Nat.max (length q) 13)%nat.
Proof.
  intros Hseven. induction fuel as [|fuel IH]; intros q calls r H;
    rewrite refillLoop_unfold in H;
    (destruct (length q <? 7)%nat eqn:E; [|injection H as <-; simpl; lia]).
  - discriminate.
  - apply Nat.ltb_lt in E. apply IH in H.
    rewrite length_app, (Permutation_length (shuffle_Permutation PIECE_TYPES calls)),
      Hseven in H. lia.
Qed.

(** On the empty queue [refillLoop] appends one bag and stops. *)
Lemma refillLoop_empty (fuel : nat) (calls : nat) (r : list PieceType * nat) :
  length PIECE_TYPES = 7%nat ->
  refillLoop fuel [] calls = Some r -> r = shuffle PIECE_TYPES calls.
Proof.
  intros Hseven H. rewrite refillLoop_unfold in H. cbn [length Nat.ltb Nat.leb] in H.
  destruct fuel as [|fuel]; [discriminate|].
  rewrite refillLoop_full in H.
  - injection H as <-. now destruct (shuffle PIECE_TYPES calls).
  - cbn [app]. now rewrite (Permutation_length (shuffle_Permutation PIECE_TYPES calls)), Hseven.
Qed.

(** The state left by a [reset] that returned. *)
Lemma reset_result (fuel : nat) (s s' : State) :
  length PIECE_TYPES = 7%nat -> reset fuel s = Some s' ->
  getBoard s' = createBoard /\
  getStats s' = mkStats 0 1 0 (-1) 0 (state s') /\
  getHold s' = None /\ canHold s' = true /\
  gravityInterval s' = (1000 # 1)%Q /\
  length (queue s') = 6%nat /\
  exists t : PieceType,
    t :: queue s' = fst (shuffle PIECE_TYPES (randomCalls s)) /\
    randomCalls s' = snd (shuffle PIECE_TYPES (randomCalls s)) /\
    (active s' = Some (createPiece t) /\ state s' = playing \/
     active s' = None /\ state s' = over).
Proof.
  intros Hseven H. unfold reset in H.
  set (s0 := mkState _ _ _ _ _ _ _ _ _ _ _ _ _ _ _ _ _) in H.
  destruct (refillQueue fuel s0) as [s1|] eqn:Hr; cbn [mbind option_bind] in H;
    [|discriminate].
  destruct (refillQueue_spec _ _ _ Hr) as (Hrefill & _ & Hs1).
  apply (refillLoop_empty fuel _ _ Hseven) in Hrefill.
  destruct (spawnNextPiece_spec _ _ _ H)
    as (t & Hdq & Hb & Hh & Hsc & Hlv & Hl & Hco & Hbb & Hg & _ & _ & _ & Hcan & Hact).
  assert (Hst1 : state s1 = playing) by (rewrite Hs1; reflexivity).
  rewrite Hs1 in Hb, Hh, Hsc, Hlv, Hl, Hco, Hbb, Hg.
  fields in Hb. fields in Hh. fields in Hsc. fields in Hlv. fields in Hl.
  fields in Hco. fields in Hbb. fields in Hg.
  pose proof (Permutation_length (shuffle_Permutation PIECE_TYPES (randomCalls s)))
    as Hlen.
  rewrite Hseven in Hlen.
  unfold dequeue, queueOf in Hdq. cbn [fst snd] in Hdq.
  rewrite refillLoop_full in Hdq
    by (change (randomCalls s0) with (randomCalls s) in Hrefill;
        rewrite <- Hrefill in Hlen; simpl in Hlen; lia).
  cbn [mbind option_bind fst snd] in Hdq.
  change (randomCalls s0) with (randomCalls s) in Hrefill.
  rewrite <- Hrefill in Hlen |- *. cbn [fst snd] in Hlen |- *.
  destruct (queue s1) as [|t0 rest]; [discriminate|].
  injection Hdq as -> Hq Hcalls.
  unfold getBoard, getStats, getHold.
  split; [exact Hb|]. split; [now rewrite Hsc, Hlv, Hl, Hco, Hbb|].
  split; [exact Hh|]. split; [exact Hcan|]. split; [exact Hg|].
  split; [rewrite <- Hq; simpl in Hlen; lia|].
  exists t. split; [now rewrite <- Hq|]. split; [now rewrite <- Hcalls|].
  cbv zeta in Hact.
  destruct (collides _ _ _ _ _) in Hact; [right; exact Hact|].
  left. destruct Hact as (Ha & Hst & _). split; [exact Ha|].
  now rewrite Hst.
Qed.

(** X17. [reset] returns and starts afresh whatever the state it is called
    in: an empty
    board, score 0, level 1, no lines, combo -1, no back-to-back chain, an
    empty hold slot with holding allowed, the slowest gravity.  One bag is
    shuffled: its first piece is the active piece (or the game is over if
    it has no room) and the six others are the queue. *)
Theorem reset_starts_afresh (fuel : nat) (s : State) :
  catalog_ok -> (1 <= fuel)%nat ->
  exists s' : State,
    reset fuel s = Some s' /\
    getBoard s' = createBoard /\
    getStats s' = mkStats 0 1 0 (-1) 0 (state s') /\
    getHold s' = None /\ canHold s' = true /\
    gravityInterval s' = (1000 # 1)%Q /\
    length (queue s') = 6%nat /\
    exists t : PieceType,
      t :: queue s' = fst (shuffle PIECE_TYPES (randomCalls s)) /\
      randomCalls s' = snd (shuffle PIECE_TYPES (randomCalls s)) /\
      (active s' = Some (createPiece t) /\ state s' = playing \/
       active s' = None /\ state s' = over).
Proof.
  intros Hcat Hfuel.
  destruct (reset_returns Hcat fuel s Hfuel) as [s' Hrun].
  exists s'. split; [exact Hrun|].
  exact (reset_result fuel s s' (PIECE_TYPES_seven Hcat) Hrun).
Qed.

Lemma dequeue_length (fuel : nat) (q q' : list PieceType) (c c' : nat) (t : PieceType) :
  length PIECE_TYPES = 7%nat -> (length q <= 12)%nat ->
  dequeue fuel (q, c) = Some (t, (q', c')) ->
  (6 <= length q' <= 12)%nat.
Proof.
  intros Hseven Hq H. unfold dequeue in H. cbn [fst snd] in H.
  destruct (refillLoop fuel q c) as [r|] eqn:Hr; cbn [mbind option_bind] in H;
    [|discriminate].
  pose proof (refillLoop_length fuel Hseven _ _ _ Hr) as Hmax.
  destruct (refillLoop_bags _ _ _ _ Hr) as (_ & _ & _ & _ & Hmin).
  destruct (fst r) as [|t0 rest]; [discriminate|].
  injection H as _ <- _. simpl in Hmax, Hmin. lia.
Qed.

(** X18. In every state of a game the queue holds at least six and at most
    twelve pieces: a bag of seven is appended only when fewer than seven
    are left, and a spawn takes one. *)
Theorem queue_holds_six_to_twelve (s : State) :
  length PIECE_TYPES = 7%nat -> reachable s ->
  (6 <= length (queue s) <= 12)%nat.
Proof.
  intros Hseven Hr.
  induction Hr as [fuel s H | fuel c s s' Hr IH H].
  - unfold newGame in H. destruct (reset_Invariant _ _ _ H) as (_ & _ & t & Hdq).
    unfold queueOf in Hdq. apply (dequeue_length fuel _ _ _ _ _ Hseven) in Hdq;
      [exact Hdq | simpl; lia].
  - assert (Hstep : queue_step fuel (queueOf s) (queueOf s') \/
                    exists t, dequeue fuel ([], randomCalls s) = Some (t, queueOf s')).
    { assert (Hc : c = CReset \/ c <> CReset) by (destruct c; auto; right; discriminate).
      destruct Hc as [-> | Hc].
      - right. simpl in H. now apply reset_Invariant in H.
      - left. apply (exec_step fuel c s s' Hc (reachable_Invariant s Hr) H). }
    destruct Hstep as [[Hsame | [t Hdq]] | [t Hdq]].
    + unfold queueOf in Hsame. injection Hsame as -> _. exact IH.
    + unfold queueOf in Hdq. apply (dequeue_length fuel _ _ _ _ _ Hseven) in Hdq;
        [exact Hdq | lia].
    + unfold queueOf in Hdq. apply (dequeue_length fuel _ _ _ _ _ Hseven) in Hdq;
        [exact Hdq | simpl; lia].
Qed.

(** ** The listeners of main.ts *)

(** One [case] label after the other: either the code is the label, and
    every other test is decided by computation, or the test is false. *)
Ltac split_on_code code :=
  repeat match goal with
         | |- context [String.eqb code ?k] =>
             let E := fresh "E" in
             destruct (String.eqb code k) eqn:E;
             [apply String.eqb_eq in E; subst code; cbn|]
         end.

(** X19. The [keydown] listener calls [preventDefault] exactly for the
    arrows left, right and down, Space, P and Escape, and for a first press
    (not an auto-repeat) of a rotation or hold key; when it does not, it
    makes no call on the game.  In particular its [default] branch never
    does anything: every code accepted by [isRotationKey] or [isHoldKey]
    has a [case] of its own. *)
Theorem keydown_prevents_named_keys_only (event : KeyboardEvent) (s : State) :
  (snd (keydown event s) = true <->
   noKey event = false /\
   (includes [Keys.ArrowLeft; Keys.ArrowRight; Keys.ArrowDown; Keys.Space;
              Keys.KeyP; Keys.Escape] (e_code event) = true \/
    e_repeat event = false /\
    isRotationKey (e_code event) || isHoldKey (e_code event) = true)) /\
  (snd (keydown event s) = false -> fst (keydown event s) = []).
Proof.
  destruct event as [key code rep].
  unfold keydown, isRotationKey, isHoldKey, includes. cbn [e_code e_repeat existsb].
  destruct (noKey (mkKey key code rep)).
  { cbn. split; [|reflexivity]. split; [discriminate | intros [H _]; discriminate]. }
  split_on_code code; cbn;
    destruct rep; try destruct (state s); cbn;
    (split; [split; [intros H; try discriminate; split; auto | intros [_ [H | [H1 H2]]]; congruence]
            | intros H; try discriminate; reflexivity]).
Qed.

(** X20. P and Escape are [togglePause], in every phase: the test of the
    listener for the phase over only repeats the one that [togglePause]
    makes itself.  An auto-repeated ArrowDown leaves a game whose soft
    drop is on exactly as it is: the early return of [setSoftDrop] keeps
    the gravity timer from being restarted at every repeat.  And releasing
    ArrowDown leaves the soft drop off and the gravity timer as it was. *)
Theorem pause_key_and_held_arrow_down (fuel : nat) (event : KeyboardEvent) (s : State) :
  noKey event = false ->
  (includes [Keys.KeyP; Keys.Escape] (e_code event) = true ->
   run fuel (fst (keydown event s)) s = Some (togglePause s)) /\
  (e_code event = Keys.ArrowDown -> e_repeat event = true ->
   softDropActive s = true ->
   run fuel (fst (keydown event s)) s = Some s) /\
  (e_code event = Keys.ArrowDown ->
   exists s' : State,
     run fuel (fst (keyup event)) s = Some s' /\
     softDropActive s' = false /\ gravityTimer s' = gravityTimer s).
Proof.
  intros Hkey. destruct event as [key code rep].
  unfold keydown, keyup. rewrite Hkey. cbn [e_code e_repeat].
  split; [|split].
  - unfold includes. cbn [existsb]. intros H.
    apply orb_true_iff in H. rewrite orb_false_r in H.
    destruct H as [H | H]; apply String.eqb_eq in H; subst code; cbn;
      unfold togglePause; destruct (state s) eqn:Hst; cbn [run exec mbind option_bind];
      unfold togglePause; rewrite ?Hst; reflexivity.
  - intros -> -> Hsoft. cbn. cbn [run exec mbind option_bind].
    unfold setSoftDrop. rewrite Hsoft. reflexivity.
  - intros ->. cbn. cbn [run exec mbind option_bind]. eexists. split; [reflexivity|].
    unfold setSoftDrop. destruct (softDropActive s) eqn:Hsoft; cbn; auto.
Qed.

Lemma update_idle (fuel : nat) (delta : Q) (s : State) :
  state s <> playing -> update fuel delta s = Some s.
Proof.
  intros Hst. unfold update. destruct (state s); [congruence|reflexivity..].
Qed.

(** X21. When the page is hidden the [visibilitychange] listener leaves a
    game that is not playing: a playing game is paused, with the soft drop
    off, and any other game is left as it is.  From then on the frames of
    the animation loop, whatever their time step, do not change the game. *)
Theorem hidden_page_freezes_the_game (fuel : nat) (s : State) :
  exists s' : State,
    run fuel (visibilitychange true s) s = Some s' /\
    state s' <> playing /\
    s' = (if is_playing (state s) then set_softDropActive false (set_state paused s)
          else s) /\
    forall (deltas : list Q), run fuel (map CUpdate deltas) s' = Some s'.
Proof.
  assert (Hidle : forall (s' : State), state s' <> playing ->
            forall deltas : list Q, run fuel (map CUpdate deltas) s' = Some s').
  { intros s' Hst deltas. induction deltas as [|delta rest IH]; [reflexivity|].
    cbn [map run exec]. rewrite (update_idle fuel delta s' Hst).
    cbn [mbind option_bind]. exact IH. }
  unfold visibilitychange. cbn [st_state getStats].
  destruct (state s) eqn:Hst; cbn [run exec mbind option_bind is_playing].
  - unfold togglePause. rewrite Hst. eexists. split; [reflexivity|].
    split; [discriminate|]. split; [reflexivity|]. apply Hidle. discriminate.
  - exists s. split; [reflexivity|]. split; [congruence|]. split; [reflexivity|].
    apply Hidle. congruence.
  - exists s. split; [reflexivity|]. split; [congruence|]. split; [reflexivity|].
    apply Hidle. congruence.
Qed.

(** ** Drawing the board (renderer.ts) *)

Lemma unblocked_in_range (b : list (list BoardCell)) (X Y : Z) :
  ~ blocked b X Y ->
  0 <= X < COLS /\ Y < TOTAL_ROWS /\ (0 <= Y -> cellAt b Y X = None).
Proof.
  unfold blocked. intros H.
  assert (H1 : ~ X < 0) by tauto. assert (H2 : ~ X >= COLS) by tauto.
  assert (H3 : ~ Y >= TOTAL_ROWS) by tauto.
  split; [lia|]. split; [lia|]. intros HY.
  destruct (cellAt b Y X) eqn:E; [|reflexivity].
  exfalso. apply H. right. right. right. split; [lia | congruence].
Qed.

Lemma active_cells_free (s : State) :
  reachable s ->
  forall c : Cell, In c (getActiveCells s) -> ~ blocked (board s) (c_x c) (c_y c).
Proof.
  intros Hr. destruct (reachable_tidy s Hr) as [Hp _]. unfold getActiveCells.
  destruct (active s) as [a|] eqn:Ha; [|intros c []].
  apply listed_cells_free. apply (Hp a Ha).
Qed.

Lemma in_pieceCalls (ghost : bool) (cells : list Cell) (d : DrawCall) :
  In d (pieceCalls ghost cells) <->
  exists c : Cell,
    In c cells /\ 0 <= c_y c - HIDDEN_ROWS < VISIBLE_ROWS /\
    d = mkDraw (c_x c) (c_y c - HIDDEN_ROWS) (c_type c) ghost.
Proof.
  unfold pieceCalls. rewrite in_flat_map. split.
  - intros [c [Hin Hd]]. exists c. split; [exact Hin|]. cbv zeta in Hd.
    destruct (c_y c - HIDDEN_ROWS <? 0) eqn:E1;
      destruct (c_y c - HIDDEN_ROWS >=? VISIBLE_ROWS) eqn:E2; simpl in Hd;
      try contradiction.
    destruct Hd as [<- | []]. split; [|reflexivity].
    apply Z.ltb_ge in E1. rewrite Z.geb_leb in E2. apply Z.leb_gt in E2. lia.
  - intros [c [Hin [Hy ->]]]. exists c. split; [exact Hin|]. cbv zeta.
    replace (c_y c - HIDDEN_ROWS <? 0) with false by (symmetry; apply Z.ltb_ge; lia).
    replace (c_y c - HIDDEN_ROWS >=? VISIBLE_ROWS) with false
      by (symmetry; rewrite Z.geb_leb; apply Z.leb_gt; lia).
    left. reflexivity.
Qed.

Lemma in_settledCalls (b : list (list BoardCell)) (d : DrawCall) :
  In d (settledCalls b) <->
  exists (row col : Z) (t : PieceType),
    0 <= row < VISIBLE_ROWS /\ 0 <= col < COLS /\
    cellAt b (row + HIDDEN_ROWS) col = Some t /\ d = mkDraw col row t false.
Proof.
  unfold settledCalls. rewrite in_flat_map. split.
  - intros [row [Hrow Hd]]. cbv zeta in Hd. rewrite in_flat_map in Hd.
    destruct Hd as [col [Hcol Hd]].
    rewrite <- list_elem_of_In, elem_of_seqZ in Hrow, Hcol.
    destruct (cellAt b (row + HIDDEN_ROWS) col) as [t|] eqn:E; [|contradiction].
    destruct Hd as [<- | []]. exists row, col, t. repeat split; auto; lia.
  - intros (row & col & t & Hrow & Hcol & Hcell & ->).
    exists row. split; [rewrite <- list_elem_of_In, elem_of_seqZ; lia|].
    cbv zeta. rewrite in_flat_map. exists col.
    split; [rewrite <- list_elem_of_In, elem_of_seqZ; lia|].
    rewrite Hcell. left. reflexivity.
Qed.

(** X22. With enough fuel [drawBoard] gets through, in every state of a
    game.  Its calls of [drawCell] are, in this order: the settled cells of
    the visible rows; the cells that [getGhostCells] returns, which are the
    active cells moved down by the drop distance, under the ghost
    transparency; the active cells.  Every call is inside the canvas grid
    of COLS columns and VISIBLE_ROWS rows, and the cells of the ghost and
    of the piece that are drawn lie on empty cells of the board, so no
    settled cell is painted over. *)
Theorem drawBoard_stays_on_the_canvas (fuel : nat) (s : State) :
  catalog_ok -> reachable s -> (fuelFor s <= fuel)%nat ->
  exists (d : Z) (cells : list Cell) (calls : list DrawCall),
    getDropDistance fuel s = Some d /\
    getGhostCells fuel s = Some cells /\
    cells = map (shiftDown d) (getActiveCells s) /\
    drawBoard fuel s = Some calls /\
    calls = settledCalls (board s) ++ pieceCalls true cells ++
            pieceCalls false (getActiveCells s) /\
    (forall c : DrawCall, In c calls ->
       0 <= d_x c < COLS /\ 0 <= d_y c < VISIBLE_ROWS) /\
    (forall c : DrawCall,
       In c (pieceCalls true cells ++ pieceCalls false (getActiveCells s)) ->
       cellAt (board s) (d_y c + HIDDEN_ROWS) (d_x c) = None).
Proof.
  intros Hcat Hr Hfuel.
  assert (Hg : exists (d : Z) (cells : list Cell),
            getDropDistance fuel s = Some d /\
            getGhostCells fuel s = Some cells /\
            cells = map (shiftDown d) (getActiveCells s) /\
            forall c, In c cells -> ~ blocked (board s) (c_x c) (c_y c)).
  { unfold getGhostCells, getDropDistance, getActiveCells.
    destruct (active s) as [a|] eqn:Ha.
    - destruct (ghost_position fuel s a Hcat Hr Hfuel Ha) as (d & Hd & _ & Hat & _).
      rewrite Hd. cbn [mbind option_bind]. exists d. eexists.
      split; [reflexivity|]. split; [reflexivity|].
      split; [apply cellsRows_shift|]. now apply listed_cells_free.
    - exists 0, []. repeat split. intros c []. }
  destruct Hg as (d & cells & Hdrop & Hghost & Hshift & Hfree).
  pose proof (active_cells_free s Hr) as Hactive.
  assert (Hpiece : forall (g : bool) (l : list Cell) (c : DrawCall),
            (forall c0, In c0 l -> ~ blocked (board s) (c_x c0) (c_y c0)) ->
            In c (pieceCalls g l) ->
            (0 <= d_x c < COLS /\ 0 <= d_y c < VISIBLE_ROWS) /\
            cellAt (board s) (d_y c + HIDDEN_ROWS) (d_x c) = None).
  { intros g l c Hl Hc. apply in_pieceCalls in Hc. destruct Hc as (c0 & Hin & Hy & ->).
    cbn [d_x d_y].
    destruct (unblocked_in_range _ _ _ (Hl c0 Hin)) as (Hx & _ & Hcell).
    split; [split; assumption|].
    replace (c_y c0 - HIDDEN_ROWS + HIDDEN_ROWS) with (c_y c0) by lia.
    apply Hcell. unfold HIDDEN_ROWS, TOTAL_ROWS, VISIBLE_ROWS in *. lia. }
  exists d, cells,
    (settledCalls (board s) ++ pieceCalls true cells ++
     pieceCalls false (getActiveCells s)).
  split; [exact Hdrop|]. split; [exact Hghost|]. split; [exact Hshift|].
  split; [unfold drawBoard; rewrite Hghost; reflexivity|].
  split; [reflexivity|]. split.
  - intros c Hc. rewrite !in_app_iff in Hc. destruct Hc as [Hc | [Hc | Hc]].
    + apply in_settledCalls in Hc. destruct Hc as (row & col & t & Hrow & Hcol & _ & ->).
      cbn [d_x d_y]. split; assumption.
    + apply (Hpiece true cells c Hfree Hc).
    + apply (Hpiece false _ c Hactive Hc).
  - intros c Hc. rewrite in_app_iff in Hc. destruct Hc as [Hc | Hc].
    + apply (Hpiece true cells c Hfree Hc).
    + apply (Hpiece false _ c Hactive Hc).
Qed.

End Engine.

(** * The engine on concrete inputs

    The sample catalog, the random source that always answers 1/2 (first
    bag I J O Z T L S) and the one that always answers 0 (first bag
    O T S Z J L I); the timers are added and subtracted as doubles. *)

Abbreviation s_exec :=
  (exec sample_PIECE_TYPES sample_SHAPES sample_kicks sample_random
     double_add double_sub).
Abbreviation s_play :=
  (play sample_PIECE_TYPES sample_SHAPES sample_kicks sample_random
     double_add double_sub).
Abbreviation s_reachable :=
  (reachable sample_PIECE_TYPES sample_SHAPES sample_kicks sample_random
     double_add double_sub).
Abbreviation s_hold := (hold sample_PIECE_TYPES sample_SHAPES sample_random).
Abbreviation s_update :=
  (update sample_PIECE_TYPES sample_SHAPES sample_random double_add double_sub).
Abbreviation s_hardDrop := (hardDrop sample_PIECE_TYPES sample_SHAPES sample_random).
Abbreviation s_collides := (collides sample_SHAPES).

Ltac find_cell :=
  first [ exists 0%nat, 0%nat; reflexivity | exists 0%nat, 1%nat; reflexivity
        | exists 0%nat, 2%nat; reflexivity | exists 1%nat, 0%nat; reflexivity
        | exists 1%nat, 1%nat; reflexivity | exists 1%nat, 2%nat; reflexivity
        | exists 2%nat, 0%nat; reflexivity | exists 2%nat, 1%nat; reflexivity ].

Lemma sample_catalog_ok : catalog_ok sample_PIECE_TYPES sample_SHAPES.
Proof.
  split; [apply Permutation_refl|].
  intros t r Hr.
  assert (Hcases : r = 0 \/ r = 1 \/ r = 2 \/ r = 3) by lia.
  unfold occupiedSomewhere.
  destruct t; destruct Hcases as [-> | [-> | [-> | ->]]]; find_cell.
Qed.

Lemma sample_random_range (n : nat) :
  (0 <= sample_random n)%Q /\ (sample_random n < 1)%Q.
Proof. unfold sample_random. split; [discriminate | reflexivity]. Qed.

Lemma sample_start_new :
  newGame sample_PIECE_TYPES sample_SHAPES sample_random 50 = Some sample_start.
Proof. vm_compute. reflexivity. Qed.

Lemma sample_start_reachable : s_reachable sample_start.
Proof. apply (reach_new _ _ _ _ _ _ 50%nat). exact sample_start_new. Qed.

Example collides_wall : s_collides createBoard tT (-1) 5 0 = true.
Proof. reflexivity. Qed.

Example collides_above_top : s_collides createBoard tT 3 (-5) 0 = false.
Proof. reflexivity. Qed.

Example collides_floor : s_collides createBoard tO 3 21 0 = true.
Proof. reflexivity. Qed.

(** ** C5 on a board with two full rows that are not neighbours *)

Lemma clearLines_two_full_rows :
  length two_full_rows = Z.to_nat TOTAL_ROWS /\
  (2 * Z.to_nat TOTAL_ROWS <= 44)%nat /\
  clearLines 44 two_full_rows =
    Some (two_rows_cleared, 2).
Proof.
  split; [reflexivity|]. split; [apply le_n|].
  destruct (clearLines_removes_full_rows 44 two_full_rows eq_refl (le_n _)) as [H _].
  exact H.
Defined.

(** ** C6 on a second 4-line clear at level 2 *)

Lemma handleLineScoring_second_tetris :
  1 <= 4 <= 4 /\ -1 <= combo after_tetris /\
  score (handleLineScoring 4 after_tetris) = 1000 + 2400 + 100 /\
  combo (handleLineScoring 4 after_tetris) = 1 /\
  backToBack (handleLineScoring 4 after_tetris) = 2.
Proof.
  assert (Hn : 1 <= 4 <= 4) by (split; discriminate).
  assert (Hc : -1 <= combo after_tetris) by discriminate.
  split; [exact Hn|]. split; [exact Hc|].
  destruct (handleLineScoring_clear 4 after_tetris Hn Hc) as [(H1 & H2 & H3 & _) _].
  split; [exact H1|]. split; [exact H2 | exact H3].
Defined.

(** ** C9 on the sample catalog *)

Lemma bag_randomizer_sample :
  (forall n : nat, (0 <= sample_random n)%Q /\ (sample_random n < 1)%Q) /\
  Permutation sample_PIECE_TYPES allPieceTypes /\
  exists (ts : list PieceType) (st : list PieceType * nat),
    dequeueMany sample_PIECE_TYPES sample_random 1 14 ([], O) = Some (ts, st) /\
    Permutation (take 7 (drop 0 ts)) allPieceTypes /\
    Permutation (take 7 (drop 7 ts)) allPieceTypes.
Proof.
  split; [exact sample_random_range|]. split; [apply Permutation_refl|].
  destruct (bag_randomizer_groups_of_seven sample_PIECE_TYPES sample_SHAPES
              sample_kicks sample_random double_add double_sub
              sample_random_range (Permutation_refl _)) as (_ & _ & H & _).
  destruct (H 1%nat 14%nat O (le_n 1)) as (ts & st & Hrun & _ & Hgroups).
  exists ts, st. split; [exact Hrun|]. split.
  - apply (Hgroups 0%nat). apply Nat.leb_le. reflexivity.
  - apply (Hgroups 1%nat). apply Nat.leb_le. reflexivity.
Defined.

Example first_two_bags :
  option_map fst (dequeueMany sample_PIECE_TYPES sample_random 1 14 ([], O)) =
  Some [tI; tJ; tO; tZ; tT; tL; tS; tI; tJ; tO; tZ; tT; tL; tS].
Proof. reflexivity. Qed.

(** ** C10 on the sample catalog *)

Lemma active_null_iff_over_sample :
  catalog_ok sample_PIECE_TYPES sample_SHAPES /\
  exists s : State,
    s_exec (fuelFor sample_start) CHardDrop sample_start = Some s /\
    (active s = None <-> state s = over).
Proof.
  split; [exact sample_catalog_ok|].
  destruct (active_null_iff_over sample_PIECE_TYPES sample_SHAPES sample_kicks
              sample_random double_add double_sub sample_catalog_ok) as (_ & _ & H).
  exact (H sample_start CHardDrop (fuelFor sample_start) sample_start_reachable
           (le_n _)).
Defined.

(** ** C7: [reset] lowers a positive score *)

(** C7, as stated, fails: after one soft-drop tap the score is 1, and
    [reset] brings it back to 0. *)
Lemma reset_lowers_the_score :
  exists s s' : State,
    s_play 50 [CTapSoftDrop] = Some s /\
    s_exec 50 CReset s = Some s' /\
    score s = 1 /\ score s' = 0 /\ ~ (score s <= score s').
Proof.
  eexists. eexists.
  split; [vm_compute; reflexivity|].
  split; [vm_compute; reflexivity|].
  split; [reflexivity|]. split; [reflexivity|].
  intros H. apply H. reflexivity.
Qed.

Lemma score_never_decreases_sample :
  s_reachable sample_start /\
  forall (c : Command) (s' : State),
    c <> CReset -> s_exec 50 c sample_start = Some s' -> score sample_start <= score s'.
Proof.
  split; [exact sample_start_reachable|].
  destruct (score_never_decreases_except_reset sample_PIECE_TYPES sample_SHAPES
              sample_kicks sample_random double_add double_sub sample_start sample_start_reachable)
    as (_ & H & _).
  intros c s'. exact (H c 50%nat s').
Defined.

(** ** C3: [setSoftDrop] in the over phase *)

Lemma sample_over_played : s_play 50 game_over_run = Some sample_over.
Proof. vm_compute. reflexivity. Qed.

(** C3, as stated, fails: in the over phase [setSoftDrop true] sets the
    soft-drop flag and zeroes the gravity timer. *)
Lemma setSoftDrop_changes_over_state :
  s_reachable sample_over /\ state sample_over = over /\
  exists s' : State,
    s_exec 50 (CSetSoftDrop true) sample_over = Some s' /\
    softDropActive sample_over = false /\ softDropActive s' = true /\
    gravityTimer sample_over = (500 # 1)%Q /\ gravityTimer s' = 0%Q /\
    s' <> sample_over.
Proof.
  split; [exact (play_reachable _ _ _ _ _ _ _ _ _ sample_over_played)|].
  split; [reflexivity|].
  eexists. split; [vm_compute; reflexivity|].
  repeat (split; [reflexivity|]).
  intros H. apply (f_equal softDropActive) in H. discriminate H.
Qed.

Lemma over_is_terminal_sample :
  state sample_over = over /\
  s_exec 50 CHardDrop sample_over = Some sample_over /\
  s_exec 50 (CUpdate (1000 # 1)) sample_over = Some sample_over /\
  s_exec 50 (CSetSoftDrop true) sample_over = Some (softDropSet true sample_over).
Proof.
  assert (Hover : state sample_over = over) by reflexivity.
  split; [exact Hover|].
  destruct (over_is_terminal sample_PIECE_TYPES sample_SHAPES sample_kicks
              sample_random double_add double_sub sample_over Hover) as (Hquiet & Hsoft & _).
  split; [|split].
  - apply Hquiet; [discriminate | intros on; discriminate].
  - apply Hquiet; [discriminate | intros on; discriminate].
  - apply Hsoft.
Defined.

(** ** C4: the failed step takes the interval off the timer *)

Lemma sample_landed_played : s_play 50 soft_drop_run = Some sample_landed.
Proof. vm_compute. reflexivity. Qed.

(** C4, as stated, fails: the piece rests on the floor, the timer is 0 and
    the interval 50; after [update 50] no step was made and no lock took
    place, and the timer is 0 again, not 50: the failed attempt consumed
    the interval. *)
Lemma failed_step_consumes_the_interval :
  s_reachable sample_landed /\
  state sample_landed = playing /\
  active sample_landed = Some (mkPiece tI 0 3 20) /\
  softDropActive sample_landed = true /\
  gravityTimer sample_landed = 0%Q /\
  s_collides (board sample_landed) tI 3 (20 + 1) 0 = true /\
  exists s' : State,
    s_update 50 (50 # 1) sample_landed = Some s' /\
    active s' = active sample_landed /\ grounded s' = true /\
    state s' = playing /\
    (gravityTimer s' == 0)%Q /\
    ~ (gravityTimer s' == gravityTimer sample_landed + (50 # 1))%Q.
Proof.
  split; [exact (play_reachable _ _ _ _ _ _ _ _ _ sample_landed_played)|].
  repeat (split; [reflexivity|]).
  eexists. split; [vm_compute; reflexivity|].
  repeat (split; [reflexivity|]).
  intros H. discriminate H.
Qed.

Lemma update_sample_start :
  catalog_ok sample_PIECE_TYPES sample_SHAPES /\
  Invariant sample_start /\
  state sample_start = playing /\
  active sample_start = Some (mkPiece tI 0 3 (-2)) /\
  (fuelFor sample_start <= fuelFor sample_start)%nat /\
  exists s' : State,
    s_update (fuelFor sample_start) (1000 # 1) sample_start = Some s'.
Proof.
  assert (Hinv : Invariant sample_start)
    by exact (reachable_Invariant _ _ _ _ _ _ _ sample_start_reachable).
  split; [exact sample_catalog_ok|]. split; [exact Hinv|].
  split; [reflexivity|]. split; [reflexivity|]. split; [apply le_n|].
  destruct (update_gravity_then_lock_delay sample_PIECE_TYPES sample_SHAPES
              sample_random double_add double_sub (fuelFor sample_start) (1000 # 1) sample_start
              (mkPiece tI 0 3 (-2)) sample_catalog_ok Hinv eq_refl eq_refl (le_n _))
    as (s' & k & failed & s2 & Hrun & _).
  exists s'. exact Hrun.
Defined.

(** Two runs on which the rounding of the doubles decides.  Three frames of
    a third of a second: the exact sum is below 1000, the rounded sum is
    1000 and the piece steps. *)
Example three_thirds_make_a_step :
  (third_of_a_second + third_of_a_second + third_of_a_second < 1000 # 1)%Q /\
  option_map (fun s => (active s, gravityTimer s))
    (s_play 50 (repeat (CUpdate third_of_a_second) 3))
  = Some (Some (mkPiece tI 0 3 (-1)), 0%Q).
Proof. split; [reflexivity | vm_compute; reflexivity]. Qed.

(** Sixty frames at 60 Hz: the exact sum is above 1000, the rounded sums stop
    short of it and the piece has not moved. *)
Example sixty_frames_make_no_step :
  (1000 # 1 < inject_Z 60 * frame_at_60Hz)%Q /\
  option_map (fun s => (active s, gravityTimer s))
    (s_play 50 (repeat (CUpdate frame_at_60Hz) 60))
  = Some (Some (mkPiece tI 0 3 (-2)), 1099511627775999 # 1099511627776).
Proof. split; [reflexivity | vm_compute; reflexivity]. Qed.

(** ** C2: a second hold right after the first *)

(** C2: the code does not do what the claim says.  In a new game, with an
    empty hold slot, [hold] stores the I piece and spawns the J piece; the
    spawn turns [canHold] back on, so that a second [hold] right away swaps
    the two pieces instead of doing nothing. *)
Theorem second_hold_swaps_again :
  state sample_start = playing /\ holdPiece sample_start = None /\
  canHold sample_start = true /\ active sample_start = Some (createPiece tI) /\
  exists s1 s2 : State,
    s_hold 50 sample_start = Some s1 /\
    holdPiece s1 = Some tI /\ active s1 = Some (createPiece tJ) /\
    state s1 = playing /\ canHold s1 = true /\
    s_hold 50 s1 = Some s2 /\
    holdPiece s2 = Some tJ /\ active s2 = Some (createPiece tI) /\
    canHold s2 = false /\ s2 <> s1.
Proof.
  do 4 (split; [reflexivity|]).
  eexists. eexists.
  split; [vm_compute; reflexivity|].
  do 4 (split; [reflexivity|]).
  split; [vm_compute; reflexivity|].
  do 3 (split; [reflexivity|]).
  intros H. apply (f_equal canHold) in H. discriminate H.
Qed.

(** ** C8: hard drop *)

Lemma sample_cavity_played : s_play 50 cavity_run = Some sample_cavity.
Proof. vm_compute. reflexivity. Qed.

(** C8, as stated, fails: [hardDrop] moves the O piece down 10 rows, onto
    the pieces above the bridge, although the piece translated down by 21
    rows, into the cavity under the bridge, does not collide either. *)
Lemma hardDrop_stops_above_a_cavity :
  s_reachable sample_cavity /\
  state sample_cavity = playing /\
  active sample_cavity = Some (mkPiece tO 0 1 (-1)) /\
  getDropDistance sample_SHAPES 50 sample_cavity = Some 10 /\
  s_collides (board sample_cavity) tO 1 (-1 + 11) 0 = true /\
  s_collides (board sample_cavity) tO 1 (-1 + 21) 0 = false /\
  exists s' : State,
    s_hardDrop 50 sample_cavity = Some s' /\
    score s' = score sample_cavity + 2 * 10 /\
    cellAt (board s') 9 2 = Some tO /\ cellAt (board s') 10 3 = Some tO /\
    cellAt (board s') 20 2 = None /\ cellAt (board s') 21 3 = None.
Proof.
  split; [exact (play_reachable _ _ _ _ _ _ _ _ _ sample_cavity_played)|].
  do 5 (split; [reflexivity|]).
  eexists. split; [vm_compute; reflexivity|].
  repeat split; reflexivity.
Qed.

(** C8, amended. In the playing phase with an active piece [hardDrop]
    returns, and its distance d >= 0 is the length of the free straight run
    below the piece: the piece translated down by 1, ..., d rows does not
    collide, translated by d + 1 rows it does.  With d = 0 nothing changes.
    Otherwise the piece moves down d rows, the score grows by 2 * d and the
    piece is locked in the same call.  On the sample catalog, in a new game
    whose first piece is O: the O piece is stamped on the two bottom rows,
    the score grows by 2 * 21, the next piece of the queue is spawned and
    the phase is still playing. *)
Theorem hardDrop_drops_and_locks :
  (forall (PIECE_TYPES : list PieceType) (TETROMINO_SHAPES : PieceType -> list Matrix)
          (Math_random : nat -> Q) (fuel : nat) (s : State) (a : ActivePiece),
     catalog_ok PIECE_TYPES TETROMINO_SHAPES -> Invariant s ->
     state s = playing -> active s = Some a ->
     (fuelFor s <= fuel)%nat ->
     exists (d : Z) (s' : State),
       hardDrop PIECE_TYPES TETROMINO_SHAPES Math_random fuel s = Some s' /\
       getDropDistance TETROMINO_SHAPES fuel s = Some d /\
       0 <= d /\
       (forall i : Z, 1 <= i <= d ->
          collides TETROMINO_SHAPES (board s) (p_type a) (p_x a) (p_y a + i)
            (p_rotation a) = false) /\
       collides TETROMINO_SHAPES (board s) (p_type a) (p_x a) (p_y a + d + 1)
         (p_rotation a) = true /\
       (d = 0 -> s' = s) /\
       (0 < d ->
          lockPiece PIECE_TYPES TETROMINO_SHAPES Math_random fuel (dropped d a s)
            = Some s' /\
          active (dropped d a s) =
            Some (mkPiece (p_type a) (p_rotation a) (p_x a) (p_y a + d)) /\
          score (dropped d a s) = score s + 2 * d /\
          score s + 2 * d <= score s')) /\
  (exists s0 s1 : State,
     newGame sample_PIECE_TYPES sample_SHAPES zero_random 50 = Some s0 /\
     board s0 = createBoard /\ active s0 = Some (createPiece tO) /\
     queue s0 = [tT; tS; tZ; tJ; tL; tI] /\
     getDropDistance sample_SHAPES 50 s0 = Some 21 /\
     hardDrop sample_PIECE_TYPES sample_SHAPES zero_random 50 s0 = Some s1 /\
     board s1 = board_with_O /\
     score s1 = score s0 + 2 * 21 /\
     active s1 = Some (createPiece tT) /\
     state s1 = playing).
Proof.
  split.
  - intros PT SH RND fuel s a Hcat Hinv Hst Ha Hfuel.
    exact (hardDrop_straight_run PT SH RND fuel s a Hcat Hinv Hst Ha Hfuel).
  - eexists. eexists.
    split; [vm_compute; reflexivity|].
    do 4 (split; [reflexivity|]).
    split; [vm_compute; reflexivity|].
    repeat split; reflexivity.
Qed.

Lemma hardDrop_sample_start :
  catalog_ok sample_PIECE_TYPES sample_SHAPES /\
  Invariant sample_start /\
  state sample_start = playing /\
  active sample_start = Some (mkPiece tI 0 3 (-2)) /\
  (fuelFor sample_start <= fuelFor sample_start)%nat /\
  exists (d : Z) (s' : State),
    s_hardDrop (fuelFor sample_start) sample_start = Some s' /\
    getDropDistance sample_SHAPES (fuelFor sample_start) sample_start = Some d.
Proof.
  assert (Hinv : Invariant sample_start)
    by exact (reachable_Invariant _ _ _ _ _ _ _ sample_start_reachable).
  split; [exact sample_catalog_ok|]. split; [exact Hinv|].
  split; [reflexivity|]. split; [reflexivity|]. split; [apply le_n|].
  destruct hardDrop_drops_and_locks as [Hgeneral _].
  destruct (Hgeneral sample_PIECE_TYPES sample_SHAPES sample_random
              (fuelFor sample_start) sample_start (mkPiece tI 0 3 (-2))
              sample_catalog_ok Hinv eq_refl eq_refl (le_n _))
    as (d & s' & Hrun & Hd & _).
  exists d, s'. split; [exact Hrun | exact Hd].
Defined.

(** ** The further properties on the sample game *)

Lemma sample_start_board_ok : board_ok (board sample_start).
Proof.
  exact (sane_board _ (proj1 (reachable_Invariant _ _ _ _ _ _ _ sample_start_reachable))).
Qed.

Lemma lock_stamps_the_piece_sample :
  board_ok (board sample_start) /\
  board_ok (fst (stamped sample_SHAPES sample_start (mkPiece tO 0 4 20))).
Proof.
  split; [exact sample_start_board_ok|].
  destruct (lock_stamps_the_piece sample_SHAPES sample_kicks sample_start
              (mkPiece tO 0 4 20) sample_start_board_ok) as (_ & H & _).
  exact H.
Defined.


Lemma active_piece_is_never_blocked_sample :
  s_reachable sample_start /\
  forall c : Cell,
    In c (getActiveCells sample_SHAPES sample_start) ->
    ~ blocked (getBoard sample_start) (c_x c) (c_y c).
Proof.
  split; [exact sample_start_reachable|].
  destruct (active_piece_is_never_blocked _ _ _ _ _ _ sample_start sample_start_reachable)
    as [H _].
  exact H.
Defined.


Lemma no_full_row_survives_sample :
  s_reachable sample_start /\ board_ok (getBoard sample_start).
Proof.
  split; [exact sample_start_reachable|].
  destruct (no_full_row_survives _ _ _ _ _ _ sample_start sample_start_reachable)
    as [H _].
  exact H.
Defined.

Lemma preview_sample :
  catalog_ok sample_PIECE_TYPES sample_SHAPES /\
  (1 <= 50)%nat /\
  s_reachable sample_start /\
  exists s' : State,
    spawnNextPiece sample_PIECE_TYPES sample_SHAPES sample_random 50 sample_start
      = Some s' /\
    getNextPieces (Some 4) s' = tail (getNextPieces None sample_start).
Proof.
  assert (Hfuel : (1 <= 50)%nat) by lia.
  split; [exact sample_catalog_ok|]. split; [exact Hfuel|].
  split; [exact sample_start_reachable|].
  destruct (preview_is_full_and_in_spawn_order sample_PIECE_TYPES sample_SHAPES
              sample_kicks sample_random double_add double_sub 50 sample_start
              sample_catalog_ok Hfuel sample_start_reachable)
    as (_ & _ & t & s' & Hspawn & _ & _ & Hnext).
  exists s'. split; [exact Hspawn | exact Hnext].
Defined.

Lemma lockPiece_sample :
  catalog_ok sample_PIECE_TYPES sample_SHAPES /\
  board_ok (board sample_landed) /\
  state sample_landed = playing /\
  active sample_landed = Some (mkPiece tI 0 3 20) /\
  (2 * Z.to_nat TOTAL_ROWS <= 50)%nat /\
  exists s' : State,
    lockPiece sample_PIECE_TYPES sample_SHAPES sample_random 50 sample_landed
      = Some s'.
Proof.
  assert (Hok : board_ok (board sample_landed))
    by (split; [reflexivity | apply Forall_replicate; reflexivity]).
  assert (Hfuel : (2 * Z.to_nat TOTAL_ROWS <= 50)%nat) by (vm_compute; lia).
  split; [exact sample_catalog_ok|]. split; [exact Hok|].
  split; [reflexivity|]. split; [reflexivity|]. split; [exact Hfuel|].
  destruct (lockPiece_tops_out_or_clears sample_PIECE_TYPES sample_SHAPES
              sample_random 50 sample_landed (mkPiece tI 0 3 20)
              sample_catalog_ok Hok eq_refl eq_refl Hfuel) as (s' & Hlock & _).
  exists s'. exact Hlock.
Defined.

Lemma ghost_sample :
  catalog_ok sample_PIECE_TYPES sample_SHAPES /\
  s_reachable sample_start /\
  (fuelFor sample_start <= fuelFor sample_start)%nat /\
  exists cells : list Cell,
    getGhostCells sample_SHAPES (fuelFor sample_start) sample_start = Some cells.
Proof.
  split; [exact sample_catalog_ok|]. split; [exact sample_start_reachable|].
  split; [apply le_n|].
  destruct (ghost_is_the_dropped_piece _ _ _ _ _ _ (fuelFor sample_start) sample_start
              sample_catalog_ok sample_start_reachable (le_n _))
    as (d & cells & Hghost & _).
  exists cells. exact Hghost.
Defined.

Lemma move_sample :
  state sample_start = playing /\
  active sample_start = Some (mkPiece tI 0 3 (-2)) /\
  move sample_SHAPES 1 sample_start =
    (if s_collides (board sample_start) tI (3 + 1) (-2) 0 then sample_start
     else shifted sample_SHAPES 1 sample_start (mkPiece tI 0 3 (-2))).
Proof.
  split; [reflexivity|]. split; [reflexivity|].
  exact (move_shifts_or_leaves sample_SHAPES 1 sample_start (mkPiece tI 0 3 (-2))
           eq_refl eq_refl).
Defined.

Lemma rotate_sample :
  state sample_start = playing /\
  active sample_start = Some (mkPiece tI 0 3 (-2)) /\
  (forallb (kickFails sample_SHAPES sample_start (mkPiece tI 0 3 (-2)) 1)
     (sample_kicks tI 0 1) = true ->
   rotate sample_SHAPES sample_kicks true sample_start = sample_start).
Proof.
  split; [reflexivity|]. split; [reflexivity|].
  destruct (rotate_takes_the_first_free_kick sample_SHAPES sample_kicks true
              sample_start (mkPiece tI 0 3 (-2)) eq_refl eq_refl) as [H _].
  exact H.
Defined.

Lemma tapSoftDrop_sample :
  s_reachable sample_start /\
  state sample_start = playing /\
  active sample_start = Some (mkPiece tI 0 3 (-2)) /\
  score (tapSoftDrop sample_SHAPES sample_start) = score sample_start + 1.
Proof.
  split; [exact sample_start_reachable|]. split; [reflexivity|]. split; [reflexivity|].
  pose proof (tapSoftDrop_steps_or_rests _ _ _ _ _ _ sample_start (mkPiece tI 0 3 (-2))
                sample_start_reachable eq_refl eq_refl) as H.
  change (grounded sample_start) with false in H. cbv iota in H.
  destruct H as (_ & H & _). exact H.
Defined.

Lemma pause_sample :
  state sample_start = playing /\
  forallb gameplay [CMove 1; CHardDrop; CUpdate (1000 # 1)] = true /\
  run sample_PIECE_TYPES sample_SHAPES sample_kicks sample_random double_add double_sub 50
    (CTogglePause :: [CMove 1; CHardDrop; CUpdate (1000 # 1)] ++ [CTogglePause])
    sample_start
  = Some (set_softDropActive false sample_start).
Proof.
  split; [reflexivity|]. split; [reflexivity|].
  exact (pause_freezes_the_game _ _ _ _ _ _ 50 [CMove 1; CHardDrop; CUpdate (1000 # 1)]
           sample_start eq_refl eq_refl).
Defined.

Lemma lock_free_sample :
  lockFree CHold = true /\
  exists s' : State,
    s_exec 50 CHold sample_start = Some s' /\ board s' = board sample_start.
Proof.
  split; [reflexivity|].
  destruct (s_exec 50 CHold sample_start) as [s'|] eqn:Hrun;
    [|vm_compute in Hrun; discriminate].
  exists s'. split; [reflexivity|].
  destruct (lock_free_commands_keep_the_board _ _ _ _ _ _ 50 CHold sample_start s'
              eq_refl Hrun) as [H _].
  exact H.
Defined.

Lemma hold_slot_sample :
  CHardDrop <> CReset /\
  exists s' : State,
    s_exec 50 CHardDrop sample_start = Some s' /\
    (getHold s' = getHold sample_start \/
     CHardDrop = CHold /\ state sample_start = playing /\
     canHold sample_start = true /\
     exists a : ActivePiece,
       active sample_start = Some a /\ getHold s' = Some (p_type a)).
Proof.
  assert (Hc : CHardDrop <> CReset) by discriminate.
  split; [exact Hc|].
  destruct (s_exec 50 CHardDrop sample_start) as [s'|] eqn:Hrun;
    [|vm_compute in Hrun; discriminate].
  exists s'. split; [reflexivity|].
  exact (hold_slot_changes_by_hold_only _ _ _ _ _ _ 50 CHardDrop sample_start s' Hc Hrun).
Defined.

Lemma clearLines_again_sample :
  board_ok two_full_rows /\
  clearLines 50 two_full_rows = Some (two_rows_cleared, 2) /\
  noFullRows two_rows_cleared.
Proof.
  assert (Hok : board_ok two_full_rows)
    by (split; [reflexivity | repeat constructor]).
  assert (Hrun : clearLines 50 two_full_rows = Some (two_rows_cleared, 2))
    by (vm_compute; reflexivity).
  split; [exact Hok|]. split; [exact Hrun|].
  destruct (clearLines_leaves_nothing_to_clear 50 two_full_rows two_rows_cleared 2
              Hok Hrun) as (_ & H & _).
  exact H.
Defined.

Lemma reset_sample :
  catalog_ok sample_PIECE_TYPES sample_SHAPES /\
  (1 <= 50)%nat /\
  exists s' : State,
    reset sample_PIECE_TYPES sample_SHAPES sample_random 50 sample_over = Some s' /\
    getBoard s' = createBoard.
Proof.
  assert (Hfuel : (1 <= 50)%nat) by lia.
  split; [exact sample_catalog_ok|]. split; [exact Hfuel|].
  destruct (reset_starts_afresh sample_PIECE_TYPES sample_SHAPES sample_random 50
              sample_over sample_catalog_ok Hfuel) as (s' & Hrun & Hboard & _).
  exists s'. split; [exact Hrun | exact Hboard].
Defined.

Lemma queue_sample :
  length sample_PIECE_TYPES = 7%nat /\
  s_reachable sample_start /\
  (6 <= length (queue sample_start) <= 12)%nat.
Proof.
  split; [reflexivity|]. split; [exact sample_start_reachable|].
  exact (queue_holds_six_to_twelve sample_PIECE_TYPES sample_SHAPES sample_kicks
           sample_random double_add double_sub sample_start eq_refl sample_start_reachable).
Defined.

Lemma pause_key_sample :
  noKey (mkKey (Some Keys.KeyP) Keys.KeyP false) = false /\
  includes [Keys.KeyP; Keys.Escape] Keys.KeyP = true /\
  run sample_PIECE_TYPES sample_SHAPES sample_kicks sample_random double_add double_sub 50
    (fst (keydown (mkKey (Some Keys.KeyP) Keys.KeyP false) sample_start)) sample_start
  = Some (togglePause sample_start).
Proof.
  split; [reflexivity|]. split; [reflexivity|].
  destruct (pause_key_and_held_arrow_down sample_PIECE_TYPES sample_SHAPES
              sample_kicks sample_random double_add double_sub 50
              (mkKey (Some Keys.KeyP) Keys.KeyP false)
              sample_start eq_refl) as [H _].
  apply H. reflexivity.
Defined.

Lemma drawBoard_sample :
  catalog_ok sample_PIECE_TYPES sample_SHAPES /\
  s_reachable sample_start /\
  (fuelFor sample_start <= fuelFor sample_start)%nat /\
  exists calls : list DrawCall,
    drawBoard sample_SHAPES (fuelFor sample_start) sample_start = Some calls /\
    forall c : DrawCall, In c calls ->
      0 <= d_x c < COLS /\ 0 <= d_y c < VISIBLE_ROWS.
Proof.
  split; [exact sample_catalog_ok|]. split; [exact sample_start_reachable|].
  split; [apply le_n|].
  destruct (drawBoard_stays_on_the_canvas _ _ _ _ _ _ (fuelFor sample_start)
              sample_start sample_catalog_ok sample_start_reachable (le_n _))
    as (d & cells & calls & _ & _ & _ & Hdraw & _ & Hin & _).
  exists calls. split; [exact Hdraw | exact Hin].
Defined.
